(** * Seat booking under concurrency: a shallow embedding

    The development follows the layout of the repository:

    - [Env]                    src/common/config/env.ts
    - the store of record (Prisma over PostgreSQL) and the cache nodes
      (Redis), as far as the services use them;
    - [RedlockService]         src/common/lock/redlock.service.ts
    - [RedisLockService]       src/common/lock/redis-lock.service.ts
    - [TransactionService]     src/common/transaction/transaction.service.ts
    - [IdempotencyService]     src/common/idempotency/idempotency.service.ts
    - [BookingService]         src/booking/booking.service.ts (both revisions)
    - [SeatService]            src/seat/seat.service.ts
    - [BookingCleanupService]  src/booking/booking.cleanup.service.ts

    JavaScript numbers are binary64 floats: a finite one is a [double],
    and the products, sums and differences that the program takes of
    them are rounded as IEEE 754 prescribes, by the operations of the
    Standard Library's [SpecFloat].  Instants ([Date.now()]) and counts
    are integers ([Z]); the column [version] of a seat is a 32-bit
    integer.

    The program is asynchronous: at every [await] of an I/O operation other
    processes may run.  A [World] therefore carries a schedule, a list of
    actions of the environment on the shared state (store of record, cache
    nodes, clock); every awaited I/O operation first lets the next action
    of the schedule happen.  An empty schedule is a quiet environment. *)

From Stdlib Require Import ZArith QArith Qround Lia Lqa Ascii String.
From Corelib Require Floats.SpecFloat.
From stdpp Require Import base option list gmap strings fin_maps pretty.

Local Open Scope Z_scope.

(** ** Numbers *)

(** A finite JavaScript number: the binary64 float
    [mantissa × 2^exponent].  The numbers that the operations below
    return have an odd mantissa (or are [Double 0 0]), so that equal
    numbers are equal terms. *)
Record double : Type := Double { mantissa : Z; exponent : Z }.

(** The value of a finite number; the order of numbers is the order of
    their values. *)
Definition to_Q (x : double) : Q := inject_Z (mantissa x) * 2 ^ exponent x.
Coercion to_Q : double >-> Q.

Fixpoint odd_part (m : positive) (e : Z) : positive * Z :=
  match m with
  | xO m' => odd_part m' (e + 1)
  | _ => (m, e)
  end.

Definition normal (m e : Z) : double :=
  match m with
  | Z0 => Double 0 0
  | Zpos p => Double (Zpos (odd_part p e).1) (odd_part p e).2
  | Zneg p => Double (Zneg (odd_part p e).1) (odd_part p e).2
  end.

(** An integer as a number: the integers of the program (instants,
    counts, integer literals) are below 2^53 in magnitude, and are
    numbers as they are. *)
Definition of_Z (z : Z) : double := normal z 0.
Coercion of_Z : Z >-> double.

(** A JavaScript number. *)
Inductive JsNumber : Type :=
| JsNaN
| JsInfinity (negative : bool)
| JsFinite (x : double).
Coercion JsFinite : double >-> JsNumber.

(** To and from the binary64 format of [SpecFloat] (53 bits of
    precision, exponents below 1024).  The sign of a zero is not kept:
    the program does not observe it. *)
Definition to_binary64 (x : JsNumber) : SpecFloat.spec_float :=
  match x with
  | JsNaN => SpecFloat.S754_nan
  | JsInfinity negative => SpecFloat.S754_infinity negative
  | JsFinite x => SpecFloat.binary_normalize 53 1024 (mantissa x) (exponent x) false
  end.

Definition of_binary64 (x : SpecFloat.spec_float) : JsNumber :=
  match x with
  | SpecFloat.S754_nan => JsNaN
  | SpecFloat.S754_infinity negative => JsInfinity negative
  | SpecFloat.S754_zero _ => JsFinite (Double 0 0)
  | SpecFloat.S754_finite negative m e =>
      JsFinite (normal (if negative then Zneg m else Zpos m) e)
  end.

(** [x * y], [x - y], [x + y] and [x / y]: the exact result, rounded to
    the nearest binary64 number (ties to even), infinite on overflow. *)
Definition js_mul (x y : JsNumber) : JsNumber :=
  of_binary64 (SpecFloat.SFmul 53 1024 (to_binary64 x) (to_binary64 y)).
Definition js_sub (x y : JsNumber) : JsNumber :=
  of_binary64 (SpecFloat.SFsub 53 1024 (to_binary64 x) (to_binary64 y)).
Definition js_add (x y : JsNumber) : JsNumber :=
  of_binary64 (SpecFloat.SFadd 53 1024 (to_binary64 x) (to_binary64 y)).
Definition js_div (x y : JsNumber) : JsNumber :=
  of_binary64 (SpecFloat.SFdiv 53 1024 (to_binary64 x) (to_binary64 y)).

(** The numeric literal [digits × 10^-places], as [0.01] is
    [decimal 1 2]: the binary64 number nearest to it. *)
Definition decimal (digits : Z) (places : nat) : double :=
  match js_div digits (10 ^ Z.of_nat places) with
  | JsFinite x => x
  | _ => Double 0 0
  end.

(** [x <= y] and [x < y] on values, as booleans. *)
Definition Qleb (x y : Q) : bool := if Qlt_le_dec y x then false else true.
Definition Qltb (x y : Q) : bool := if Qlt_le_dec x y then true else false.

(** [x <= y] and [x < y] on numbers: false when one of them is NaN. *)
Definition js_le (x y : JsNumber) : bool :=
  match x, y with
  | JsNaN, _ | _, JsNaN => false
  | JsInfinity negative, JsInfinity negative' => negative || negb negative'
  | JsInfinity negative, JsFinite _ => negative
  | JsFinite _, JsInfinity negative => negb negative
  | JsFinite x, JsFinite y => Qleb x y
  end.

Definition js_lt (x y : JsNumber) : bool :=
  match x, y with
  | JsNaN, _ | _, JsNaN => false
  | JsInfinity negative, JsInfinity negative' => negative && negb negative'
  | JsInfinity negative, JsFinite _ => negative
  | JsFinite _, JsInfinity negative => negb negative
  | JsFinite x, JsFinite y => Qltb x y
  end.

(** A number in a condition: [NaN] and zero are falsy. *)
Definition truthy (x : JsNumber) : bool :=
  match x with
  | JsNaN => false
  | JsInfinity _ => true
  | JsFinite x => negb (Qeq_bool x 0)
  end.

(** ** Host built-ins *)

(** What the program takes from its host: the coercion [Number] applied to
    an environment entry ([undefined] when the variable is unset), and the
    SHA-256 digest in hexadecimal. *)
Class Host : Type := {
  Number : option string → JsNumber;
  Number_undefined : Number None = JsNaN;
  sha256_hex : string → string;
}.

(** [JSON.stringify] and [JSON.parse] at a type; [JSON.parse] throws on
    text that is not JSON. *)
Class Json (T : Type) : Type := {
  JSON_stringify : T → string;
  JSON_parse : string → option T;
}.

(** [Math.max] *)
Definition Math_max (x y : JsNumber) : JsNumber :=
  match x, y with
  | JsNaN, _ | _, JsNaN => JsNaN
  | _, _ => if js_lt x y then y else x
  end.

(** [Math.floor] of a finite value, as an integer. *)
Definition Math_floor (x : Q) : Z := Qfloor x.

(** [Math.floor] of a number: an infinite number and NaN are left as
    they are. *)
Definition js_floor (x : JsNumber) : JsNumber :=
  match x with
  | JsFinite x => JsFinite (of_Z (Math_floor x))
  | _ => x
  end.

(** [new Date(x).getTime()]: the time value is truncated to an integer.
    An invalid date, of an [x] that is not finite, is not told apart. *)
Definition Date_of (x : JsNumber) : Z :=
  match x with
  | JsFinite x => Z.quot (Qnum x) (Zpos (Qden x))
  | _ => 0
  end.

#[global] Arguments Qfloor : simpl never.
#[global] Arguments Qceiling : simpl never.
#[global] Arguments Qleb : simpl never.
#[global] Arguments Qltb : simpl never.
#[global] Arguments to_Q : simpl never.
#[global] Arguments of_Z : simpl never.
#[global] Arguments js_mul : simpl never.
#[global] Arguments js_sub : simpl never.
#[global] Arguments js_add : simpl never.
#[global] Arguments js_div : simpl never.
#[global] Arguments js_le : simpl never.
#[global] Arguments js_lt : simpl never.
#[global] Arguments js_floor : simpl never.
#[global] Arguments truthy : simpl never.
#[global] Arguments Math_max : simpl never.
#[global] Arguments Math_floor : simpl never.
#[global] Arguments Date_of : simpl never.

(** ** src/common/config/env.ts *)

Module Env.
Section WithHost.
Context `{Host}.

(** [process.env] *)
Variable process_env : gmap string string.

Definition Number_isFinite (value : JsNumber) : bool :=
  match value with JsFinite _ => true | _ => false end.

(** [value > 0] on JavaScript numbers: false on NaN. *)
Definition gt_zero (value : JsNumber) : bool :=
  match value with
  | JsNaN => false
  | JsInfinity negative => negb negative
  | JsFinite x => Qltb 0 x
  end.

(** The default is a numeric literal at every call site, hence finite. *)
Definition envNumber (key : string) (defaultValue : double) : double :=
  let value := Number (process_env !! key) in
  if Number_isFinite value && gt_zero value then
    match value with JsFinite x => x | _ => defaultValue end
  else defaultValue.

End WithHost.

(** The numeric knobs of the program, with the defaults of their call
    sites. *)
Definition knobs : list (string * double) :=
  [ ("IDEMPOTENCY_TTL_MS", of_Z 300000);
    ("REDLOCK_DRIFT_FACTOR", decimal 1 2);
    ("REDLOCK_RETRY_COUNT", of_Z 3);
    ("REDLOCK_RETRY_DELAY_MS", of_Z 200);
    ("LOCK_TTL_MS", of_Z 5000);
    ("LOCK_TTL_MS", of_Z 3000);
    ("HOLD_TTL_MS", of_Z 120000);
    ("HOLD_SWEEP_INTERVAL_MS", of_Z 10000);
    ("BOOKING_CLEANUP_INTERVAL_MS", of_Z 60000);
    ("IDEMPOTENCY_CLEANUP_INTERVAL_MS", of_Z 60000) ].

End Env.

(** ** Failures *)

Inductive Exception : Type :=
| BadRequestException (message : string)
| ConflictException (message : string)
| NotFoundException (message : string)
| InternalServerErrorException (message : string)
| SyntaxError (message : string)
| PrismaClientKnownRequestError (code : string)
| ReplyError (message : string).

Inductive Result (A : Type) : Type :=
| Ok (value : A)
| Err (error : Exception).
Arguments Ok {A} value.
Arguments Err {A} error.

(** ** The relational model (prisma/migrations) *)

Inductive SeatStatus : Type := AVAILABLE | HOLD | BOOKED.
Inductive BookingStatus : Type := CONFIRMED | CANCELLED | EXPIRED.
Inductive IdempotencyState : Type := IN_PROGRESS | SUCCESS | FAILED.

#[global] Instance SeatStatus_eq_dec : EqDecision SeatStatus.
Proof. solve_decision. Defined.
#[global] Instance BookingStatus_eq_dec : EqDecision BookingStatus.
Proof. solve_decision. Defined.
#[global] Instance IdempotencyState_eq_dec : EqDecision IdempotencyState.
Proof. solve_decision. Defined.

(** The columns [createdAt] and [updatedAt] of Seat and Booking are never
    read by the program and are left out.  A seat is stored under its
    primary key [id], which is therefore not repeated in the row. *)
Module Seat.
Record t : Type := mk {
  status : SeatStatus;
  version : Z;
  holdExpiresAt : option Z;
}.
End Seat.

Module Booking.
Record t : Type := mk {
  id : string;
  seatId : string;
  userId : string;
  status : BookingStatus;
  idempotencyKey : string;
  expiresAt : option Z;
}.
End Booking.

Module IdempotencyRecord.
Record t : Type := mk {
  idempotencyKey : string;
  state : IdempotencyState;
  requestHash : option string;
  responseData : option string;
  statusCode : option Z;
  createdAt : Z;
  updatedAt : Z;
  expiresAt : Z;
}.
End IdempotencyRecord.

(** The three tables, by primary key.  A value of this type is also used
    for a set of rows written by a transaction that has not committed. *)
Record Store : Type := mkStore {
  seats : gmap string Seat.t;
  bookings : gmap string Booking.t;
  idempotencyRecords : gmap string IdempotencyRecord.t;
}.

Definition noRows : Store := mkStore ∅ ∅ ∅.

(** [written] laid over [base]: rows of [written] win. *)
Definition overlay (written base : Store) : Store :=
  mkStore (seats written ∪ seats base)
          (bookings written ∪ bookings base)
          (idempotencyRecords written ∪ idempotencyRecords base).

(** ** The cache nodes (Redis) *)

(** A node holds, per key, a value and the instant at which it expires. *)
Record Node : Type := mkNode {
  up : bool;
  kv : gmap string (string * Z);
}.

(** The live value of a key. *)
Definition node_get (n : Node) (at_ : Z) (key : string) : option string :=
  match kv n !! key with
  | Some (value, expiry) => if at_ <? expiry then Some value else None
  | None => None
  end.

(** The two Lua scripts of the lock services. *)
Inductive LuaScript : Type :=
| CompareAndDelete
| CompareAndPexpire.

(** ** Worlds *)

Record Shared : Type := mkShared {
  db : Store;
  nodes : list Node;
  now : Z;
}.

(** What was sent to the cache nodes, with the reply, and the sleeps;
    kept to state what a call did. *)
Inductive Event : Type :=
| EvSetPxNx (client : nat) (key token : string) (ttlMs : double) (reply : Result bool)
| EvEval (client : nat) (script : LuaScript) (key token : string) (reply : Result Z)
| EvSleep (ms : double).

(** A [setInterval] registration of [RedlockService.withLock]. *)
Record Interval : Type := mkInterval {
  handle : N;
  interval_key : string;
  interval_token : string;
  interval_ttlMs : double;
  everyMs : JsNumber;
}.

Record World : Type := mkWorld {
  shared : Shared;
  sched : list (Shared → Shared);
  log : list Event;
  entropy : N;
  intervals : list Interval;
}.

Definition set_shared (f : Shared → Shared) (w : World) : World :=
  mkWorld (f (shared w)) (sched w) (log w) (entropy w) (intervals w).
Definition set_db (f : Store → Store) : Shared → Shared :=
  λ s, mkShared (f (db s)) (nodes s) (now s).
Definition set_nodes (f : list Node → list Node) : Shared → Shared :=
  λ s, mkShared (db s) (f (nodes s)) (now s).
Definition set_now (f : Z → Z) : Shared → Shared :=
  λ s, mkShared (db s) (nodes s) (f (now s)).
Definition emit (e : Event) (w : World) : World :=
  mkWorld (shared w) (sched w) (log w ++ [e]) (entropy w) (intervals w).

(** The environment moves: the next action of the schedule happens. *)
Definition env_step (w : World) : World :=
  match sched w with
  | [] => w
  | action :: rest =>
      mkWorld (action (shared w)) rest (log w) (entropy w) (intervals w)
  end.

(** ** Asynchronous computations *)

Definition M (A : Type) : Type := World → Result A * World.

#[global] Instance M_ret : MRet M := λ A a w, (Ok a, w).
#[global] Instance M_throw : MThrow Exception M := λ A e w, (Err e, w).
#[global] Instance M_bind : MBind M :=
  λ A B k m w,
    match m w with
    | (Ok a, w') => k a w'
    | (Err e, w') => (Err e, w')
    end.

(** [try { body } finally { cleanup }]: a failure of [cleanup] replaces
    the outcome of [body]. *)
Definition try_finally {A} (body : M A) (cleanup : M unit) : M A :=
  λ w, match body w with
       | (r, w1) =>
           match cleanup w1 with
           | (Ok _, w2) => (r, w2)
           | (Err e, w2) => (Err e, w2)
           end
       end.

(** The settled outcome of a promise. *)
Definition settle {A} (m : M A) : M (Result A) :=
  λ w, match m w with (r, w') => (Ok r, w') end.

(** [Promise.allSettled]: every promise runs; nothing is thrown. *)
Fixpoint Promise_allSettled {A} (ps : list (M A)) : M (list (Result A)) :=
  match ps with
  | [] => mret []
  | p :: rest =>
      r ← settle p;
      rs ← Promise_allSettled rest;
      mret (r :: rs)
  end.

(** The values of a list of outcomes, or its first failure. *)
Fixpoint all_fulfilled {A} (rs : list (Result A)) : Result (list A) :=
  match rs with
  | [] => Ok []
  | Err e :: _ => Err e
  | Ok a :: rest =>
      match all_fulfilled rest with
      | Ok l => Ok (a :: l)
      | Err e => Err e
      end
  end.

(** [Promise.all]: every promise has been started and runs; the first
    rejection is thrown. *)
Definition Promise_all {A} (ps : list (M A)) : M (list A) :=
  rs ← Promise_allSettled ps;
  match all_fulfilled rs with
  | Ok l => mret l
  | Err e => mthrow e
  end.

Definition Date_now : M Z := λ w, (Ok (now (shared w)), w).

(** [randomUUID()]: the identifiers drawn are pairwise distinct. *)
Definition randomUUID : M string :=
  λ w, (Ok ("uuid-" +:+ pretty (entropy w)),
        mkWorld (shared w) (sched w) (log w) (N.succ (entropy w)) (intervals w)).

(** [setTimeout] clamps its delay to an integer in [1, 2^31-1]. *)
Definition timeout_delay (ms : double) : Z :=
  let d := Qfloor ms in
  if (1 <=? d) && (d <=? 2147483647) then d else 1.

(** [await new Promise((resolve) => setTimeout(resolve, ms))] *)
Definition sleep (ms : double) : M unit :=
  λ w, (Ok tt,
        env_step (set_shared (set_now (λ t, t + timeout_delay ms))
                             (emit (EvSleep ms) w))).

Definition setInterval (key token : string) (ttlMs : double) (every : JsNumber) : M N :=
  λ w, (Ok (entropy w),
        mkWorld (shared w) (sched w) (log w) (N.succ (entropy w))
                (mkInterval (entropy w) key token ttlMs every :: intervals w)).

Definition clearInterval (h : N) : M unit :=
  λ w, (Ok tt,
        mkWorld (shared w) (sched w) (log w) (entropy w)
                (filter (λ i, handle i ≠ h) (intervals w))).

(** ** Commands to a cache node *)

Definition is_integer (q : Q) : bool := (Qnum q mod Zpos (Qden q) =? 0).

(** [SET key token PX ttl NX] at instant [t]. *)
Definition node_set_px_nx (key token : string) (ttlMs t : Z) (n : Node) : bool * Node :=
  match node_get n t key with
  | Some _ => (false, n)
  | None => (true, mkNode (up n) (<[key := (token, t + ttlMs)]> (kv n)))
  end.

(** The scripts: compare the value with the token, then [del] or
    [pexpire]. *)
Definition node_eval (script : LuaScript) (key token : string) (ttlMs t : Z) (n : Node)
  : Z * Node :=
  if decide (node_get n t key = Some token) then
    match script with
    | CompareAndDelete => (1, mkNode (up n) (delete key (kv n)))
    | CompareAndPexpire => (1, mkNode (up n) (<[key := (token, t + ttlMs)]> (kv n)))
    end
  else (0, n).

(** [await client.set(key, token, 'PX', ttlMs, 'NX')]: the reply is ['OK']
    ([true]) or [null]; the command is rejected when the node cannot be
    reached or the expire time is not a positive integer. *)
Definition client_set (client : nat) (key token : string) (ttlMs : double) : M bool :=
  λ w0,
    let w := env_step w0 in
    let reply (r : Result bool) := emit (EvSetPxNx client key token ttlMs r) in
    match nodes (shared w) !! client with
    | Some n =>
        if up n then
          if is_integer ttlMs && Qltb 0 ttlMs then
            let '(ok, n') := node_set_px_nx key token (Qfloor ttlMs) (now (shared w)) n in
            (Ok ok, reply (Ok ok) (set_shared (set_nodes (<[client := n']>)) w))
          else
            let e := ReplyError "ERR invalid expire time in 'set' command" in
            (Err e, reply (Err e) w)
        else
          let e := ReplyError "Connection is closed." in
          (Err e, reply (Err e) w)
    | None =>
        let e := ReplyError "Connection is closed." in
        (Err e, reply (Err e) w)
    end.

(** [await client.eval(script, 1, key, token, ...)] *)
Definition client_eval (client : nat) (script : LuaScript) (key token : string) (ttlMs : double)
  : M Z :=
  λ w0,
    let w := env_step w0 in
    let reply (r : Result Z) := emit (EvEval client script key token r) in
    match nodes (shared w) !! client with
    | Some n =>
        if up n then
          match script with
          | CompareAndPexpire =>
              if is_integer ttlMs then
                let '(r, n') := node_eval script key token (Qfloor ttlMs) (now (shared w)) n in
                (Ok r, reply (Ok r) (set_shared (set_nodes (<[client := n']>)) w))
              else
                let e := ReplyError "ERR value is not an integer or out of range" in
                (Err e, reply (Err e) w)
          | CompareAndDelete =>
              let '(r, n') := node_eval script key token 0 (now (shared w)) n in
              (Ok r, reply (Ok r) (set_shared (set_nodes (<[client := n']>)) w))
          end
        else
          let e := ReplyError "Connection is closed." in
          (Err e, reply (Err e) w)
    | None =>
        let e := ReplyError "Connection is closed." in
        (Err e, reply (Err e) w)
    end.

(** ** Statements of the store of record (Prisma) *)

(** A statement reads the rows visible to it (and CURRENT_TIMESTAMP) and
    answers with a value and the rows it writes, or fails. *)
Definition Stmt (A : Type) : Type := Z → Store → Result (A * Store).

(** A transaction in progress: the rows it has written so far are threaded
    through; they become visible to others at commit. *)
Definition Tx (A : Type) : Type := Store → M (A * Store).

#[global] Instance Tx_ret : MRet Tx := λ A a written, mret (a, written).
#[global] Instance Tx_throw : MThrow Exception Tx := λ A e written, mthrow e.
#[global] Instance Tx_bind : MBind Tx :=
  λ A B k t written, p ← t written; k p.1 p.2.

(** Something done while the transaction is open, but not through it. *)
Definition outside {A} (m : M A) : Tx A := λ written, a ← m; mret (a, written).

(** [await tx.<statement>]: the statement sees the committed rows of the
    moment (read committed) under the transaction's own writes. *)
Definition tx_await {A} (s : Stmt A) : Tx A :=
  λ written w0,
    let w := env_step w0 in
    match s (now (shared w)) (overlay written (db (shared w))) with
    | Ok (a, rows) => (Ok (a, overlay rows written), w)
    | Err e => (Err e, w)
    end.

(** [await this.prisma.<statement>]: a statement on its own commits at
    once. *)
Definition prisma_await {A} (s : Stmt A) : M A :=
  λ w0,
    let w := env_step w0 in
    match s (now (shared w)) (db (shared w)) with
    | Ok (a, rows) => (Ok a, set_shared (set_db (overlay rows)) w)
    | Err e => (Err e, w)
    end.

(** [prisma.$transaction(fn)]: commit when [fn] returns, roll back when
    it throws. *)
Definition prisma_transaction {A} (fn : Tx A) : M A :=
  λ w,
    match fn noRows w with
    | (Ok (a, written), w') => (Ok a, set_shared (set_db (overlay written)) w')
    | (Err e, w') => (Err e, w')
    end.

(** [deleteMany] removes rows, which a set of written rows cannot say;
    the program only uses it outside transactions. *)
Definition prisma_idempotencyRecord_deleteMany
  (where_ : IdempotencyRecord.t → bool) : M Z :=
  λ w0,
    let w := env_step w0 in
    let table := idempotencyRecords (db (shared w)) in
    let hit := filter (λ kr, where_ kr.2 = true) table in
    (Ok (Z.of_nat (size hit)),
     set_shared (set_db (λ d, mkStore (seats d) (bookings d)
                                 (filter (λ kr, where_ kr.2 = false) table))) w).

Module seat.
Definition findUnique (id : string) : Stmt (option Seat.t) :=
  λ _ v, Ok (seats v !! id, noRows).
(** The column [version] is an INTEGER, of 32 bits. *)
Definition in_INTEGER (z : Z) : bool := (-2147483648 <=? z) && (z <=? 2147483647).
(** A statement that would write a version out of the range of its
    column fails, error P2020, and changes no row. *)
Definition updateMany (where_ : string → Seat.t → bool) (data : Seat.t → Seat.t) : Stmt Z :=
  λ _ v,
    let hit := filter (λ kr, where_ kr.1 kr.2 = true) (seats v) in
    if decide (map_Forall (λ _ row, in_INTEGER (Seat.version row) = true) (data <$> hit)) then
      Ok (Z.of_nat (size hit), mkStore (data <$> hit) ∅ ∅)
    else Err (PrismaClientKnownRequestError "P2020").
End seat.

Module booking.
(** Lookup by the unique column [idempotencyKey]. *)
Definition findUnique (idempotencyKey : string) : Stmt (option Booking.t) :=
  λ _ v,
    let hit := filter (λ kr, Booking.idempotencyKey kr.2 = idempotencyKey) (bookings v) in
    Ok (snd <$> head (map_to_list hit), noRows).
Definition findMany (where_ : Booking.t → bool) : Stmt (list Booking.t) :=
  λ _ v,
    let hit := filter (λ kr, where_ kr.2 = true) (bookings v) in
    Ok (snd <$> map_to_list hit, noRows).
(** The primary key and the unique index on [idempotencyKey] are
    enforced: error P2002. *)
Definition create (row : Booking.t) : Stmt Booking.t :=
  λ _ v,
    let same_key :=
      filter (λ kr, Booking.idempotencyKey kr.2 = Booking.idempotencyKey row) (bookings v) in
    if decide (bookings v !! Booking.id row = None ∧ same_key = ∅) then
      Ok (row, mkStore ∅ {[ Booking.id row := row ]} ∅)
    else Err (PrismaClientKnownRequestError "P2002").
Definition updateMany (where_ : Booking.t → bool) (data : Booking.t → Booking.t) : Stmt Z :=
  λ _ v,
    let hit := filter (λ kr, where_ kr.2 = true) (bookings v) in
    Ok (Z.of_nat (size hit), mkStore ∅ (data <$> hit) ∅).
(** Lookup by the primary key, [include: { seat: true }]: the booking
    with the row of its seat. *)
Definition findUnique_include_seat (id : string) : Stmt (option (Booking.t * option Seat.t)) :=
  λ _ v,
    Ok ((λ b, (b, seats v !! Booking.seatId b)) <$> bookings v !! id, noRows).
End booking.

Module idempotencyRecord.
Definition findUnique (idempotencyKey : string) : Stmt (option IdempotencyRecord.t) :=
  λ _ v, Ok (idempotencyRecords v !! idempotencyKey, noRows).
(** [create] with the columns the program gives; [createdAt] and
    [updatedAt] default to CURRENT_TIMESTAMP, the cached response to NULL.
    Primary key: error P2002 when the key is taken. *)
Definition create (idempotencyKey : string) (state : IdempotencyState)
  (requestHash : string) (expiresAt : Z) : Stmt IdempotencyRecord.t :=
  λ current_timestamp v,
    let row :=
      IdempotencyRecord.mk idempotencyKey state (Some requestHash) None None
                           current_timestamp current_timestamp expiresAt in
    match idempotencyRecords v !! idempotencyKey with
    | None => Ok (row, mkStore ∅ ∅ {[ idempotencyKey := row ]})
    | Some _ => Err (PrismaClientKnownRequestError "P2002")
    end.
(** [update] of one row: error P2025 when there is none. *)
Definition update (idempotencyKey : string) (data : IdempotencyRecord.t → IdempotencyRecord.t)
  : Stmt IdempotencyRecord.t :=
  λ _ v,
    match idempotencyRecords v !! idempotencyKey with
    | Some row => Ok (data row, mkStore ∅ ∅ {[ idempotencyKey := data row ]})
    | None => Err (PrismaClientKnownRequestError "P2025")
    end.
End idempotencyRecord.

(** ** src/common/lock/redlock.service.ts *)

Record LockResult : Type := mkLockResult {
  token : string;
  validityTime : JsNumber;
}.

Module RedlockService.

Record t : Type := mk {
  clients : list nat;
  quorum : Z;
  driftFactor : double;
  retryCount : double;
  retryDelayMs : double;
}.

Section WithHost.
Context `{Host}.
Variable process_env : gmap string string.

(** [connections]: the clients opened from REDIS_URLS, each named by the
    index of its node. *)
Definition constructor (connections : list nat) : t :=
  mk connections
     (Math_floor (inject_Z (Z.of_nat (length connections)) / 2) + 1)
     (Env.envNumber process_env "REDLOCK_DRIFT_FACTOR" (decimal 1 2))
     (Env.envNumber process_env "REDLOCK_RETRY_COUNT" 3)
     (Env.envNumber process_env "REDLOCK_RETRY_DELAY_MS" 200).

End WithHost.

Section Methods.
Variable this : t.

Definition acquireLockOnInstance (client : nat) (key token : string) (ttlMs : double) : M bool :=
  result ← client_set client key token ttlMs;
  mret result.

Definition releaseLockOnInstance (client : nat) (key token : string) : M bool :=
  result ← client_eval client CompareAndDelete key token 0;
  mret (result =? 1).

Definition releaseLockOnAllInstances (key token : string) : M unit :=
  Promise_allSettled
    (map (λ client, releaseLockOnInstance client key token) (clients this));;
  mret tt.

(** The [while (attempt < this.retryCount)] loop of [acquireLock], by
    recursion on a bound on the attempts left; the guard of the loop is
    kept, and [acquireLock] starts with a bound that the guard exhausts
    first.  The instants [Date.now()] are integers, and so is their
    difference. *)
Fixpoint acquireLock_loop (bound : nat) (attempt : Z)
  (key token : string) (ttlMs : double) (startTime : Z) : M LockResult :=
  match bound with
  | O => mthrow (ConflictException "Failed to acquire lock on quorum of Redis instances")
  | S bound' =>
      if Qltb (inject_Z attempt) (retryCount this) then
        acquired ← Promise_all
          (map (λ client, acquireLockOnInstance client key token ttlMs) (clients this));
        let successCount := Z.of_nat (length (filter (λ result, result = true) acquired)) in
        if quorum this <=? successCount then
          t ← Date_now;
          let actualValidity :=
            js_sub (js_sub ttlMs (of_Z (t - startTime)))
                   (js_floor (js_mul ttlMs (driftFactor this))) in
          mret (mkLockResult token (Math_max actualValidity 0))
        else
          releaseLockOnAllInstances key token;;
          (if js_lt attempt (js_sub (retryCount this) 1)
           then sleep (retryDelayMs this) else mret tt);;
          acquireLock_loop bound' (attempt + 1) key token ttlMs startTime
      else mthrow (ConflictException "Failed to acquire lock on quorum of Redis instances")
  end.

Definition acquireLock (key : string) (ttlMs : double) : M LockResult :=
  token ← randomUUID;
  startTime ← Date_now;
  t ← Date_now;
  let validityTime :=
    js_sub (js_sub ttlMs (js_floor (js_mul ttlMs (driftFactor this))))
           (of_Z (t - startTime)) in
  if js_le validityTime 0 then
    mthrow (ConflictException "Lock TTL too short for Redlock")
  else
    acquireLock_loop (Z.to_nat (Qceiling (retryCount this))) 0 key token ttlMs startTime.

Definition releaseLock (key token : string) : M unit :=
  releaseLockOnAllInstances key token.

Definition extendLock (key token : string) (ttlMs : double) : M bool :=
  results ← Promise_all
    (map (λ client, client_eval client CompareAndPexpire key token ttlMs) (clients this));
  let successCount := Z.of_nat (length (filter (λ result, result = 1) results)) in
  mret (quorum this <=? successCount).

(** The callback of the timer, [extendLock] on the lock held, is run by
    the event loop between the steps of [work]; here the registration and
    its removal are kept, and what the callback does to the nodes is an
    action of the environment. *)
Definition withLock {A} (key : string) (ttlMs : double) (work : M A)
  (extendIntervalMs : option JsNumber) : M A :=
  lockResult ← acquireLock key ttlMs;
  extendTimer ←
    match extendIntervalMs with
    | Some every =>
        if truthy every && js_lt every (validityTime lockResult) then
          h ← setInterval key (token lockResult) ttlMs every;
          mret (Some h)
        else mret None
    | None => mret None
    end;
  try_finally work
    ((match extendTimer with
      | Some h => clearInterval h
      | None => mret tt
      end);;
     releaseLock key (token lockResult)).

End Methods.
End RedlockService.

(** ** src/common/lock/redis-lock.service.ts *)

Module RedisLockService.

(** The service holds one client, to the node of REDIS_URL. *)
Record t : Type := mk { client : nat }.

Section Methods.
Variable this : t.

Definition acquireLock (key : string) (ttlMs : double) : M string :=
  token ← randomUUID;
  result ← client_set (client this) key token ttlMs;
  if negb result then mthrow (ConflictException "Lock already held")
  else mret token.

Definition releaseLock (key token : string) : M unit :=
  client_eval (client this) CompareAndDelete key token 0;;
  mret tt.

Definition withLock {A} (key : string) (ttlMs : double) (work : M A) : M A :=
  token ← acquireLock key ttlMs;
  try_finally work (releaseLock key token).

End Methods.
End RedisLockService.

(** ** src/common/transaction/transaction.service.ts *)

Module TransactionService.
Definition runInTransaction {A} (operation : Tx A) : M A :=
  prisma_transaction operation.
End TransactionService.

(** ** src/common/idempotency/idempotency.service.ts *)

Record WorkResult (T : Type) : Type := mkWorkResult {
  data : T;
  work_statusCode : Z;
}.
Arguments mkWorkResult {T} data work_statusCode.
Arguments data {T} _.
Arguments work_statusCode {T} _.

Record IdempotencyResult (T : Type) : Type := mkIdempotencyResult {
  isDuplicate : bool;
  cachedResponse : T;
  statusCode : Z;
}.
Arguments mkIdempotencyResult {T} isDuplicate cachedResponse statusCode.
Arguments isDuplicate {T} _.
Arguments cachedResponse {T} _.
Arguments statusCode {T} _.

Module IdempotencyService.

Record t : Type := mk { ttlMs : double }.

Section WithHost.
Context `{Host}.

Definition constructor (process_env : gmap string string) : t :=
  mk (Env.envNumber process_env "IDEMPOTENCY_TTL_MS" 300000).

Variable this : t.

Definition hashRequest {P} `{Json P} (payload : P) : string :=
  let json := JSON_stringify payload in
  sha256_hex json.

(** The [data] of the update in the [finally] block. *)
Definition finalize {T} `{Json T} (finalState : IdempotencyState)
  (result : option (WorkResult T)) (updatedAt : Z)
  (row : IdempotencyRecord.t) : IdempotencyRecord.t :=
  IdempotencyRecord.mk
    (IdempotencyRecord.idempotencyKey row)
    finalState
    (IdempotencyRecord.requestHash row)
    (match finalState, result with
     | SUCCESS, Some r => Some (JSON_stringify (data r))
     | _, _ => None
     end)
    (match finalState, result with
     | SUCCESS, Some r => Some (work_statusCode r)
     | _, _ => None
     end)
    (IdempotencyRecord.createdAt row)
    updatedAt
    (IdempotencyRecord.expiresAt row).

(** The [data] of the update of a record found stale. *)
Definition mark_failed (updatedAt : Z) (row : IdempotencyRecord.t) : IdempotencyRecord.t :=
  IdempotencyRecord.mk
    (IdempotencyRecord.idempotencyKey row)
    FAILED
    (IdempotencyRecord.requestHash row)
    (IdempotencyRecord.responseData row)
    (IdempotencyRecord.statusCode row)
    (IdempotencyRecord.createdAt row)
    updatedAt
    (IdempotencyRecord.expiresAt row).

(** [work] is typed to resolve with a result, so the final test
    [if (!result)] cannot fire and is left out. *)
Definition checkOrCreate {T P} `{Json T} `{Json P}
  (idempotencyKey : string) (requestPayload : P) (work : M (WorkResult T))
  : M (IdempotencyResult T) :=
  if decide (idempotencyKey = "") then
    mthrow (BadRequestException "Idempotency-Key is required")
  else
    let requestHash := hashRequest requestPayload in
    t0 ← Date_now;
    let expiresAt := Date_of (js_add (of_Z t0) (ttlMs this)) in
    TransactionService.runInTransaction (
      existing ← tx_await (idempotencyRecord.findUnique idempotencyKey);
      match existing with
      | Some existing =>
          if decide (IdempotencyRecord.requestHash existing ≠ Some requestHash) then
            mthrow (ConflictException "Idempotency key reuse with different payload")
          else
            match IdempotencyRecord.state existing with
            | SUCCESS =>
                match IdempotencyRecord.responseData existing,
                      IdempotencyRecord.statusCode existing with
                | Some responseData, Some code =>
                    if decide (responseData = "") then
                      mthrow (InternalServerErrorException "Cached response missing")
                    else
                      match JSON_parse responseData with
                      | Some response => mret (mkIdempotencyResult true response code)
                      | None => mthrow (SyntaxError "Unexpected token in JSON")
                      end
                | _, _ => mthrow (InternalServerErrorException "Cached response missing")
                end
            | FAILED =>
                mthrow (ConflictException "Previous request with this idempotency key failed")
            | IN_PROGRESS =>
                now ← outside Date_now;
                let age := now - IdempotencyRecord.createdAt existing in
                if Qltb (ttlMs this) (inject_Z age) then
                  tx_await (idempotencyRecord.update idempotencyKey (mark_failed now));;
                  mthrow (ConflictException "Previous request timed out")
                else
                  mthrow (ConflictException "Request already in progress")
            end
      | None =>
          tx_await (idempotencyRecord.create idempotencyKey IN_PROGRESS requestHash expiresAt);;
          outcome ← outside (settle work);
          let finalState := match outcome with Ok _ => SUCCESS | Err _ => FAILED end in
          let result := match outcome with Ok r => Some r | Err _ => None end in
          now ← outside Date_now;
          tx_await (idempotencyRecord.update idempotencyKey (finalize finalState result now));;
          match outcome with
          | Err error => mthrow error
          | Ok result =>
              mret (mkIdempotencyResult false (data result) (work_statusCode result))
          end
      end).

Definition cleanupExpired : M Z :=
  now ← Date_now;
  prisma_idempotencyRecord_deleteMany (λ row, IdempotencyRecord.expiresAt row <? now).

End WithHost.
End IdempotencyService.

(** ** The booking services *)

Record CreateBookingInput : Type := mkCreateBookingInput {
  seatId : string;
  userId : string;
  idempotencyKey : string;
}.

(** The payload [{ seatId, userId }] that is hashed. *)
Record BookingPayload : Type := mkBookingPayload {
  payload_seatId : string;
  payload_userId : string;
}.

(** [seat.status === 'HOLD' && seat.holdExpiresAt && seat.holdExpiresAt <= now] *)
Definition hold_expired (seat : Seat.t) (now : Z) : bool :=
  bool_decide (Seat.status seat = HOLD)
  && match Seat.holdExpiresAt seat with
     | Some holdExpiresAt => holdExpiresAt <=? now
     | None => false
     end.

(** [where: { id: seat.id, version: seat.version }] *)
Definition version_guard (seat_id : string) (seat : Seat.t) (id : string) (row : Seat.t)
  : bool :=
  bool_decide (id = seat_id) && (Seat.version row =? Seat.version seat).

(** [data: { status: 'BOOKED', holdExpiresAt: null, version: { increment: 1 } }] *)
Definition book (row : Seat.t) : Seat.t :=
  Seat.mk BOOKED (Seat.version row + 1) None.

(** [data: { status: 'HOLD', holdExpiresAt, version: { increment: 1 } }] *)
Definition hold (holdExpiresAt : Z) (row : Seat.t) : Seat.t :=
  Seat.mk HOLD (Seat.version row + 1) (Some holdExpiresAt).

(** [data: { status: 'AVAILABLE', holdExpiresAt: null, version: { increment: 1 } }] *)
Definition release (row : Seat.t) : Seat.t :=
  Seat.mk AVAILABLE (Seat.version row + 1) None.

(** [data: { status: 'AVAILABLE', version: { increment: 1 } }] *)
Definition make_available (row : Seat.t) : Seat.t :=
  Seat.mk AVAILABLE (Seat.version row + 1) (Seat.holdExpiresAt row).

(** [data: { status: 'EXPIRED' }] *)
Definition expire (row : Booking.t) : Booking.t :=
  Booking.mk (Booking.id row) (Booking.seatId row) (Booking.userId row) EXPIRED
             (Booking.idempotencyKey row) (Booking.expiresAt row).

(** [where: { status: 'CONFIRMED', expiresAt: { lt: now } }] *)
Definition confirmed_expired (now : Z) (row : Booking.t) : bool :=
  bool_decide (Booking.status row = CONFIRMED)
  && match Booking.expiresAt row with
     | Some expiresAt => expiresAt <? now
     | None => false
     end.

(** [where: { status: 'HOLD', holdExpiresAt: { lt: now } }] *)
Definition hold_lapsed (now : Z) (id : string) (row : Seat.t) : bool :=
  bool_decide (Seat.status row = HOLD)
  && match Seat.holdExpiresAt row with
     | Some holdExpiresAt => holdExpiresAt <? now
     | None => false
     end.

(** [where: { id: { in: seatIds }, status: 'BOOKED' }] *)
Definition booked_among (seatIds : list string) (id : string) (row : Seat.t) : bool :=
  bool_decide (id ∈ seatIds) && bool_decide (Seat.status row = BOOKED).

(** The insertion of the booking; the primary key is generated. *)
Definition insert_confirmed (input : CreateBookingInput) : Tx Booking.t :=
  id ← outside randomUUID;
  tx_await (booking.create
    (Booking.mk id (seatId input) (userId input) CONFIRMED (idempotencyKey input) None)).

(** *** The revision wired to Redlock and the idempotency coordinator *)

Module BookingService.
Section WithHost.
Context `{Host} `{Json Booking.t} `{Json BookingPayload}.
Variable process_env : gmap string string.
Variable lockService : RedlockService.t.
Variable idempotencyService : IdempotencyService.t.

(** The function given to [runInTransaction]. *)
Definition createBooking_transaction (input : CreateBookingInput)
  : Tx (WorkResult Booking.t) :=
  seat ← tx_await (seat.findUnique (seatId input));
  match seat with
  | None => mthrow (NotFoundException "Seat not found")
  | Some seat =>
      now ← outside Date_now;
      let holdExpired := hold_expired seat now in
      if bool_decide (Seat.status seat = BOOKED) then
        mthrow (ConflictException "Seat already booked")
      else if bool_decide (Seat.status seat = HOLD) && negb holdExpired then
        mthrow (ConflictException "Seat currently on hold")
      else
        booking ← insert_confirmed input;
        updated ← tx_await (seat.updateMany (version_guard (seatId input) seat) book);
        if updated =? 0 then
          mthrow (ConflictException "Seat changed during booking")
        else mret (mkWorkResult booking 201)
  end.

(** The function given to [withLock]. *)
Definition createBooking_locked (input : CreateBookingInput) : M (WorkResult Booking.t) :=
  TransactionService.runInTransaction (createBooking_transaction input).

Definition createBooking (input : CreateBookingInput) : M Booking.t :=
  if decide (seatId input = "" ∨ userId input = "") then
    mthrow (BadRequestException "seatId and userId are required")
  else if decide (idempotencyKey input = "") then
    mthrow (BadRequestException "Idempotency-Key is required")
  else
    let lockKey := "seat:" +:+ seatId input in
    let lockTtlMs := Env.envNumber process_env "LOCK_TTL_MS" 5000 in
    let extendIntervalMs := js_floor (js_mul lockTtlMs (decimal 6 1)) in
    idempotencyResult ←
      IdempotencyService.checkOrCreate idempotencyService
        (idempotencyKey input)
        (mkBookingPayload (seatId input) (userId input))
        (RedlockService.withLock lockService lockKey lockTtlMs
           (createBooking_locked input)
           (Some extendIntervalMs));
    mret (cachedResponse idempotencyResult).

Definition getBooking (id : string) : M (Booking.t * option Seat.t) :=
  booking ← prisma_await (booking.findUnique_include_seat id);
  match booking with
  | None => mthrow (NotFoundException "Booking not found")
  | Some booking => mret booking
  end.

End WithHost.
End BookingService.

(** *** The revision wired to the single-node lock *)

Module BookingServiceRedisLock.
Section WithHost.
Context `{Host}.
Variable process_env : gmap string string.
Variable lockService : RedisLockService.t.

Definition createBooking_transaction (input : CreateBookingInput) : Tx Booking.t :=
  existing ← tx_await (booking.findUnique (idempotencyKey input));
  match existing with
  | Some existing =>
      if decide (Booking.seatId existing ≠ seatId input
                 ∨ Booking.userId existing ≠ userId input) then
        mthrow (ConflictException "Idempotency key reuse with different payload")
      else mret existing
  | None =>
      seat ← tx_await (seat.findUnique (seatId input));
      match seat with
      | None => mthrow (NotFoundException "Seat not found")
      | Some seat =>
          now ← outside Date_now;
          let holdExpired := hold_expired seat now in
          if bool_decide (Seat.status seat = BOOKED) then
            mthrow (ConflictException "Seat already booked")
          else if bool_decide (Seat.status seat = HOLD) && negb holdExpired then
            mthrow (ConflictException "Seat currently on hold")
          else
            booking ← insert_confirmed input;
            updated ← tx_await (seat.updateMany (version_guard (seatId input) seat) book);
            if updated =? 0 then
              mthrow (ConflictException "Seat changed during booking")
            else mret booking
      end
  end.

(** The function given to [withLock]. *)
Definition createBooking_locked (input : CreateBookingInput) : M Booking.t :=
  TransactionService.runInTransaction (createBooking_transaction input).

Definition createBooking (input : CreateBookingInput) : M Booking.t :=
  if decide (seatId input = "" ∨ userId input = "") then
    mthrow (BadRequestException "seatId and userId are required")
  else if decide (idempotencyKey input = "") then
    mthrow (BadRequestException "Idempotency-Key is required")
  else
    let lockKey := "seat:" +:+ seatId input in
    RedisLockService.withLock lockService lockKey
      (Env.envNumber process_env "LOCK_TTL_MS" 3000)
      (createBooking_locked input).

End WithHost.
End BookingServiceRedisLock.

(** ** src/seat/seat.service.ts *)

Module SeatService.
Section WithHost.
Context `{Host}.
Variable process_env : gmap string string.
Variable lockService : RedisLockService.t.

(** The function given to [withLock]. *)
Definition holdSeat_locked (seatId : string) : M (option Seat.t) :=
  seat ← prisma_await (seat.findUnique seatId);
  match seat with
  | None => mthrow (NotFoundException "Seat not found")
  | Some seat =>
      now ← Date_now;
      let expiredHold := hold_expired seat now in
      if bool_decide (Seat.status seat = BOOKED) then
        mthrow (ConflictException "Seat already booked")
      else if bool_decide (Seat.status seat = HOLD) && negb expiredHold then
        mthrow (ConflictException "Seat already on hold")
      else
        t ← Date_now;
        let holdExpiresAt :=
          Date_of (js_add (of_Z t) (Env.envNumber process_env "HOLD_TTL_MS" 120000)) in
        result ← prisma_await (seat.updateMany (version_guard seatId seat) (hold holdExpiresAt));
        if result =? 0 then
          mthrow (ConflictException "Seat state changed, retry")
        else prisma_await (seat.findUnique seatId)
  end.

Definition holdSeat (seatId : string) : M (option Seat.t) :=
  let lockKey := "seat:" +:+ seatId in
  RedisLockService.withLock lockService lockKey
    (Env.envNumber process_env "LOCK_TTL_MS" 3000)
    (holdSeat_locked seatId).

Definition releaseExpiredHolds : M Z :=
  now ← Date_now;
  result ← prisma_await (seat.updateMany (hold_lapsed now) release);
  mret result.

Definition getSeat (seatId : string) : M Seat.t :=
  seat ← prisma_await (seat.findUnique seatId);
  match seat with
  | None => mthrow (NotFoundException "Seat not found")
  | Some seat => mret seat
  end.

End WithHost.
End SeatService.

(** ** src/booking/booking.cleanup.service.ts *)

Module BookingCleanupService.

Definition expireBookings : M Z :=
  now ← Date_now;
  prisma_transaction (
    expiredBookings ← tx_await (booking.findMany (confirmed_expired now));
    if decide (length expiredBookings = 0%nat) then mret 0
    else
      let seatIds := map Booking.seatId expiredBookings in
      tx_await (booking.updateMany (confirmed_expired now) expire);;
      tx_await (seat.updateMany (booked_among seatIds) make_available);;
      mret (Z.of_nat (length expiredBookings))).

End BookingCleanupService.

(** ** A host and worlds to run the program on *)

Module Demo.

Definition digit_value (c : ascii) : option Z :=
  let n := Z.of_nat (nat_of_ascii c) in
  if (48 <=? n) && (n <=? 57) then Some (n - 48) else None.

Fixpoint read_digits (acc : Z) (s : string) : option Z :=
  match s with
  | EmptyString => Some acc
  | String c rest =>
      match digit_value c with
      | Some d => read_digits (10 * acc + d) rest
      | None => None
      end
  end.

(** Decimal integer literals, with an optional minus sign. *)
Definition read_integer (s : string) : option Z :=
  match s with
  | EmptyString => None
  | String "-"%char (String c rest) => Z.opp <$> read_digits 0 (String c rest)
  | String c rest => read_digits 0 (String c rest)
  end.

(** The text before the first point, and the text after it. *)
Fixpoint split_at_point (s : string) : string * option string :=
  match s with
  | EmptyString => (EmptyString, None)
  | String "."%char rest => (EmptyString, Some rest)
  | String c rest =>
      let '(whole, fraction) := split_at_point rest in (String c whole, fraction)
  end.

(** Decimal literals [whole.fraction], with an optional minus sign: the
    digits, and the number of those after the point. *)
Definition read_decimal (s : string) : option (Z * nat) :=
  match split_at_point s with
  | (whole, None) => (λ z, (z, 0%nat)) <$> read_integer whole
  | (whole, Some fraction) =>
      if decide (fraction = "") then None
      else
        z ← read_integer (whole +:+ fraction);
        _ ← read_digits 0 fraction;
        Some (z, String.length fraction)
  end.

(** [Number] on the strings used in the examples: the empty string is 0, a
    decimal literal is the number nearest to its value, ["Infinity"] is
    infinite, and anything else read here is not a number.  (The host's
    grammar of numeric strings is larger; the theorems below hold for
    every host.) *)
Definition Number (v : option string) : JsNumber :=
  match v with
  | None => JsNaN
  | Some s =>
      if decide (s = "") then JsFinite 0
      else if decide (s = "Infinity") then JsInfinity false
      else if decide (s = "-Infinity") then JsInfinity true
      else match read_decimal s with
           | Some (digits, places) => js_div digits (10 ^ Z.of_nat places)
           | None => JsNaN
           end
  end.

(** The digest is replaced by a tag in front of the text: equal texts,
    and only those, have equal digests. *)
#[global] Instance host : Host :=
  Build_Host Number eq_refl (λ s, "sha256:" +:+ s).

(** JSON of an integer. *)
#[global] Instance json_Z : Json Z :=
  {| JSON_stringify := λ z, pretty z;
     JSON_parse := read_integer |}.

(** The fields of a booking and of a payload, in JSON; the examples do not
    contain characters that need escaping, and do not parse the text
    back. *)
Definition quoted (s : string) : string :=
  String (ascii_of_nat 34) s +:+ String (ascii_of_nat 34) EmptyString.

#[global] Instance json_payload : Json BookingPayload :=
  {| JSON_stringify := λ p,
       "{" +:+ quoted "seatId" +:+ ":" +:+ quoted (payload_seatId p) +:+ ","
           +:+ quoted "userId" +:+ ":" +:+ quoted (payload_userId p) +:+ "}";
     JSON_parse := λ _, None |}.

#[global] Instance json_booking : Json Booking.t :=
  {| JSON_stringify := λ b,
       "{" +:+ quoted "id" +:+ ":" +:+ quoted (Booking.id b) +:+ ","
           +:+ quoted "seatId" +:+ ":" +:+ quoted (Booking.seatId b) +:+ ","
           +:+ quoted "userId" +:+ ":" +:+ quoted (Booking.userId b) +:+ ","
           +:+ quoted "idempotencyKey" +:+ ":" +:+ quoted (Booking.idempotencyKey b) +:+ "}";
     JSON_parse := λ _, None |}.

(** A reader for the text of [json_booking], for bookings as
    [createBooking] makes them: CONFIRMED and without [expiresAt]. *)
Fixpoint between_quotes (text : string) : list string :=
  match text with
  | EmptyString => [EmptyString]
  | String c rest =>
      match between_quotes rest with
      | [] => []
      | field :: fields =>
          if decide (c = ascii_of_nat 34) then EmptyString :: field :: fields
          else String c field :: fields
      end
  end.

Definition json_booking_read : Json Booking.t :=
  {| JSON_stringify := JSON_stringify (Json := json_booking);
     JSON_parse := λ text,
       match between_quotes text with
       | [_; _; _; id; _; _; _; seat_id; _; _; _; user_id; _; _; _; key; _] =>
           Some (Booking.mk id seat_id user_id CONFIRMED key None)
       | _ => None
       end |}.

Definition world (d : Store) (ns : list Node) (t : Z) (schedule : list (Shared → Shared))
  : World :=
  mkWorld (mkShared d ns t) schedule [] 0 [].

Definition free_node : Node := mkNode true ∅.

(** A node on which [key] is held under [token] until [expiry]. *)
Definition held_node (key token : string) (expiry : Z) : Node :=
  mkNode true {[ key := (token, expiry) ]}.

(** The clock moves on. *)
Definition advance (ms : Z) : Shared → Shared := set_now (λ t, t + ms).

(** The lock manager over three nodes, with the default knobs. *)
Definition redlock : RedlockService.t := RedlockService.constructor ∅ [0; 1; 2]%nat.

(** The same with a drift factor of 1 in the environment. *)
Definition redlock_all_drift : RedlockService.t :=
  RedlockService.constructor {[ "REDLOCK_DRIFT_FACTOR" := "1" ]} [0; 1; 2]%nat.

(** The idempotency coordinator with the default TTL of 300000 ms. *)
Definition idempotency : IdempotencyService.t := IdempotencyService.constructor ∅.

Definition payload : BookingPayload := mkBookingPayload "A" "u1".

(** A record of key ["k1"] for [payload], created at instant 0. *)
Definition record (state : IdempotencyState) (responseData : option string)
  (statusCode : option Z) : IdempotencyRecord.t :=
  IdempotencyRecord.mk "k1" state (Some (IdempotencyService.hashRequest payload))
                       responseData statusCode 0 0 300000.

Definition store_with_record (row : IdempotencyRecord.t) : Store :=
  mkStore ∅ ∅ {[ "k1" := row ]}.

(** A [work] that would be seen if it ran: it moves the clock. *)
Definition visible_work : M (WorkResult Z) :=
  λ w, (Ok (mkWorkResult 7 201), set_shared (advance 1) w).

Definition failing_work : M (WorkResult Z) :=
  mthrow (ConflictException "Seat already booked").

(** A request for seat ["A"] under key ["k1"], and a store with that
    seat. *)
Definition request : CreateBookingInput := mkCreateBookingInput "A" "u1" "k1".

Definition seat_store (seat : Seat.t) : Store := mkStore {[ "A" := seat ]} ∅ ∅.

(** Another process writes seat ["A"]. *)
Definition overwrite_seat (seat : Seat.t) : Shared → Shared :=
  set_db (λ d, mkStore (<[ "A" := seat ]> (seats d)) (bookings d) (idempotencyRecords d)).

Definition idle : Shared → Shared := λ s, s.

(** The single-node lock of the seat service, on node 0. *)
Definition seat_lock : RedisLockService.t := RedisLockService.mk 0.

Definition cluster : list Node := [free_node; free_node; free_node].

(** Seat ["A"] is AVAILABLE although a CONFIRMED booking names it. *)
Definition oversold : Shared :=
  mkShared (mkStore {[ "A" := Seat.mk AVAILABLE 0 None ]}
                    {[ "b0" := Booking.mk "b0" "A" "u0" CONFIRMED "k0" None ]} ∅)
           cluster 1000.

(** A second request for seat ["A"]. *)
Definition rival : CreateBookingInput := mkCreateBookingInput "A" "u2" "k2".

(** Three seats: ["A"] free, ["B"] on a hold that lapsed at 900, ["C"]
    booked by a CONFIRMED booking that expired at 900. *)
Definition hall : Store :=
  mkStore {[ "A" := Seat.mk AVAILABLE 0 None;
             "B" := Seat.mk HOLD 5 (Some 900);
             "C" := Seat.mk BOOKED 8 None ]}
          {[ "b1" := Booking.mk "b1" "C" "u9" CONFIRMED "k9" (Some 900) ]}
          ∅.

End Demo.

(** ** What a call of the lock manager sends *)

(** The commands of one round, one per client, with the replies. *)
Definition set_round (key token : string) (ttlMs : double)
  (clients : list nat) (replies : list (Result bool)) : list Event :=
  zip_with (λ client reply, EvSetPxNx client key token ttlMs reply) clients replies.

Definition del_round (key token : string)
  (clients : list nat) (replies : list (Result Z)) : list Event :=
  zip_with (λ client reply, EvEval client CompareAndDelete key token reply) clients replies.

(** The replies ['OK'] of a round. *)
Definition granted (reply : Result bool) : bool :=
  match reply with Ok true => true | _ => false end.

Definition successes (replies : list (Result bool)) : Z :=
  Z.of_nat (length (filter (λ reply, granted reply = true) replies)).

(** A command [SET] was answered, with ['OK'] or [null]. *)
Definition answered (e : Event) : Prop :=
  match e with
  | EvSetPxNx _ _ _ _ (Err _) => False
  | _ => True
  end.

(** The commands and sleeps of [acquireLock] from attempt number [attempt]
    on, and whether the lock ends up held: attempts are made while
    [attempt < retryCount]; one that reaches the quorum ends the call; one
    that misses it is followed by a compare-and-delete on every client and,
    unless it was the last, by a sleep of [retryDelayMs]. *)
Inductive acquire_trace (this : RedlockService.t) (key token : string) (ttlMs : double)
  : Z → list Event → bool → Prop :=
| acquire_exhausted attempt :
    (RedlockService.retryCount this <= inject_Z attempt)%Q →
    acquire_trace this key token ttlMs attempt [] false
| acquire_held attempt replies :
    (inject_Z attempt < RedlockService.retryCount this)%Q →
    length replies = length (RedlockService.clients this) →
    RedlockService.quorum this ≤ successes replies →
    acquire_trace this key token ttlMs attempt
      (set_round key token ttlMs (RedlockService.clients this) replies) true
| acquire_retry attempt replies deleted rest held :
    (inject_Z attempt < RedlockService.retryCount this)%Q →
    length replies = length (RedlockService.clients this) →
    successes replies < RedlockService.quorum this →
    length deleted = length (RedlockService.clients this) →
    acquire_trace this key token ttlMs (attempt + 1) rest held →
    acquire_trace this key token ttlMs attempt
      (set_round key token ttlMs (RedlockService.clients this) replies
       ++ del_round key token (RedlockService.clients this) deleted
       ++ (if js_lt attempt (js_sub (RedlockService.retryCount this) 1)
           then [EvSleep (RedlockService.retryDelayMs this)] else [])
       ++ rest)
      held.

Definition is_ok {A} (r : Result A) : bool :=
  match r with Ok _ => true | Err _ => false end.

(** * Properties *)

(** ** Numbers *)

Lemma Qltb_true x y : Qltb x y = true ↔ (x < y)%Q.
Proof.
  unfold Qltb. destruct (Qlt_le_dec x y) as [Hlt | Hle]; split; intros; try done.
  exfalso. lra.
Qed.

Lemma Qltb_false x y : Qltb x y = false ↔ (y <= x)%Q.
Proof.
  unfold Qltb. destruct (Qlt_le_dec x y) as [Hlt | Hle]; split; intros; try done.
  exfalso. lra.
Qed.

Lemma Qleb_true x y : Qleb x y = true ↔ (x <= y)%Q.
Proof.
  unfold Qleb. destruct (Qlt_le_dec y x) as [Hlt | Hle]; split; intros; try done.
  exfalso. lra.
Qed.

Lemma Qleb_false x y : Qleb x y = false ↔ (y < x)%Q.
Proof.
  unfold Qleb. destruct (Qlt_le_dec y x) as [Hlt | Hle]; split; intros; try done.
  exfalso. lra.
Qed.

(** ** Configuration *)

Section EnvNumber.
Context `{Host}.
Variable process_env : gmap string string.

Lemma envNumber_cases key defaultValue :
  (∃ v, Number (process_env !! key) = JsFinite v ∧ (0 < v)%Q
        ∧ Env.envNumber process_env key defaultValue = v)
  ∨ ((∀ v, Number (process_env !! key) = JsFinite v → (v <= 0)%Q)
     ∧ Env.envNumber process_env key defaultValue = defaultValue).
Proof.
  unfold Env.envNumber.
  destruct (Number (process_env !! key)) as [ | neg | q] eqn:E; simpl.
  - right. split; [intros v Hv; discriminate | done].
  - right. split; [intros v Hv; discriminate | done].
  - destruct (Qltb 0 q) eqn:Hq.
    + left. exists q. apply Qltb_true in Hq. done.
    + right. apply Qltb_false in Hq. split; [ | done].
      intros v Hv. by injection Hv as <-.
Qed.

Lemma envNumber_positive key (defaultValue : double) :
  (0 < defaultValue)%Q → (0 < Env.envNumber process_env key defaultValue)%Q.
Proof.
  intros Hd.
  destruct (envNumber_cases key defaultValue) as [(v & _ & Hv & ->) | [_ ->]]; done.
Qed.

Lemma envNumber_unset key defaultValue :
  process_env !! key = None → Env.envNumber process_env key defaultValue = defaultValue.
Proof.
  intros Hk. unfold Env.envNumber. rewrite Hk, Number_undefined. done.
Qed.

End EnvNumber.

(** The statement made of [envNumber] for one key and one default: the
    value of the environment is returned only when it reads as a finite
    number above zero, the default otherwise, and the result is above
    zero. *)
Definition envNumber_claim `{Host} (process_env : gmap string string)
  (key : string) (defaultValue : double) : Prop :=
  ((∃ v, Number (process_env !! key) = JsFinite v ∧ (0 < v)%Q
         ∧ Env.envNumber process_env key defaultValue = v)
   ∨ ((∀ v, Number (process_env !! key) = JsFinite v → (v <= 0)%Q)
      ∧ Env.envNumber process_env key defaultValue = defaultValue))
  ∧ (0 < Env.envNumber process_env key defaultValue)%Q.

(** C9, as stated, fails: the default is returned unchecked, so with the
    variable unset and a default of zero the knob resolves to zero. *)
Lemma envNumber_zero_default :
  ¬ envNumber_claim (H := Demo.host) ∅ "LOCK_TTL_MS" 0.
Proof.
  intros [_ Hpos]. vm_compute in Hpos. discriminate.
Qed.

(** C9, amended: for every key and every default above zero, [envNumber]
    returns the value of the environment exactly when it reads as a finite
    number above zero and the default in every other case (unset, not a
    number, infinite, zero, negative); the result is above zero. *)
Theorem envNumber_resolves `{Host} (process_env : gmap string string)
  (key : string) (defaultValue : double) :
  (0 < defaultValue)%Q → envNumber_claim process_env key defaultValue.
Proof.
  intros Hd. split.
  - apply envNumber_cases.
  - by apply envNumber_positive.
Qed.

Lemma envNumber_resolves_witness :
  (0 < of_Z 5000)%Q
  ∧ envNumber_claim (H := Demo.host) {[ "LOCK_TTL_MS" := "2000" ]} "LOCK_TTL_MS" 5000.
Proof.
  split; [ reflexivity | apply envNumber_resolves; reflexivity ].
Defined.

(** The environment wins when it is a positive number ... *)
Example envNumber_reads_environment :
  Env.envNumber (H := Demo.host) {[ "LOCK_TTL_MS" := "2000" ]} "LOCK_TTL_MS" 5000 = of_Z 2000.
Proof. vm_compute. reflexivity. Qed.

(** ... and is ignored when it is zero, negative, infinite or not a
    number. *)
Example envNumber_ignores_environment :
  Forall (λ text,
    Env.envNumber (H := Demo.host) {[ "LOCK_TTL_MS" := text ]} "LOCK_TTL_MS" 5000
    = of_Z 5000)
    [ "0"; "-7"; ""; "Infinity"; "soon" ].
Proof. repeat constructor; vm_compute; reflexivity. Qed.

(** Every knob of the program resolves above zero, whatever the
    environment holds. *)
Lemma knobs_positive `{Host} (process_env : gmap string string) :
  Forall (λ knob, (0 < Env.envNumber process_env knob.1 knob.2)%Q) Env.knobs.
Proof.
  unfold Env.knobs. repeat constructor; simpl; by apply envNumber_positive.
Qed.

(** ** The lock manager *)

(** *** Commands and their record *)

Lemma log_env_step w : log (env_step w) = log w.
Proof. unfold env_step. by destruct (sched w). Qed.

Lemma entropy_env_step w : entropy (env_step w) = entropy w.
Proof. unfold env_step. by destruct (sched w). Qed.

Lemma intervals_env_step w : intervals (env_step w) = intervals w.
Proof. unfold env_step. by destruct (sched w). Qed.

Lemma env_step_quiet w : sched w = [] → env_step w = w.
Proof. unfold env_step. by intros ->. Qed.

Lemma client_set_log client key token ttlMs w :
  log (client_set client key token ttlMs w).2
  = log w ++ [EvSetPxNx client key token ttlMs (client_set client key token ttlMs w).1].
Proof.
  unfold client_set.
  destruct (nodes (shared (env_step w)) !! client) as [n | ]; simpl;
    [ destruct (up n); [ destruct (is_integer ttlMs && Qltb 0 ttlMs);
        [ destruct (node_set_px_nx _ _ _ _ n) | ] | ] | ];
    simpl; by rewrite log_env_step.
Qed.

Lemma client_eval_log client script key token ttlMs w :
  log (client_eval client script key token ttlMs w).2
  = log w ++ [EvEval client script key token (client_eval client script key token ttlMs w).1].
Proof.
  unfold client_eval.
  destruct (nodes (shared (env_step w)) !! client) as [n | ]; simpl;
    [ destruct (up n); [ destruct script;
        [ destruct (node_eval _ _ _ _ _ n)
        | destruct (is_integer ttlMs); [ destruct (node_eval _ _ _ _ _ n) | ] ] | ] | ];
    simpl; by rewrite log_env_step.
Qed.

Lemma acquireLockOnInstance_run client key token ttlMs w :
  RedlockService.acquireLockOnInstance client key token ttlMs w
  = client_set client key token ttlMs w.
Proof.
  unfold RedlockService.acquireLockOnInstance, mbind, M_bind.
  by destruct (client_set client key token ttlMs w) as [[ok | e] w'].
Qed.

Lemma set_round_run key token ttlMs clients w :
  ∃ replies,
    (Promise_allSettled
       (map (λ client, RedlockService.acquireLockOnInstance client key token ttlMs) clients)
       w).1 = Ok replies
    ∧ length replies = length clients
    ∧ log (Promise_allSettled
             (map (λ client, RedlockService.acquireLockOnInstance client key token ttlMs)
                  clients) w).2
      = log w ++ set_round key token ttlMs clients replies.
Proof.
  revert w. induction clients as [ | client clients IH]; intros w.
  - exists []. simpl. by rewrite app_nil_r.
  - simpl. unfold mbind, M_bind, settle.
    rewrite acquireLockOnInstance_run.
    pose proof (client_set_log client key token ttlMs w) as Hlog.
    destruct (client_set client key token ttlMs w) as [reply w1]. simpl in Hlog.
    destruct (IH w1) as (replies & Hr & Hlen & Hlogs).
    destruct (Promise_allSettled _ w1) as [[rs | e] w2]; simpl in *; [ | done].
    injection Hr as ->.
    exists (reply :: replies). simpl. split; [done | ]. split; [by rewrite Hlen | ].
    rewrite Hlogs, Hlog. by rewrite <- app_assoc.
Qed.

Lemma del_round_run this key token w :
  (RedlockService.releaseLockOnAllInstances this key token w).1 = Ok tt
  ∧ ∃ deleted,
      length deleted = length (RedlockService.clients this)
      ∧ log (RedlockService.releaseLockOnAllInstances this key token w).2
        = log w ++ del_round key token (RedlockService.clients this) deleted.
Proof.
  unfold RedlockService.releaseLockOnAllInstances.
  generalize (RedlockService.clients this) as clients.
  intros clients.
  assert (∃ rs deleted,
    (Promise_allSettled
       (map (λ client, RedlockService.releaseLockOnInstance client key token) clients) w).1
      = Ok rs
    ∧ length deleted = length clients
    ∧ log (Promise_allSettled
             (map (λ client, RedlockService.releaseLockOnInstance client key token) clients)
             w).2
      = log w ++ del_round key token clients deleted) as (rs & deleted & Hr & Hlen & Hlog).
  { revert w. induction clients as [ | client clients IH]; intros w.
    - exists [], []. simpl. by rewrite app_nil_r.
    - simpl. unfold mbind, M_bind, settle, RedlockService.releaseLockOnInstance.
      unfold mbind, M_bind.
      pose proof (client_eval_log client CompareAndDelete key token 0 w) as Hlog.
      destruct (client_eval client CompareAndDelete key token 0 w) as [reply w1].
      simpl in Hlog.
      destruct (IH w1) as (rs & deleted & Hr & Hlen & Hlogs).
      destruct reply as [z | e]; simpl;
        destruct (Promise_allSettled _ w1) as [[rs' | e'] w2]; simpl in *; try done;
        injection Hr as ->.
      + exists (Ok (z =? 1) :: rs), (Ok z :: deleted). simpl.
        split; [done | ]. split; [by rewrite Hlen | ].
        rewrite Hlogs, Hlog. by rewrite <- app_assoc.
      + exists (Err e :: rs), (Err e :: deleted). simpl.
        split; [done | ]. split; [by rewrite Hlen | ].
        rewrite Hlogs, Hlog. by rewrite <- app_assoc. }
  unfold mbind, M_bind.
  destruct (Promise_allSettled _ w) as [[rs' | e'] w2]; simpl in *; [ | done].
  split; [done | ]. by exists deleted.
Qed.

(** [Promise.all] over a round: the replies when every command was
    answered, counted as [acquireLock] counts them; a rejection
    otherwise. *)
Lemma all_fulfilled_successes replies acquired :
  all_fulfilled replies = Ok acquired →
  Z.of_nat (length (filter (λ result, result = true) acquired)) = successes replies.
Proof.
  revert acquired. induction replies as [ | reply replies IH]; intros acquired Hall.
  - simpl in Hall. by injection Hall as <-.
  - simpl in Hall. destruct reply as [ok | e]; [ | done].
    destruct (all_fulfilled replies) as [l | e]; [ | done].
    injection Hall as <-. specialize (IH l eq_refl).
    unfold successes in *. rewrite !filter_cons.
    destruct ok; simpl; repeat case_decide; simpl in *; try done; lia.
Qed.

Lemma all_fulfilled_rejected key token ttlMs clients replies e :
  length replies = length clients →
  all_fulfilled replies = Err e →
  ¬ Forall answered (set_round key token ttlMs clients replies).
Proof.
  revert clients. induction replies as [ | reply replies IH]; intros clients Hlen Hall Hans.
  - done.
  - destruct clients as [ | client clients]; [done | ].
    simpl in Hlen. injection Hlen as Hlen.
    unfold set_round in Hans. simpl in Hans.
    apply Forall_cons in Hans as [Hreply Hans].
    simpl in Hall. destruct reply as [ok | e']; [ | done].
    destruct (all_fulfilled replies) as [l | e'] eqn:Hrest; [done | ].
    by eapply IH.
Qed.

Section Redlock.
Variable this : RedlockService.t.

Lemma acquireLock_loop_trace bound :
  ∀ attempt key uuid ttlMs startTime w,
    (RedlockService.retryCount this <= inject_Z (attempt + Z.of_nat bound))%Q →
    Forall answered
      (log (RedlockService.acquireLock_loop this bound attempt key uuid ttlMs startTime w).2) →
    ∃ events,
      log (RedlockService.acquireLock_loop this bound attempt key uuid ttlMs startTime w).2
        = log w ++ events
      ∧ acquire_trace this key uuid ttlMs attempt events
          (is_ok (RedlockService.acquireLock_loop this bound attempt key uuid ttlMs
                    startTime w).1)
      ∧ match (RedlockService.acquireLock_loop this bound attempt key uuid ttlMs
                 startTime w) with
        | (Ok lockResult, w') =>
            token lockResult = uuid
            ∧ validityTime lockResult
              = Math_max
                  (js_sub (js_sub ttlMs (of_Z (now (shared w') - startTime)))
                          (js_floor (js_mul ttlMs (RedlockService.driftFactor this))))
                  0
        | (Err e, _) =>
            e = ConflictException "Failed to acquire lock on quorum of Redis instances"
        end.
Proof.
  induction bound as [ | bound IH]; intros attempt key uuid ttlMs startTime w Hbound Hans.
  - simpl. exists []. rewrite app_nil_r. split; [done | ]. split; [ | done].
    constructor. by rewrite Z.add_0_r in Hbound.
  - simpl in *.
    destruct (Qltb (inject_Z attempt) (RedlockService.retryCount this)) eqn:Hguard.
    2: { simpl. exists []. rewrite app_nil_r. split; [done | ]. split; [ | done].
         constructor. by apply Qltb_false. }
    apply Qltb_true in Hguard.
    unfold Promise_all in *. unfold mbind, M_bind in *.
    destruct (set_round_run key uuid ttlMs (RedlockService.clients this) w)
      as (replies & Hr & Hlen & Hlog).
    destruct (Promise_allSettled _ w) as [[rs | e] w1]; simpl in Hr, Hlog; [ | done].
    injection Hr as ->.
    destruct (all_fulfilled replies) as [acquired | e] eqn:Hall; simpl in *.
    2: { exfalso. rewrite Hlog in Hans. apply Forall_app in Hans as [_ Hans].
         by eapply all_fulfilled_rejected. }
    rewrite (all_fulfilled_successes _ _ Hall) in *.
    destruct (RedlockService.quorum this <=? successes replies) eqn:Hq; simpl in *.
    + apply Z.leb_le in Hq.
      exists (set_round key uuid ttlMs (RedlockService.clients this) replies).
      split; [done | ]. split; [by constructor | done].
    + apply Z.leb_gt in Hq.
      destruct (del_round_run this key uuid w1) as (Hok & deleted & Hdlen & Hdlog).
      destruct (RedlockService.releaseLockOnAllInstances this key uuid w1)
        as [[[] | e] w2]; simpl in Hok, Hdlog; [ | done].
      set (pause := if js_lt attempt (js_sub (RedlockService.retryCount this) 1)
                    then sleep (RedlockService.retryDelayMs this) else mret tt) in *.
      assert (∃ w3, pause w2 = (Ok tt, w3)
                ∧ log w3 = log w2
                    ++ (if js_lt attempt (js_sub (RedlockService.retryCount this) 1)
                        then [EvSleep (RedlockService.retryDelayMs this)] else []))
        as (w3 & Hpause & Hplog).
      { subst pause. destruct (js_lt attempt _).
        - eexists. split; [reflexivity | ]. by rewrite log_env_step.
        - exists w2. split; [done | ]. by rewrite app_nil_r. }
      rewrite Hpause in *. clear pause Hpause.
      assert (RedlockService.retryCount this
              <= inject_Z (attempt + 1 + Z.of_nat bound))%Q as Hbound'.
      { replace (attempt + 1 + Z.of_nat bound) with (attempt + Z.of_nat (S bound)) by lia.
        done. }
      destruct (IH (attempt + 1) key uuid ttlMs startTime w3 Hbound' Hans)
        as (rest & Hrest & Htrace & Hout).
      exists (set_round key uuid ttlMs (RedlockService.clients this) replies
              ++ del_round key uuid (RedlockService.clients this) deleted
              ++ (if js_lt attempt (js_sub (RedlockService.retryCount this) 1)
                  then [EvSleep (RedlockService.retryDelayMs this)] else [])
              ++ rest).
      split.
      { rewrite Hrest, Hplog, Hdlog, Hlog. by rewrite <- !app_assoc. }
      split; [ | done].
      by constructor.
Qed.

(** *** Release *)

(** The key is not held under [token] on node [i] (or the node cannot be
    reached). *)
Definition not_held_on (key token : string) (i : nat) (s : Shared) : Prop :=
  ∀ n, nodes s !! i = Some n → up n = true → node_get n (now s) key ≠ Some token.

Lemma node_eval_delete key token t n :
  node_get (node_eval CompareAndDelete key token 0 t n).2 t key ≠ Some token
  ∧ up (node_eval CompareAndDelete key token 0 t n).2 = up n.
Proof.
  unfold node_eval. case_decide as Hheld; simpl; [ | done].
  split; [ | done]. unfold node_get. simpl. by rewrite lookup_delete_eq.
Qed.

Lemma client_delete_quiet client key token w :
  sched w = [] →
  sched (client_eval client CompareAndDelete key token 0 w).2 = []
  ∧ now (shared (client_eval client CompareAndDelete key token 0 w).2) = now (shared w)
  ∧ not_held_on key token client (shared (client_eval client CompareAndDelete key token 0 w).2)
  ∧ ∀ i, not_held_on key token i (shared w) →
         not_held_on key token i (shared (client_eval client CompareAndDelete key token 0 w).2).
Proof.
  intros Hquiet. unfold client_eval. rewrite (env_step_quiet w Hquiet).
  destruct (nodes (shared w) !! client) as [n | ] eqn:Hn; simpl.
  2: { repeat split; try done. intros n'. by rewrite Hn. }
  destruct (up n) eqn:Hup; simpl.
  2: { repeat split; try done. intros n'. rewrite Hn. intros [= <-]. congruence. }
  pose proof (node_eval_delete key token (now (shared w)) n) as [Hgone Hsame].
  destruct (node_eval CompareAndDelete key token 0 (now (shared w)) n) as [r n'] eqn:Heval.
  simpl in *. repeat split; try done.
  - intros m Hm _. simpl in Hm.
    rewrite list_lookup_insert_eq in Hm by (by eapply lookup_lt_Some).
    by injection Hm as <-.
  - intros i Hi m Hm Hupm. simpl in Hm.
    destruct (decide (client = i)) as [<- | Hne].
    + rewrite list_lookup_insert_eq in Hm by (by eapply lookup_lt_Some).
      by injection Hm as <-.
    + rewrite list_lookup_insert_ne in Hm by done. by apply Hi.
Qed.

Lemma release_quiet_settled key token clients :
  ∀ w, sched w = [] →
    let w' := (Promise_allSettled
                 (map (λ client, RedlockService.releaseLockOnInstance client key token)
                      clients) w).2 in
    sched w' = [] ∧ now (shared w') = now (shared w)
    ∧ ∀ i, (i ∈ clients ∨ not_held_on key token i (shared w)) →
           not_held_on key token i (shared w').
Proof.
  induction clients as [ | client clients IH]; intros w Hquiet; simpl.
  - split; [done | ]. split; [done | ]. intros i [Hin | Hi]; [ | done].
    by apply elem_of_nil in Hin.
  - unfold mbind, M_bind, settle.
    assert ((RedlockService.releaseLockOnInstance client key token w).2
            = (client_eval client CompareAndDelete key token 0 w).2) as Hstep.
    { unfold RedlockService.releaseLockOnInstance, mbind, M_bind.
      by destruct (client_eval client CompareAndDelete key token 0 w) as [[z | e] w']. }
    destruct (client_delete_quiet client key token w Hquiet) as (Hq1 & Hnow1 & Hgone & Hkeep).
    rewrite <- Hstep in Hq1, Hnow1, Hgone, Hkeep. clear Hstep.
    destruct (RedlockService.releaseLockOnInstance client key token w) as [reply w1].
    simpl in *.
    destruct (IH w1 Hq1) as (Hq2 & Hnow2 & Hrest).
    assert (∀ i, (i ∈ client :: clients ∨ not_held_on key token i (shared w)) →
                 not_held_on key token i
                   (shared (Promise_allSettled
                      (map (λ client0, RedlockService.releaseLockOnInstance client0 key token)
                           clients) w1).2)) as Hall.
    { intros i [Hin | Hi].
      - apply elem_of_cons in Hin as [-> | Hin]; apply Hrest; [by right | by left].
      - apply Hrest. right. by apply Hkeep. }
    destruct (Promise_allSettled
                (map (λ client0, RedlockService.releaseLockOnInstance client0 key token)
                     clients) w1) as [[a | e] w2];
      simpl in *; (split; [done | ]); (split; [congruence | ]); exact Hall.
Qed.

Lemma releaseLock_quiet key token w :
  sched w = [] →
  ∀ client, client ∈ RedlockService.clients this →
    not_held_on key token client (shared (RedlockService.releaseLock this key token w).2).
Proof.
  intros Hquiet client Hin.
  unfold RedlockService.releaseLock, RedlockService.releaseLockOnAllInstances.
  unfold mbind, M_bind.
  destruct (release_quiet_settled key token (RedlockService.clients this) w Hquiet)
    as (_ & _ & Hall).
  specialize (Hall client (or_introl Hin)).
  by destruct (Promise_allSettled _ w) as [[a | e] w'].
Qed.

(** C7: once [withLock] holds the lock, [work] starts in a world [w2] that
    differs from the one left by [acquireLock] only by the timer; whatever
    [work] does, [withLock] ends with the outcome of [work] as it is, its
    value or its failure, after a compare-and-delete under the token sent
    to every client, whose replies, failures included, are not looked at;
    in a quiet environment no reachable node of the service holds the key
    under the token afterwards; and [releaseLock] never fails. *)
Theorem withLock_releases {A} (key : string) (ttlMs : double) (work : M A)
  (extendIntervalMs : option JsNumber) (w w1 : World) (lockResult : LockResult) :
  RedlockService.acquireLock this key ttlMs w = (Ok lockResult, w1) →
  (∃ w2,
     shared w2 = shared w1 ∧ sched w2 = sched w1 ∧ log w2 = log w1
     ∧ ∀ outcome w3, work w2 = (outcome, w3) →
         (RedlockService.withLock this key ttlMs work extendIntervalMs w).1 = outcome
         ∧ (∃ deleted,
              length deleted = length (RedlockService.clients this)
              ∧ log (RedlockService.withLock this key ttlMs work extendIntervalMs w).2
                = log w3 ++ del_round key (token lockResult)
                                      (RedlockService.clients this) deleted)
         ∧ (sched w3 = [] →
            ∀ client, client ∈ RedlockService.clients this →
              not_held_on key (token lockResult) client
                (shared (RedlockService.withLock this key ttlMs work extendIntervalMs w).2)))
  ∧ ∀ key' token' w', (RedlockService.releaseLock this key' token' w').1 = Ok tt.
Proof.
  intros Hacq. split.
  2: { intros key' token' w'. apply del_round_run. }
  set (arm := match extendIntervalMs with
              | Some every =>
                  if truthy every && js_lt every (validityTime lockResult)
                  then h ← setInterval key (token lockResult) ttlMs every; mret (Some h)
                  else mret None
              | None => mret None
              end).
  assert (∃ extendTimer w2,
            arm w1 = (Ok extendTimer, w2)
            ∧ shared w2 = shared w1 ∧ sched w2 = sched w1 ∧ log w2 = log w1)
    as (extendTimer & w2 & Harm & Hs & Hq & Hl).
  { subst arm. destruct extendIntervalMs as [every | ].
    - destruct (truthy every && js_lt every (validityTime lockResult)).
      + eexists _, _. split; [reflexivity | ]. done.
      + by exists None, w1.
    - by exists None, w1. }
  exists w2. split; [done | ]. split; [done | ]. split; [done | ].
  intros outcome w3 Hwork.
  set (clear := match extendTimer with
                | Some h => clearInterval h
                | None => mret tt
                end).
  assert (∃ w3', clear w3 = (Ok tt, w3')
            ∧ shared w3' = shared w3 ∧ sched w3' = sched w3 ∧ log w3' = log w3)
    as (w3' & Hclear & Hs3 & Hq3 & Hl3).
  { subst clear. destruct extendTimer as [h | ].
    - eexists. split; [reflexivity | ]. done.
    - by exists w3. }
  destruct (del_round_run this key (token lockResult) w3') as (Hok & deleted & Hlen & Hlog).
  pose proof (releaseLock_quiet key (token lockResult) w3') as Hquiet.
  unfold RedlockService.releaseLock in Hquiet.
  destruct (RedlockService.releaseLockOnAllInstances this key (token lockResult) w3')
    as [[[] | e] w4] eqn:Hrel; simpl in Hok, Hlog, Hquiet; [ | done].
  assert (RedlockService.withLock this key ttlMs work extendIntervalMs w = (outcome, w4))
    as ->.
  { unfold RedlockService.withLock.
    unfold mbind at 1. unfold M_bind at 1. rewrite Hacq.
    unfold mbind at 1. unfold M_bind at 1. fold arm. rewrite Harm.
    unfold try_finally. rewrite Hwork.
    unfold mbind at 1. unfold M_bind at 1. fold clear. rewrite Hclear.
    unfold RedlockService.releaseLock. by rewrite Hrel. }
  simpl. split; [done | ]. split.
  { exists deleted. by rewrite Hlog, Hl3. }
  intros Hq3'. apply Hquiet. congruence.
Qed.

(** C5, as stated, for one call: the lock is reported held only when the
    remaining validity, the TTL less the time elapsed less the drift
    discount, is above zero. *)
Definition held_only_while_valid (key : string) (ttlMs : double) (w : World) : Prop :=
  is_ok (RedlockService.acquireLock this key ttlMs w).1 = true →
  (0 < ttlMs
       - inject_Z (now (shared (RedlockService.acquireLock this key ttlMs w).2)
                   - now (shared w))
       - ttlMs * RedlockService.driftFactor this)%Q.

(** C5, amended: when the TTL less its drift discount, as the program
    computes them (the product [ttlMs * driftFactor] rounded to binary64,
    then floored), is above zero and every [SET] of the call is
    answered, the call makes attempts numbered from 0 while the number is
    below [retryCount]; the lock is reported held exactly when an
    attempt's ['OK'] replies reach the quorum, with the remaining
    validity, the TTL less the time elapsed less that same discount,
    clamped at zero rather than required to be above zero; an attempt
    that misses the quorum is rolled back by a compare-and-delete on
    every client, followed by a sleep of [retryDelayMs] unless it was the
    last; when the attempts are exhausted the call fails with a
    Conflict. *)
Theorem acquireLock_attempts (key : string) (ttlMs : double) (w : World) :
  js_le (js_sub (js_sub ttlMs (js_floor (js_mul ttlMs (RedlockService.driftFactor this))))
                (of_Z 0)) 0 = false →
  Forall answered (log (RedlockService.acquireLock this key ttlMs w).2) →
  ∃ events,
    log (RedlockService.acquireLock this key ttlMs w).2 = log w ++ events
    ∧ acquire_trace this key ("uuid-" +:+ pretty (entropy w)) ttlMs 0 events
        (is_ok (RedlockService.acquireLock this key ttlMs w).1)
    ∧ match RedlockService.acquireLock this key ttlMs w with
      | (Ok lockResult, w') =>
          token lockResult = "uuid-" +:+ pretty (entropy w)
          ∧ validityTime lockResult
            = Math_max
                (js_sub (js_sub ttlMs (of_Z (now (shared w') - now (shared w))))
                        (js_floor (js_mul ttlMs (RedlockService.driftFactor this))))
                0
      | (Err e, _) =>
          e = ConflictException "Failed to acquire lock on quorum of Redis instances"
      end.
Proof.
  intros Httl.
  unfold RedlockService.acquireLock, mbind, M_bind, randomUUID, Date_now. simpl.
  rewrite Z.sub_diag, Httl.
  intros Hans.
  set (w0 := mkWorld (shared w) (sched w) (log w) (N.succ (entropy w)) (intervals w)) in *.
  assert (RedlockService.retryCount this
          <= inject_Z (0 + Z.of_nat (Z.to_nat (Qceiling (RedlockService.retryCount this)))))%Q
    as Hbound.
  { eapply Qle_trans; [apply Qle_ceiling | ].
    rewrite <- Zle_Qle. lia. }
  destruct (acquireLock_loop_trace _ 0 key ("uuid-" +:+ pretty (entropy w)) ttlMs
              (now (shared w)) w0 Hbound Hans) as (events & Hlog & Htrace & Hout).
  exists events. done.
Qed.

(** C10: when the TTL less its floored drift discount, as the program
    computes them, is not above zero, [acquireLock] fails at once with
    the Conflict "Lock TTL too short for Redlock"; no command has been
    sent to any node, and the nodes (and the rest of the shared state)
    are as they were. *)
Theorem acquireLock_ttl_too_short (key : string) (ttlMs : double) (w : World) :
  js_le (js_sub (js_sub ttlMs (js_floor (js_mul ttlMs (RedlockService.driftFactor this))))
                (of_Z 0)) 0 = true →
  (RedlockService.acquireLock this key ttlMs w).1
    = Err (ConflictException "Lock TTL too short for Redlock")
  ∧ log (RedlockService.acquireLock this key ttlMs w).2 = log w
  ∧ shared (RedlockService.acquireLock this key ttlMs w).2 = shared w
  ∧ sched (RedlockService.acquireLock this key ttlMs w).2 = sched w.
Proof.
  intros Hshort.
  unfold RedlockService.acquireLock, mbind, M_bind, randomUUID, Date_now. simpl.
  rewrite Z.sub_diag, Hshort.
  done.
Qed.


End Redlock.

(** C5, as stated, fails: three free nodes grant the key, but the first
    reply comes 500 ms after the call for a TTL of 100 ms; the lock is
    reported held, with a validity of zero, although the remaining
    validity is below zero (and the key has expired on every node). *)
Lemma acquireLock_held_without_validity :
  ¬ held_only_while_valid Demo.redlock "seat:A" 100
      (Demo.world noRows [Demo.free_node; Demo.free_node; Demo.free_node] 1000
                  [Demo.advance 500]).
Proof.
  intros Hclaim. specialize (Hclaim eq_refl). vm_compute in Hclaim. discriminate.
Qed.

Example acquireLock_late_result :
  (RedlockService.acquireLock Demo.redlock "seat:A" 100
     (Demo.world noRows [Demo.free_node; Demo.free_node; Demo.free_node] 1000
                 [Demo.advance 500])).1
  = Ok (mkLockResult "uuid-0" 0).
Proof. vm_compute. reflexivity. Qed.

(** The discount is taken on the rounded product: with a drift factor of
    0.29 the product for a TTL of 1000 ms rounds to 290, and the validity
    is 710 ms; for a TTL of 100 ms it rounds below 29, the discount is 28,
    and the validity 72 ms. *)
Example acquireLock_rounded_discount :
  let this := RedlockService.constructor (H := Demo.host)
                {[ "REDLOCK_DRIFT_FACTOR" := "0.29" ]} [0; 1; 2]%nat in
  let w := Demo.world noRows [Demo.free_node; Demo.free_node; Demo.free_node] 1000 [] in
  js_mul 1000 (RedlockService.driftFactor this) = 290
  ∧ (RedlockService.acquireLock this "seat:A" 1000 w).1 = Ok (mkLockResult "uuid-0" 710)
  ∧ js_lt (js_mul 100 (RedlockService.driftFactor this)) 29 = true
  ∧ (RedlockService.acquireLock this "seat:A" 100 w).1 = Ok (mkLockResult "uuid-0" 72).
Proof. vm_compute. repeat split; reflexivity. Qed.

Lemma acquireLock_attempts_witness :
  let w := Demo.world noRows
             [Demo.free_node; Demo.held_node "seat:A" "other" 99999; Demo.free_node]
             1000 [] in
  js_le (js_sub (js_sub 5000 (js_floor (js_mul 5000 (RedlockService.driftFactor Demo.redlock))))
                (of_Z 0)) 0 = false
  ∧ Forall answered (log (RedlockService.acquireLock Demo.redlock "seat:A" 5000 w).2)
  ∧ ∃ events,
      log (RedlockService.acquireLock Demo.redlock "seat:A" 5000 w).2 = log w ++ events
      ∧ acquire_trace Demo.redlock "seat:A" ("uuid-" +:+ pretty (entropy w)) 5000 0 events
          (is_ok (RedlockService.acquireLock Demo.redlock "seat:A" 5000 w).1)
      ∧ match RedlockService.acquireLock Demo.redlock "seat:A" 5000 w with
        | (Ok lockResult, w') =>
            token lockResult = "uuid-" +:+ pretty (entropy w)
            ∧ validityTime lockResult
              = Math_max
                  (js_sub (js_sub 5000 (of_Z (now (shared w') - now (shared w))))
                          (js_floor (js_mul 5000 (RedlockService.driftFactor Demo.redlock))))
                  0
        | (Err e, _) =>
            e = ConflictException "Failed to acquire lock on quorum of Redis instances"
        end.
Proof.
  intros w.
  assert (js_le (js_sub (js_sub 5000
                                (js_floor (js_mul 5000 (RedlockService.driftFactor
                                                           Demo.redlock))))
                        (of_Z 0)) 0 = false)
    as Httl by (vm_compute; reflexivity).
  assert (Forall answered (log (RedlockService.acquireLock Demo.redlock "seat:A" 5000 w).2))
    as Hans by (vm_compute; repeat constructor).
  split; [exact Httl | ]. split; [exact Hans | ].
  exact (acquireLock_attempts Demo.redlock "seat:A" 5000 w Httl Hans).
Defined.

(** With two of three nodes taken, every attempt misses the quorum: three
    attempts, each rolled back, two sleeps, then the Conflict. *)
Example acquireLock_three_attempts :
  let w := Demo.world noRows
             [Demo.held_node "seat:A" "other" 99999;
              Demo.held_node "seat:A" "other" 99999; Demo.free_node]
             1000 [] in
  (RedlockService.acquireLock Demo.redlock "seat:A" 5000 w).1
    = Err (ConflictException "Failed to acquire lock on quorum of Redis instances")
  ∧ log (RedlockService.acquireLock Demo.redlock "seat:A" 5000 w).2
    = [ EvSetPxNx 0 "seat:A" "uuid-0" 5000 (Ok false);
        EvSetPxNx 1 "seat:A" "uuid-0" 5000 (Ok false);
        EvSetPxNx 2 "seat:A" "uuid-0" 5000 (Ok true);
        EvEval 0 CompareAndDelete "seat:A" "uuid-0" (Ok 0);
        EvEval 1 CompareAndDelete "seat:A" "uuid-0" (Ok 0);
        EvEval 2 CompareAndDelete "seat:A" "uuid-0" (Ok 1);
        EvSleep 200;
        EvSetPxNx 0 "seat:A" "uuid-0" 5000 (Ok false);
        EvSetPxNx 1 "seat:A" "uuid-0" 5000 (Ok false);
        EvSetPxNx 2 "seat:A" "uuid-0" 5000 (Ok true);
        EvEval 0 CompareAndDelete "seat:A" "uuid-0" (Ok 0);
        EvEval 1 CompareAndDelete "seat:A" "uuid-0" (Ok 0);
        EvEval 2 CompareAndDelete "seat:A" "uuid-0" (Ok 1);
        EvSleep 200;
        EvSetPxNx 0 "seat:A" "uuid-0" 5000 (Ok false);
        EvSetPxNx 1 "seat:A" "uuid-0" 5000 (Ok false);
        EvSetPxNx 2 "seat:A" "uuid-0" 5000 (Ok true);
        EvEval 0 CompareAndDelete "seat:A" "uuid-0" (Ok 0);
        EvEval 1 CompareAndDelete "seat:A" "uuid-0" (Ok 0);
        EvEval 2 CompareAndDelete "seat:A" "uuid-0" (Ok 1) ].
Proof. vm_compute. split; reflexivity. Qed.

Lemma acquireLock_ttl_too_short_witness :
  let w := Demo.world noRows [Demo.free_node; Demo.free_node; Demo.free_node] 1000 [] in
  js_le (js_sub (js_sub 100 (js_floor (js_mul 100 (RedlockService.driftFactor
                                                      Demo.redlock_all_drift))))
                (of_Z 0)) 0 = true
  ∧ (RedlockService.acquireLock Demo.redlock_all_drift "seat:A" 100 w).1
    = Err (ConflictException "Lock TTL too short for Redlock")
  ∧ log (RedlockService.acquireLock Demo.redlock_all_drift "seat:A" 100 w).2 = log w
  ∧ shared (RedlockService.acquireLock Demo.redlock_all_drift "seat:A" 100 w).2 = shared w
  ∧ sched (RedlockService.acquireLock Demo.redlock_all_drift "seat:A" 100 w).2 = sched w.
Proof.
  intros w.
  assert (js_le (js_sub (js_sub 100 (js_floor (js_mul 100 (RedlockService.driftFactor
                                                              Demo.redlock_all_drift))))
                        (of_Z 0)) 0 = true) as Hshort by (vm_compute; reflexivity).
  split; [exact Hshort | ].
  exact (acquireLock_ttl_too_short Demo.redlock_all_drift "seat:A" 100 w Hshort).
Defined.

Lemma withLock_releases_witness :
  let w := Demo.world noRows [Demo.free_node; Demo.free_node; Demo.free_node] 1000 [] in
  let work : M Z := mthrow (ConflictException "Seat already booked") in
  let lockResult := mkLockResult "uuid-0" 4950 in
  let w1 := (RedlockService.acquireLock Demo.redlock "seat:A" 5000 w).2 in
  RedlockService.acquireLock Demo.redlock "seat:A" 5000 w = (Ok lockResult, w1)
  ∧ (RedlockService.withLock Demo.redlock "seat:A" 5000 work (Some (JsFinite 3000)) w).1
    = Err (ConflictException "Seat already booked")
  ∧ ∀ client, client ∈ RedlockService.clients Demo.redlock →
      not_held_on "seat:A" "uuid-0" client
        (shared (RedlockService.withLock Demo.redlock "seat:A" 5000 work (Some (JsFinite 3000)) w).2).
Proof.
  intros w work lockResult w1.
  assert (RedlockService.acquireLock Demo.redlock "seat:A" 5000 w = (Ok lockResult, w1))
    as Hacq by (vm_compute; reflexivity).
  split; [exact Hacq | ].
  destruct (withLock_releases Demo.redlock "seat:A" 5000 work (Some (JsFinite 3000)) w w1 lockResult Hacq)
    as [(w2 & _ & Hsched & _ & Hrun) _].
  destruct (Hrun (Err (ConflictException "Seat already booked")) w2 eq_refl)
    as (Hout & _ & Hfree).
  split; [exact Hout | ].
  apply Hfree. rewrite Hsched. reflexivity.
Defined.

(** A node that cannot be reached does not make the release fail. *)
Example releaseLock_swallows_failures :
  let w := Demo.world noRows
             [Demo.held_node "seat:A" "uuid-7" 9000; mkNode false ∅;
              Demo.held_node "seat:A" "uuid-7" 9000]
             1000 [] in
  (RedlockService.releaseLock Demo.redlock "seat:A" "uuid-7" w).1 = Ok tt
  ∧ log (RedlockService.releaseLock Demo.redlock "seat:A" "uuid-7" w).2
    = [ EvEval 0 CompareAndDelete "seat:A" "uuid-7" (Ok 1);
        EvEval 1 CompareAndDelete "seat:A" "uuid-7" (Err (ReplyError "Connection is closed."));
        EvEval 2 CompareAndDelete "seat:A" "uuid-7" (Ok 1) ].
Proof. vm_compute. split; reflexivity. Qed.

(** ** Running computations *)

Lemma run_bind {A B} (m : M A) (k : A → M B) w :
  (m ≫= k) w
  = match m w with
    | (Ok a, w') => k a w'
    | (Err e, w') => (Err e, w')
    end.
Proof. reflexivity. Qed.

Lemma run_ret {A} (a : A) w : (mret a : M A) w = (Ok a, w).
Proof. reflexivity. Qed.

Lemma run_throw {A} (e : Exception) w : (mthrow e : M A) w = (Err e, w).
Proof. reflexivity. Qed.

Lemma run_tx_bind {A B} (t : Tx A) (k : A → Tx B) written w :
  (t ≫= k) written w
  = match t written w with
    | (Ok (a, written'), w') => k a written' w'
    | (Err e, w') => (Err e, w')
    end.
Proof.
  unfold mbind at 1. unfold Tx_bind. rewrite run_bind.
  by destruct (t written w) as [[[a written'] | e] w'].
Qed.

Lemma run_tx_ret {A} (a : A) written w : (mret a : Tx A) written w = (Ok (a, written), w).
Proof. reflexivity. Qed.

Lemma run_tx_throw {A} (e : Exception) written w : (mthrow e : Tx A) written w = (Err e, w).
Proof. reflexivity. Qed.

Lemma run_outside {A} (m : M A) written w :
  outside m written w
  = match m w with
    | (Ok a, w') => (Ok (a, written), w')
    | (Err e, w') => (Err e, w')
    end.
Proof. reflexivity. Qed.

Lemma run_tx_await {A} (s : Stmt A) written w :
  tx_await s written w
  = match s (now (shared (env_step w))) (overlay written (db (shared (env_step w)))) with
    | Ok (a, rows) => (Ok (a, overlay rows written), env_step w)
    | Err e => (Err e, env_step w)
    end.
Proof. reflexivity. Qed.

Lemma run_prisma_await {A} (s : Stmt A) w :
  prisma_await s w
  = match s (now (shared (env_step w))) (db (shared (env_step w))) with
    | Ok (a, rows) => (Ok a, set_shared (set_db (overlay rows)) (env_step w))
    | Err e => (Err e, env_step w)
    end.
Proof. reflexivity. Qed.

Lemma run_transaction {A} (fn : Tx A) w :
  TransactionService.runInTransaction fn w
  = match fn noRows w with
    | (Ok (a, written), w') => (Ok a, set_shared (set_db (overlay written)) w')
    | (Err e, w') => (Err e, w')
    end.
Proof. reflexivity. Qed.

Lemma overlay_noRows d : overlay noRows d = d.
Proof.
  unfold overlay, noRows. simpl. rewrite !(left_id_L ∅ (∪)). by destruct d.
Qed.

Lemma overlay_noRows_r d : overlay d noRows = d.
Proof.
  unfold overlay, noRows. simpl. rewrite !(right_id_L ∅ (∪)). by destruct d.
Qed.

Lemma commit_nothing w : set_shared (set_db (overlay noRows)) w = w.
Proof.
  destruct w as [[d ns t] schedule events seed timers].
  unfold set_shared, set_db. simpl. by rewrite overlay_noRows.
Qed.

(** ** The idempotency coordinator *)

Section Idempotency.
Context `{Host} {T P : Type} `{Json T} `{Json P}.
Variable this : IdempotencyService.t.

(** The answer read from a SUCCESS record. *)
Definition replay (row : IdempotencyRecord.t) : Result (IdempotencyResult T) :=
  match IdempotencyRecord.responseData row, IdempotencyRecord.statusCode row with
  | Some text, Some code =>
      if decide (text = "") then
        Err (InternalServerErrorException "Cached response missing")
      else
        match JSON_parse text with
        | Some response => Ok (mkIdempotencyResult true response code)
        | None => Err (SyntaxError "Unexpected token in JSON")
        end
  | _, _ => Err (InternalServerErrorException "Cached response missing")
  end.

Lemma checkOrCreate_success_run (idempotencyKey : string) (requestPayload : P)
  (work : M (WorkResult T)) (w : World) (row : IdempotencyRecord.t) :
  idempotencyKey ≠ "" →
  idempotencyRecords (db (shared (env_step w))) !! idempotencyKey = Some row →
  IdempotencyRecord.requestHash row
    = Some (IdempotencyService.hashRequest requestPayload) →
  IdempotencyRecord.state row = SUCCESS →
  IdempotencyService.checkOrCreate this idempotencyKey requestPayload work w
  = (replay row, env_step w).
Proof.
  intros Hkey Hrow Hhash Hstate.
  unfold IdempotencyService.checkOrCreate.
  rewrite decide_False by done.
  rewrite run_bind. unfold Date_now at 1.
  rewrite run_transaction, run_tx_bind, run_tx_await.
  unfold idempotencyRecord.findUnique at 1.
  rewrite overlay_noRows, Hrow.
  rewrite decide_False by (intros Hne; by apply Hne).
  rewrite Hstate. unfold replay.
  destruct (IdempotencyRecord.responseData row) as [text | ];
    destruct (IdempotencyRecord.statusCode row) as [code | ]; try done.
  destruct (decide (text = "")); [done | ].
  destruct (JSON_parse text); [ | done].
  rewrite run_tx_ret, overlay_noRows. by rewrite commit_nothing.
Qed.

(** C6: for a key whose record is SUCCESS under the hash of the payload,
    [checkOrCreate] answers from the record: the parsed response and the
    status code that are stored, marked as a duplicate; when the record
    has no response text (NULL or empty) or no status code, the call fails
    with the internal error "Cached response missing".  In both cases
    [work] is not run and nothing is written: the world is the one the
    environment left when the record was read. *)
Theorem checkOrCreate_replays (idempotencyKey : string) (requestPayload : P)
  (work : M (WorkResult T)) (w : World) (row : IdempotencyRecord.t) :
  idempotencyKey ≠ "" →
  idempotencyRecords (db (shared (env_step w))) !! idempotencyKey = Some row →
  IdempotencyRecord.requestHash row
    = Some (IdempotencyService.hashRequest requestPayload) →
  IdempotencyRecord.state row = SUCCESS →
  (IdempotencyService.checkOrCreate this idempotencyKey requestPayload work w).2
    = env_step w
  ∧ (∀ text code response,
       IdempotencyRecord.responseData row = Some text → text ≠ "" →
       IdempotencyRecord.statusCode row = Some code →
       JSON_parse text = Some response →
       (IdempotencyService.checkOrCreate this idempotencyKey requestPayload work w).1
         = Ok (mkIdempotencyResult true response code))
  ∧ (IdempotencyRecord.responseData row = None
     ∨ IdempotencyRecord.responseData row = Some ""
     ∨ IdempotencyRecord.statusCode row = None →
     (IdempotencyService.checkOrCreate this idempotencyKey requestPayload work w).1
       = Err (InternalServerErrorException "Cached response missing")).
Proof.
  intros Hkey Hrow Hhash Hstate.
  rewrite (checkOrCreate_success_run _ _ _ _ _ Hkey Hrow Hhash Hstate).
  simpl. split; [done | ]. unfold replay. split.
  - intros text code response -> Hne -> ->. by rewrite decide_False.
  - intros [-> | [-> | ->]]; [done | | ].
    + by destruct (IdempotencyRecord.statusCode row).
    + by destruct (IdempotencyRecord.responseData row).
Qed.

(** *** A fresh key *)

Lemma lookup_written_record idempotencyKey (row : IdempotencyRecord.t) d :
  idempotencyRecords (overlay (overlay (mkStore ∅ ∅ {[ idempotencyKey := row ]}) noRows) d)
    !! idempotencyKey = Some row.
Proof.
  rewrite overlay_noRows_r. unfold overlay. simpl.
  apply lookup_union_Some_l. apply lookup_singleton_eq.
Qed.

(** C3 (what the code does): for a fresh key, in a quiet environment,
    when [work] fails the call fails with the failure of [work], and
    leaves the world as [work] and the environment left it: the record
    inserted as IN_PROGRESS and its update to FAILED belong to the
    transaction that the failure rolls back, so no record of the key is
    written. *)
Theorem checkOrCreate_failure_not_recorded (idempotencyKey : string) (requestPayload : P)
  (work : M (WorkResult T)) (w w3 : World) (error : Exception) :
  idempotencyKey ≠ "" →
  sched w = [] →
  idempotencyRecords (db (shared w)) !! idempotencyKey = None →
  work w = (Err error, w3) →
  IdempotencyService.checkOrCreate this idempotencyKey requestPayload work w
  = (Err error, env_step w3).
Proof.
  intros Hkey Hquiet Hfresh Hwork.
  unfold IdempotencyService.checkOrCreate.
  rewrite decide_False by done.
  rewrite run_bind. unfold Date_now at 1.
  rewrite run_transaction, run_tx_bind, run_tx_await.
  unfold idempotencyRecord.findUnique at 1.
  rewrite (env_step_quiet w Hquiet), overlay_noRows, Hfresh.
  rewrite run_tx_bind, run_tx_await.
  unfold idempotencyRecord.create at 1.
  rewrite (env_step_quiet w Hquiet), overlay_noRows, Hfresh.
  rewrite run_tx_bind, run_outside. unfold settle at 1. rewrite Hwork.
  rewrite run_tx_bind, run_outside. unfold Date_now at 1.
  rewrite run_tx_bind, run_tx_await.
  unfold idempotencyRecord.update at 1.
  rewrite lookup_written_record.
  by rewrite run_tx_throw.
Qed.

(** For comparison, the success of [work] is recorded: the record of the
    key is committed in state SUCCESS with the serialised response. *)
Lemma checkOrCreate_success_recorded (idempotencyKey : string) (requestPayload : P)
  (work : M (WorkResult T)) (w w3 : World) (result : WorkResult T) :
  idempotencyKey ≠ "" →
  sched w = [] →
  idempotencyRecords (db (shared w)) !! idempotencyKey = None →
  work w = (Ok result, w3) →
  ∃ row written,
    IdempotencyService.checkOrCreate this idempotencyKey requestPayload work w
    = (Ok (mkIdempotencyResult false (data result) (work_statusCode result)),
       set_shared (set_db (overlay written)) (env_step w3))
    ∧ idempotencyRecords written !! idempotencyKey = Some row
    ∧ IdempotencyRecord.state row = SUCCESS
    ∧ IdempotencyRecord.responseData row = Some (JSON_stringify (data result))
    ∧ IdempotencyRecord.statusCode row = Some (work_statusCode result).
Proof.
  intros Hkey Hquiet Hfresh Hwork.
  unfold IdempotencyService.checkOrCreate.
  rewrite decide_False by done.
  rewrite run_bind. unfold Date_now at 1.
  rewrite run_transaction, run_tx_bind, run_tx_await.
  unfold idempotencyRecord.findUnique at 1.
  rewrite (env_step_quiet w Hquiet), overlay_noRows, Hfresh.
  rewrite run_tx_bind, run_tx_await.
  unfold idempotencyRecord.create at 1.
  rewrite (env_step_quiet w Hquiet), overlay_noRows, Hfresh.
  rewrite run_tx_bind, run_outside. unfold settle at 1. rewrite Hwork.
  rewrite run_tx_bind, run_outside. unfold Date_now at 1.
  rewrite run_tx_bind, run_tx_await.
  unfold idempotencyRecord.update at 1.
  rewrite lookup_written_record.
  rewrite run_tx_ret.
  eexists _, _. split; [reflexivity | ].
  split; [simpl; apply lookup_union_Some_l, lookup_singleton_eq | done].
Qed.

(** *** A stale record *)

(** C4 (what the code does): for a key whose record is IN_PROGRESS under
    the hash of the payload and older than the TTL, in a quiet
    environment, the call fails with the Conflict "Previous request timed
    out" and leaves the world as it was: the update of the record to
    FAILED is rolled back with the transaction, the record stays
    IN_PROGRESS, and a later call with the key and the payload, whatever
    its [work], ends in the same way, not on the FAILED branch.  [work] is
    not run. *)
Theorem checkOrCreate_stale_not_marked (idempotencyKey : string) (requestPayload : P)
  (work : M (WorkResult T)) (w : World) (row : IdempotencyRecord.t) :
  idempotencyKey ≠ "" →
  sched w = [] →
  idempotencyRecords (db (shared w)) !! idempotencyKey = Some row →
  IdempotencyRecord.requestHash row
    = Some (IdempotencyService.hashRequest requestPayload) →
  IdempotencyRecord.state row = IN_PROGRESS →
  (IdempotencyService.ttlMs this
   < inject_Z (now (shared w) - IdempotencyRecord.createdAt row))%Q →
  IdempotencyService.checkOrCreate this idempotencyKey requestPayload work w
  = (Err (ConflictException "Previous request timed out"), w).
Proof.
  intros Hkey Hquiet Hrow Hhash Hstate Hage.
  unfold IdempotencyService.checkOrCreate.
  rewrite decide_False by done.
  rewrite run_bind. unfold Date_now at 1.
  rewrite run_transaction, run_tx_bind, run_tx_await.
  unfold idempotencyRecord.findUnique at 1.
  rewrite (env_step_quiet w Hquiet), overlay_noRows, Hrow.
  rewrite decide_False by (intros Hne; by apply Hne).
  rewrite Hstate.
  rewrite run_tx_bind, run_outside. unfold Date_now at 1.
  apply Qltb_true in Hage. rewrite Hage.
  rewrite run_tx_bind, run_tx_await.
  unfold idempotencyRecord.update at 1.
  rewrite (env_step_quiet w Hquiet), overlay_noRows, Hrow.
  by rewrite run_tx_throw.
Qed.

(** A record that is IN_PROGRESS and not older than the TTL: the request
    is in flight. *)
Lemma checkOrCreate_in_flight (idempotencyKey : string) (requestPayload : P)
  (work : M (WorkResult T)) (w : World) (row : IdempotencyRecord.t) :
  idempotencyKey ≠ "" →
  idempotencyRecords (db (shared (env_step w))) !! idempotencyKey = Some row →
  IdempotencyRecord.requestHash row
    = Some (IdempotencyService.hashRequest requestPayload) →
  IdempotencyRecord.state row = IN_PROGRESS →
  (inject_Z (now (shared (env_step w)) - IdempotencyRecord.createdAt row)
   <= IdempotencyService.ttlMs this)%Q →
  IdempotencyService.checkOrCreate this idempotencyKey requestPayload work w
  = (Err (ConflictException "Request already in progress"), env_step w).
Proof.
  intros Hkey Hrow Hhash Hstate Hage.
  unfold IdempotencyService.checkOrCreate.
  rewrite decide_False by done.
  rewrite run_bind. unfold Date_now at 1.
  rewrite run_transaction, run_tx_bind, run_tx_await.
  unfold idempotencyRecord.findUnique at 1.
  rewrite overlay_noRows, Hrow.
  rewrite decide_False by (intros Hne; by apply Hne).
  rewrite Hstate.
  rewrite run_tx_bind, run_outside. unfold Date_now at 1.
  apply Qltb_false in Hage. rewrite Hage.
  by rewrite run_tx_throw.
Qed.

(** A record that is FAILED. *)
Lemma checkOrCreate_previous_failure (idempotencyKey : string) (requestPayload : P)
  (work : M (WorkResult T)) (w : World) (row : IdempotencyRecord.t) :
  idempotencyKey ≠ "" →
  idempotencyRecords (db (shared (env_step w))) !! idempotencyKey = Some row →
  IdempotencyRecord.requestHash row
    = Some (IdempotencyService.hashRequest requestPayload) →
  IdempotencyRecord.state row = FAILED →
  IdempotencyService.checkOrCreate this idempotencyKey requestPayload work w
  = (Err (ConflictException "Previous request with this idempotency key failed"),
     env_step w).
Proof.
  intros Hkey Hrow Hhash Hstate.
  unfold IdempotencyService.checkOrCreate.
  rewrite decide_False by done.
  rewrite run_bind. unfold Date_now at 1.
  rewrite run_transaction, run_tx_bind, run_tx_await.
  unfold idempotencyRecord.findUnique at 1.
  rewrite overlay_noRows, Hrow.
  rewrite decide_False by (intros Hne; by apply Hne).
  rewrite Hstate.
  by rewrite run_tx_throw.
Qed.

End Idempotency.

Lemma checkOrCreate_replays_witness :
  let row := Demo.record SUCCESS (Some "42") (Some 201) in
  let w := Demo.world (Demo.store_with_record row) [] 1000 [] in
  "k1" ≠ ""
  ∧ idempotencyRecords (db (shared (env_step w))) !! "k1" = Some row
  ∧ IdempotencyRecord.requestHash row = Some (IdempotencyService.hashRequest Demo.payload)
  ∧ IdempotencyRecord.state row = SUCCESS
  ∧ IdempotencyService.checkOrCreate Demo.idempotency "k1" Demo.payload Demo.visible_work w
    = (Ok (mkIdempotencyResult true 42 201), w).
Proof.
  intros row w.
  assert ("k1" ≠ "") as Hkey by discriminate.
  assert (idempotencyRecords (db (shared (env_step w))) !! "k1" = Some row)
    as Hrow by reflexivity.
  assert (IdempotencyRecord.requestHash row
          = Some (IdempotencyService.hashRequest Demo.payload)) as Hhash by reflexivity.
  assert (IdempotencyRecord.state row = SUCCESS) as Hstate by reflexivity.
  repeat (split; [assumption | ]).
  destruct (checkOrCreate_replays Demo.idempotency "k1" Demo.payload Demo.visible_work
              w row Hkey Hrow Hhash Hstate) as (Hworld & Hanswer & _).
  specialize (Hanswer "42" 201 42 eq_refl ltac:(discriminate) eq_refl eq_refl).
  destruct (IdempotencyService.checkOrCreate Demo.idempotency "k1" Demo.payload
              Demo.visible_work w) as [answer w'].
  simpl in Hworld, Hanswer. rewrite Hworld, Hanswer. reflexivity.
Defined.

(** A SUCCESS record with no response text is an internal error. *)
Example checkOrCreate_missing_response :
  let row := Demo.record SUCCESS None (Some 201) in
  let w := Demo.world (Demo.store_with_record row) [] 1000 [] in
  IdempotencyService.checkOrCreate Demo.idempotency "k1" Demo.payload Demo.visible_work w
  = (Err (InternalServerErrorException "Cached response missing"), w).
Proof. vm_compute. reflexivity. Qed.

Lemma checkOrCreate_failure_not_recorded_witness :
  let w := Demo.world noRows [] 1000 [] in
  "k1" ≠ ""
  ∧ sched w = []
  ∧ idempotencyRecords (db (shared w)) !! "k1" = None
  ∧ Demo.failing_work w = (Err (ConflictException "Seat already booked"), w)
  ∧ IdempotencyService.checkOrCreate Demo.idempotency "k1" Demo.payload Demo.failing_work w
    = (Err (ConflictException "Seat already booked"), env_step w).
Proof.
  intros w.
  assert ("k1" ≠ "") as Hkey by discriminate.
  repeat (split; [first [assumption | reflexivity] | ]).
  exact (checkOrCreate_failure_not_recorded Demo.idempotency "k1" Demo.payload
           Demo.failing_work w w (ConflictException "Seat already booked")
           Hkey eq_refl eq_refl eq_refl).
Defined.

(** At the failing input the claim is about: after the call there is no
    record of the key, FAILED or other, and the same call runs [work]
    again. *)
Example checkOrCreate_failure_leaves_no_record :
  let w := Demo.world noRows [] 1000 [] in
  let after :=
    (IdempotencyService.checkOrCreate Demo.idempotency "k1" Demo.payload
       Demo.failing_work w).2 in
  idempotencyRecords (db (shared after)) !! "k1" = None
  ∧ (IdempotencyService.checkOrCreate Demo.idempotency "k1" Demo.payload
       Demo.visible_work after).1
    = Ok (mkIdempotencyResult false 7 201).
Proof. vm_compute. split; reflexivity. Qed.

Lemma checkOrCreate_stale_not_marked_witness :
  let row := Demo.record IN_PROGRESS None None in
  let w := Demo.world (Demo.store_with_record row) [] 400000 [] in
  "k1" ≠ ""
  ∧ sched w = []
  ∧ idempotencyRecords (db (shared w)) !! "k1" = Some row
  ∧ IdempotencyRecord.requestHash row = Some (IdempotencyService.hashRequest Demo.payload)
  ∧ IdempotencyRecord.state row = IN_PROGRESS
  ∧ (IdempotencyService.ttlMs Demo.idempotency
     < inject_Z (now (shared w) - IdempotencyRecord.createdAt row))%Q
  ∧ IdempotencyService.checkOrCreate Demo.idempotency "k1" Demo.payload Demo.visible_work w
    = (Err (ConflictException "Previous request timed out"), w).
Proof.
  intros row w.
  assert ("k1" ≠ "") as Hkey by discriminate.
  assert (IdempotencyService.ttlMs Demo.idempotency
          < inject_Z (now (shared w) - IdempotencyRecord.createdAt row))%Q
    as Hage by (vm_compute; reflexivity).
  repeat (split; [first [assumption | reflexivity] | ]).
  exact (checkOrCreate_stale_not_marked Demo.idempotency "k1" Demo.payload
           Demo.visible_work w row Hkey eq_refl eq_refl eq_refl eq_refl Hage).
Defined.

(** At the failing input the claim is about: the record is still
    IN_PROGRESS after the call, and the next call ends with "Previous
    request timed out" again, not with the message of the FAILED
    branch. *)
Example checkOrCreate_stale_stays_in_progress :
  let row := Demo.record IN_PROGRESS None None in
  let w := Demo.world (Demo.store_with_record row) [] 400000 [] in
  let after :=
    (IdempotencyService.checkOrCreate Demo.idempotency "k1" Demo.payload
       Demo.visible_work w).2 in
  IdempotencyRecord.state <$> idempotencyRecords (db (shared after)) !! "k1"
    = Some IN_PROGRESS
  ∧ (IdempotencyService.checkOrCreate Demo.idempotency "k1" Demo.payload
       Demo.visible_work after).1
    = Err (ConflictException "Previous request timed out").
Proof. vm_compute. split; reflexivity. Qed.

(** ** Statements on seats and bookings *)

Lemma guard_filter (seat_id : string) (seat : Seat.t) (m : gmap string Seat.t) :
  filter (λ kr, version_guard seat_id seat kr.1 kr.2 = true) m
  = match m !! seat_id with
    | Some row =>
        if Seat.version row =? Seat.version seat then {[ seat_id := row ]} else ∅
    | None => ∅
    end.
Proof.
  apply map_eq. intros i. apply option_eq. intros x.
  rewrite map_lookup_filter_Some. unfold version_guard. simpl.
  rewrite andb_true_iff, bool_decide_eq_true, Z.eqb_eq.
  destruct (m !! seat_id) as [row | ] eqn:Hrow.
  - destruct (Z.eqb_spec (Seat.version row) (Seat.version seat)) as [Hv | Hv].
    + rewrite lookup_singleton_Some. split.
      * intros (Hix & -> & _). split; [done | congruence].
      * intros [<- <-]. done.
    + rewrite lookup_empty. split; [ | done].
      intros (Hix & -> & Hv'). congruence.
  - rewrite lookup_empty. split; [ | done].
    intros (Hix & -> & _). congruence.
Qed.

(** The rows that [selected] picks in [d] can take one more version
    within the range of the column. *)
Definition versions_in_range (selected : string → Seat.t → bool) (d : Store) : Prop :=
  map_Forall (λ id row, selected id row = true
                        → seat.in_INTEGER (Seat.version row + 1) = true) (seats d).

#[global] Instance versions_in_range_dec selected d : Decision (versions_in_range selected d).
Proof. unfold versions_in_range. apply _. Defined.

(** An update that increments the version: the rows selected are written
    when each of them can take one more version; otherwise the statement
    fails and writes nothing. *)
Lemma updateMany_run selected data t v :
  (∀ row, Seat.version (data row) = Seat.version row + 1) →
  seat.updateMany selected data t v
  = if decide (versions_in_range selected v)
    then Ok (Z.of_nat (size (filter (λ kr, selected kr.1 kr.2 = true) (seats v))),
             mkStore (data <$> filter (λ kr, selected kr.1 kr.2 = true) (seats v)) ∅ ∅)
    else Err (PrismaClientKnownRequestError "P2020").
Proof.
  intros Hdata. unfold seat.updateMany. apply decide_ext.
  unfold versions_in_range. rewrite map_Forall_fmap. unfold map_Forall. split.
  - intros Hall id row Hrow Hsel. specialize (Hall id row). simpl in Hall.
    rewrite Hdata in Hall. apply Hall. by apply map_lookup_filter_Some.
  - intros Hall id row Hrow. apply map_lookup_filter_Some in Hrow as [Hrow Hsel].
    simpl. rewrite Hdata. by apply (Hall id row).
Qed.

(** The version-guarded update writes the row when its version is the one
    that was read, and nothing otherwise; it fails when the version
    written would be out of the range of the column. *)
Lemma guarded_update_hit seat_id seat data t v row :
  seats v !! seat_id = Some row →
  Seat.version row = Seat.version seat →
  seat.in_INTEGER (Seat.version (data row)) = true →
  seat.updateMany (version_guard seat_id seat) data t v
  = Ok (1, mkStore {[ seat_id := data row ]} ∅ ∅).
Proof.
  intros Hrow Hv Hrange. unfold seat.updateMany. rewrite guard_filter, Hrow.
  apply Z.eqb_eq in Hv. rewrite Hv.
  rewrite map_size_singleton, map_fmap_singleton.
  rewrite decide_True; [done | ]. by apply map_Forall_singleton.
Qed.

Lemma guarded_update_out_of_range seat_id seat data t v row :
  seats v !! seat_id = Some row →
  Seat.version row = Seat.version seat →
  seat.in_INTEGER (Seat.version (data row)) = false →
  seat.updateMany (version_guard seat_id seat) data t v
  = Err (PrismaClientKnownRequestError "P2020").
Proof.
  intros Hrow Hv Hrange. unfold seat.updateMany. rewrite guard_filter, Hrow.
  apply Z.eqb_eq in Hv. rewrite Hv.
  rewrite map_fmap_singleton.
  rewrite decide_False; [done | ]. rewrite map_Forall_singleton. congruence.
Qed.

Lemma guarded_update_miss seat_id seat data t v :
  (∀ row, seats v !! seat_id = Some row → Seat.version row ≠ Seat.version seat) →
  seat.updateMany (version_guard seat_id seat) data t v = Ok (0, noRows).
Proof.
  intros Hmiss. unfold seat.updateMany. rewrite guard_filter.
  assert (match seats v !! seat_id with
          | Some row =>
              if Seat.version row =? Seat.version seat then {[ seat_id := row ]} else ∅
          | None => ∅
          end = (∅ : gmap string Seat.t)) as ->.
  { destruct (seats v !! seat_id) as [row | ]; [ | done].
    specialize (Hmiss row eq_refl). apply Z.eqb_neq in Hmiss. by rewrite Hmiss. }
  rewrite map_size_empty, fmap_empty.
  rewrite decide_True; [done | ]. apply map_Forall_empty.
Qed.

(** No booking carries the key. *)
Definition key_unused (key : string) (d : Store) : Prop :=
  ∀ id b, bookings d !! id = Some b → Booking.idempotencyKey b ≠ key.

Lemma key_unused_filter key d :
  key_unused key d ↔ filter (λ kr, Booking.idempotencyKey kr.2 = key) (bookings d) = ∅.
Proof.
  rewrite map_empty_filter. unfold key_unused, map_Forall. done.
Qed.

Lemma create_fresh row t v :
  bookings v !! Booking.id row = None →
  key_unused (Booking.idempotencyKey row) v →
  booking.create row t v = Ok (row, mkStore ∅ {[ Booking.id row := row ]} ∅).
Proof.
  intros Hid Hkey. unfold booking.create.
  apply key_unused_filter in Hkey. by rewrite decide_True.
Qed.

Lemma create_taken row t v :
  ¬ (bookings v !! Booking.id row = None ∧ key_unused (Booking.idempotencyKey row) v) →
  booking.create row t v = Err (PrismaClientKnownRequestError "P2002").
Proof.
  intros Htaken. unfold booking.create.
  rewrite decide_False; [done | ].
  intros [Hid Hkey]. apply Htaken. split; [done | ]. by apply key_unused_filter.
Qed.


(** ** Reserve *)

(** The seat that was read can be booked: it is not BOOKED, and a hold on
    it has expired. *)
Definition bookable (seat : Seat.t) (t : Z) : Prop :=
  Seat.status seat ≠ BOOKED
  ∧ (Seat.status seat = HOLD → hold_expired seat t = true).

(** The booking that a reserve inserts, given the identifier drawn. *)
Definition confirmed (id : string) (input : CreateBookingInput) : Booking.t :=
  Booking.mk id (seatId input) (userId input) CONFIRMED (idempotencyKey input) None.

(** The store after the two writes of a reserve. *)
Definition reserved (input : CreateBookingInput) (id : string) (row : Seat.t) (d : Store)
  : Store :=
  mkStore (<[ seatId input := book row ]> (seats d))
          (<[ id := confirmed id input ]> (bookings d))
          (idempotencyRecords d).

Section Reserve.
Variable input : CreateBookingInput.

(** The worlds of a reserve started in [w]: [w] after the step of the
    environment at the read of the seat, at the insertion and at the
    update. *)
Definition at_read (w : World) : World := env_step w.
Definition at_insert (w : World) : World := env_step (randomUUID (at_read w)).2.
Definition at_update (w : World) : World := env_step (at_insert w).
Definition drawn_id (w : World) : string := "uuid-" +:+ pretty (entropy (at_read w)).

Lemma reserve_not_found w :
  seats (db (shared (at_read w))) !! seatId input = None →
  BookingService.createBooking_locked input w
  = (Err (NotFoundException "Seat not found"), at_read w).
Proof.
  intros Hseat. unfold BookingService.createBooking_locked,
    BookingService.createBooking_transaction.
  rewrite run_transaction, run_tx_bind, run_tx_await.
  unfold seat.findUnique at 1. rewrite overlay_noRows. fold (at_read w). rewrite Hseat.
  by rewrite run_tx_throw.
Qed.

Lemma reserve_booked w seat :
  seats (db (shared (at_read w))) !! seatId input = Some seat →
  Seat.status seat = BOOKED →
  BookingService.createBooking_locked input w
  = (Err (ConflictException "Seat already booked"), at_read w).
Proof.
  intros Hseat Hst. unfold BookingService.createBooking_locked,
    BookingService.createBooking_transaction.
  rewrite run_transaction, run_tx_bind, run_tx_await.
  unfold seat.findUnique at 1. rewrite overlay_noRows. fold (at_read w). rewrite Hseat.
  rewrite run_tx_bind, run_outside. unfold Date_now at 1.
  rewrite bool_decide_eq_true_2 by done.
  by rewrite run_tx_throw.
Qed.

Lemma reserve_on_hold w seat :
  seats (db (shared (at_read w))) !! seatId input = Some seat →
  Seat.status seat = HOLD →
  hold_expired seat (now (shared (at_read w))) = false →
  BookingService.createBooking_locked input w
  = (Err (ConflictException "Seat currently on hold"), at_read w).
Proof.
  intros Hseat Hst Hexp. unfold BookingService.createBooking_locked,
    BookingService.createBooking_transaction.
  rewrite run_transaction, run_tx_bind, run_tx_await.
  unfold seat.findUnique at 1. rewrite overlay_noRows. fold (at_read w). rewrite Hseat.
  rewrite run_tx_bind, run_outside. unfold Date_now at 1.
  rewrite bool_decide_eq_false_2 by (rewrite Hst; done).
  rewrite bool_decide_eq_true_2 by done. rewrite Hexp.
  change (true && negb false) with true. cbv iota.
  by rewrite run_tx_throw.
Qed.

(** Past the checks, the transaction is at the insertion. *)
Lemma reserve_checks_passed w seat :
  seats (db (shared (at_read w))) !! seatId input = Some seat →
  bookable seat (now (shared (at_read w))) →
  BookingService.createBooking_locked input w
  = match booking.create (confirmed (drawn_id w) input) (now (shared (at_insert w)))
            (db (shared (at_insert w))) with
    | Err e => (Err e, at_insert w)
    | Ok (booking, rows) =>
        match seat.updateMany (version_guard (seatId input) seat) book
                (now (shared (at_update w)))
                (overlay rows (db (shared (at_update w)))) with
        | Err e => (Err e, at_update w)
        | Ok (updated, rows') =>
            if updated =? 0 then
              (Err (ConflictException "Seat changed during booking"), at_update w)
            else
              (Ok (mkWorkResult booking 201),
               set_shared (set_db (overlay (overlay rows' rows))) (at_update w))
        end
    end.
Proof.
  intros Hseat [Hnb Hhold]. unfold BookingService.createBooking_locked,
    BookingService.createBooking_transaction.
  rewrite run_transaction, run_tx_bind, run_tx_await.
  unfold seat.findUnique at 1. rewrite overlay_noRows. fold (at_read w). rewrite Hseat.
  rewrite run_tx_bind, run_outside. unfold Date_now at 1.
  rewrite bool_decide_eq_false_2 by done.
  assert (bool_decide (Seat.status seat = HOLD)
          && negb (hold_expired seat (now (shared (at_read w)))) = false) as ->.
  { destruct (decide (Seat.status seat = HOLD)) as [Hst | Hst].
    - rewrite (Hhold Hst). by rewrite andb_false_r.
    - by rewrite bool_decide_eq_false_2. }
  rewrite run_tx_bind. unfold insert_confirmed.
  rewrite run_tx_bind, run_outside.
  destruct (randomUUID (at_read w)) as [[id | e] w1'] eqn:Hdraw; [ | done].
  assert (id = drawn_id w ∧ w1' = (randomUUID (at_read w)).2) as [-> ->].
  { rewrite Hdraw. unfold randomUUID in Hdraw. by injection Hdraw as <- <-. }
  rewrite run_tx_await. fold (at_insert w). rewrite overlay_noRows.
  fold (confirmed (drawn_id w) input).
  destruct (booking.create _ _ _) as [[booking rows] | e]; [ | done].
  rewrite run_tx_bind, run_tx_await. fold (at_update w).
  rewrite overlay_noRows_r.
  destruct (seat.updateMany _ _ _ _) as [[updated rows'] | e]; [ | done].
  destruct (updated =? 0); [by rewrite run_tx_throw | ].
  by rewrite run_tx_ret.
Qed.

Lemma commit_reserved id row w :
  set_shared
    (set_db (overlay (overlay (mkStore {[ seatId input := book row ]} ∅ ∅)
                              (mkStore ∅ {[ id := confirmed id input ]} ∅)))) w
  = set_shared (set_db (reserved input id row)) w.
Proof.
  unfold set_shared, set_db, overlay, reserved. simpl.
  rewrite !(left_id_L ∅ (∪)), !(right_id_L ∅ (∪)).
  by rewrite <- !insert_union_singleton_l.
Qed.

Lemma reserve_key_taken w seat :
  seats (db (shared (at_read w))) !! seatId input = Some seat →
  bookable seat (now (shared (at_read w))) →
  ¬ (bookings (db (shared (at_insert w))) !! drawn_id w = None
     ∧ key_unused (idempotencyKey input) (db (shared (at_insert w)))) →
  BookingService.createBooking_locked input w
  = (Err (PrismaClientKnownRequestError "P2002"), at_insert w).
Proof.
  intros Hseat Hok Htaken. rewrite (reserve_checks_passed w seat Hseat Hok).
  by rewrite create_taken.
Qed.

Lemma reserve_commits w seat row :
  seats (db (shared (at_read w))) !! seatId input = Some seat →
  bookable seat (now (shared (at_read w))) →
  bookings (db (shared (at_insert w))) !! drawn_id w = None →
  key_unused (idempotencyKey input) (db (shared (at_insert w))) →
  seats (db (shared (at_update w))) !! seatId input = Some row →
  Seat.version row = Seat.version seat →
  seat.in_INTEGER (Seat.version row + 1) = true →
  BookingService.createBooking_locked input w
  = (Ok (mkWorkResult (confirmed (drawn_id w) input) 201),
     set_shared (set_db (reserved input (drawn_id w) row)) (at_update w)).
Proof.
  intros Hseat Hok Hid Hkey Hrow Hv Hrange.
  rewrite (reserve_checks_passed w seat Hseat Hok).
  rewrite create_fresh by done.
  rewrite (guarded_update_hit _ _ _ _ _ row); [ | | done | done].
  2: { unfold overlay. simpl. by rewrite (left_id_L ∅ (∪)). }
  simpl. by rewrite commit_reserved.
Qed.

Lemma reserve_out_of_range w seat row :
  seats (db (shared (at_read w))) !! seatId input = Some seat →
  bookable seat (now (shared (at_read w))) →
  bookings (db (shared (at_insert w))) !! drawn_id w = None →
  key_unused (idempotencyKey input) (db (shared (at_insert w))) →
  seats (db (shared (at_update w))) !! seatId input = Some row →
  Seat.version row = Seat.version seat →
  seat.in_INTEGER (Seat.version row + 1) = false →
  BookingService.createBooking_locked input w
  = (Err (PrismaClientKnownRequestError "P2020"), at_update w).
Proof.
  intros Hseat Hok Hid Hkey Hrow Hv Hrange.
  rewrite (reserve_checks_passed w seat Hseat Hok).
  rewrite create_fresh by done.
  rewrite (guarded_update_out_of_range _ _ _ _ _ row); [done | | done | done].
  unfold overlay. simpl. by rewrite (left_id_L ∅ (∪)).
Qed.

Lemma reserve_seat_changed w seat :
  seats (db (shared (at_read w))) !! seatId input = Some seat →
  bookable seat (now (shared (at_read w))) →
  bookings (db (shared (at_insert w))) !! drawn_id w = None →
  key_unused (idempotencyKey input) (db (shared (at_insert w))) →
  (∀ row, seats (db (shared (at_update w))) !! seatId input = Some row →
          Seat.version row ≠ Seat.version seat) →
  BookingService.createBooking_locked input w
  = (Err (ConflictException "Seat changed during booking"), at_update w).
Proof.
  intros Hseat Hok Hid Hkey Hmiss. rewrite (reserve_checks_passed w seat Hseat Hok).
  rewrite create_fresh by done.
  rewrite guarded_update_miss; [done | ].
  unfold overlay. simpl. by rewrite (left_id_L ∅ (∪)).
Qed.




End Reserve.


Example reserve_hold_expiring_now :
  let w := Demo.world (Demo.seat_store (Seat.mk HOLD 3 (Some 1000))) [] 1000 [] in
  (BookingService.createBooking_locked Demo.request w).1
    = Ok (mkWorkResult (Booking.mk "uuid-0" "A" "u1" CONFIRMED "k1" None) 201)
  ∧ seats (db (shared (BookingService.createBooking_locked Demo.request w).2)) !! "A"
    = Some (Seat.mk BOOKED 4 None).
Proof. vm_compute. split; reflexivity. Qed.

(** A key that a booking already carries: the insertion violates the
    unique index, which is neither a Conflict nor a booking. *)
Example reserve_key_in_use :
  let taken := Booking.mk "b0" "B" "u1" CONFIRMED "k1" None in
  let w := Demo.world (mkStore {[ "A" := Seat.mk AVAILABLE 0 None ]} {[ "b0" := taken ]} ∅)
                      [] 1000 [] in
  (BookingService.createBooking_locked Demo.request w).1
    = Err (PrismaClientKnownRequestError "P2002")
  ∧ db (shared (BookingService.createBooking_locked Demo.request w).2) = db (shared w).
Proof. vm_compute. split; reflexivity. Qed.

(** A seat whose version is the last of the range: the update fails, and
    neither write is kept. *)
Example reserve_version_out_of_range :
  let w := Demo.world (Demo.seat_store (Seat.mk AVAILABLE 2147483647 None)) [] 1000 [] in
  (BookingService.createBooking_locked Demo.request w).1
    = Err (PrismaClientKnownRequestError "P2020")
  ∧ db (shared (BookingService.createBooking_locked Demo.request w).2) = db (shared w).
Proof. vm_compute. split; reflexivity. Qed.

(** Another process takes a hold on the seat between the read and the
    update: the guard finds the version changed, and neither write is
    kept. *)
Example reserve_loses_race :
  let other := Seat.mk HOLD 1 (Some 99999) in
  let w := Demo.world (Demo.seat_store (Seat.mk AVAILABLE 0 None)) [] 1000
                      [Demo.idle; Demo.overwrite_seat other] in
  (BookingService.createBooking_locked Demo.request w).1
    = Err (ConflictException "Seat changed during booking")
  ∧ db (shared (BookingService.createBooking_locked Demo.request w).2)
    = Demo.seat_store other.
Proof. vm_compute. split; reflexivity. Qed.

(** The earlier revision of the reserve (src/booking/booking.service.ts)
    first looks for a booking that carries the key; when there is none,
    it goes on as the reserve above does, one await later. *)
Lemma legacy_reserve_fresh_key input written w :
  key_unused (idempotencyKey input) (overlay written (db (shared (env_step w)))) →
  BookingServiceRedisLock.createBooking_transaction input written w
  = match BookingService.createBooking_transaction input written (env_step w) with
    | (Ok (result, rows), w') => (Ok (data result, rows), w')
    | (Err e, w') => (Err e, w')
    end.
Proof.
  intros Hfresh. apply key_unused_filter in Hfresh.
  unfold BookingServiceRedisLock.createBooking_transaction.
  rewrite run_tx_bind, run_tx_await. unfold booking.findUnique at 1.
  rewrite Hfresh, map_to_list_empty. simpl. rewrite overlay_noRows.
  unfold BookingService.createBooking_transaction. rewrite !run_tx_bind.
  destruct (tx_await (seat.findUnique (seatId input)) written (env_step w))
    as [[[[seat | ] rows] | e] w1]; try done.
  rewrite !run_tx_bind.
  destruct (outside Date_now rows w1) as [[[now1 rows1] | e] w2]; try done.
  case_bool_decide; [done | ].
  destruct (_ && _); [done | ].
  rewrite !run_tx_bind.
  destruct (insert_confirmed input rows1 w2) as [[[b rows2] | e] w3]; try done.
  rewrite !run_tx_bind.
  destruct (tx_await _ rows2 w3) as [[[updated rows3] | e] w4]; try done.
  by destruct (updated =? 0).
Qed.

(** With a key that a booking carries, the earlier revision answers
    before it looks at the seat: that booking when the seat and the user
    are the same, a Conflict otherwise. *)
Lemma legacy_reserve_known_key input written w id b :
  let view := overlay written (db (shared (env_step w))) in
  bookings view !! id = Some b →
  Booking.idempotencyKey b = idempotencyKey input →
  (∀ id' b', bookings view !! id' = Some b' →
             Booking.idempotencyKey b' = idempotencyKey input → id' = id) →
  BookingServiceRedisLock.createBooking_transaction input written w
  = (if decide (Booking.seatId b ≠ seatId input ∨ Booking.userId b ≠ userId input)
     then Err (ConflictException "Idempotency key reuse with different payload")
     else Ok (b, written),
     env_step w).
Proof.
  intros view Hb Hkey Hunique.
  unfold BookingServiceRedisLock.createBooking_transaction.
  rewrite run_tx_bind, run_tx_await. unfold booking.findUnique at 1. fold view.
  assert (filter (λ kr : string * Booking.t, Booking.idempotencyKey kr.2 = idempotencyKey input)
            (bookings view) = {[ id := b ]}) as ->.
  { apply map_eq. intros i. destruct (decide (i = id)) as [-> | Hne].
    - rewrite lookup_singleton_eq. by apply map_lookup_filter_Some.
    - rewrite lookup_singleton_ne by done. apply map_lookup_filter_None. right.
      intros b' Hb' Hk. by apply Hne, (Hunique i b'). }
  rewrite map_to_list_singleton. simpl. rewrite overlay_noRows.
  by case_decide.
Qed.


(** ** Hold *)

Section Hold.
Context `{Host}.
Variable process_env : gmap string string.
Variable seat_id : string.

(** The instant until which a hold taken in [w] lasts. *)
Definition hold_until (w : World) : Z :=
  Date_of (js_add (of_Z (now (shared (env_step w))))
                  (Env.envNumber process_env "HOLD_TTL_MS" 120000)).

(** The store after the write of a hold. *)
Definition held (w : World) (row : Seat.t) (d : Store) : Store :=
  mkStore (<[ seat_id := hold (hold_until w) row ]> (seats d))
          (bookings d) (idempotencyRecords d).

Lemma hold_not_found w :
  seats (db (shared (env_step w))) !! seat_id = None →
  SeatService.holdSeat_locked process_env seat_id w
  = (Err (NotFoundException "Seat not found"), env_step w).
Proof.
  intros Hseat. unfold SeatService.holdSeat_locked.
  rewrite run_bind, run_prisma_await. unfold seat.findUnique at 1. rewrite Hseat.
  by rewrite commit_nothing.
Qed.

Lemma hold_booked w seat :
  seats (db (shared (env_step w))) !! seat_id = Some seat →
  Seat.status seat = BOOKED →
  SeatService.holdSeat_locked process_env seat_id w
  = (Err (ConflictException "Seat already booked"), env_step w).
Proof.
  intros Hseat Hst. unfold SeatService.holdSeat_locked.
  rewrite run_bind, run_prisma_await. unfold seat.findUnique at 1. rewrite Hseat.
  rewrite commit_nothing. rewrite run_bind. unfold Date_now at 1.
  by rewrite bool_decide_eq_true_2.
Qed.

Lemma hold_on_hold w seat :
  seats (db (shared (env_step w))) !! seat_id = Some seat →
  Seat.status seat = HOLD →
  hold_expired seat (now (shared (env_step w))) = false →
  SeatService.holdSeat_locked process_env seat_id w
  = (Err (ConflictException "Seat already on hold"), env_step w).
Proof.
  intros Hseat Hst Hexp. unfold SeatService.holdSeat_locked.
  rewrite run_bind, run_prisma_await. unfold seat.findUnique at 1. rewrite Hseat.
  rewrite commit_nothing. rewrite run_bind. unfold Date_now at 1.
  rewrite bool_decide_eq_false_2 by (rewrite Hst; done).
  rewrite bool_decide_eq_true_2 by done. by rewrite Hexp.
Qed.

Lemma commit_held w row w2 :
  set_shared (set_db (overlay (mkStore {[ seat_id := hold (hold_until w) row ]} ∅ ∅))) w2
  = set_shared (set_db (held w row)) w2.
Proof.
  unfold set_shared, set_db, overlay, held. simpl.
  rewrite !(left_id_L ∅ (∪)). by rewrite <- insert_union_singleton_l.
Qed.

Lemma hold_commits w seat row :
  seats (db (shared (env_step w))) !! seat_id = Some seat →
  bookable seat (now (shared (env_step w))) →
  seats (db (shared (env_step (env_step w)))) !! seat_id = Some row →
  Seat.version row = Seat.version seat →
  seat.in_INTEGER (Seat.version row + 1) = true →
  SeatService.holdSeat_locked process_env seat_id w
  = (Ok (seats (db (shared (env_step (set_shared (set_db (held w row))
                                        (env_step (env_step w)))))) !! seat_id),
     env_step (set_shared (set_db (held w row)) (env_step (env_step w)))).
Proof.
  intros Hseat [Hnb Hhold] Hrow Hv Hrange. unfold SeatService.holdSeat_locked.
  rewrite run_bind, run_prisma_await. unfold seat.findUnique at 1. rewrite Hseat.
  rewrite commit_nothing. rewrite run_bind. unfold Date_now at 1.
  rewrite bool_decide_eq_false_2 by done.
  assert (bool_decide (Seat.status seat = HOLD)
          && negb (hold_expired seat (now (shared (env_step w)))) = false) as ->.
  { destruct (decide (Seat.status seat = HOLD)) as [Hst | Hst].
    - rewrite (Hhold Hst). by rewrite andb_false_r.
    - by rewrite bool_decide_eq_false_2. }
  rewrite run_bind. unfold Date_now at 1.
  rewrite run_bind, run_prisma_await.
  rewrite (guarded_update_hit _ _ _ _ _ row) by done.
  change (1 =? 0) with false. cbv iota.
  fold (hold_until w). rewrite commit_held.
  rewrite run_prisma_await. unfold seat.findUnique at 1.
  by rewrite commit_nothing.
Qed.

Lemma hold_out_of_range w seat row :
  seats (db (shared (env_step w))) !! seat_id = Some seat →
  bookable seat (now (shared (env_step w))) →
  seats (db (shared (env_step (env_step w)))) !! seat_id = Some row →
  Seat.version row = Seat.version seat →
  seat.in_INTEGER (Seat.version row + 1) = false →
  SeatService.holdSeat_locked process_env seat_id w
  = (Err (PrismaClientKnownRequestError "P2020"), env_step (env_step w)).
Proof.
  intros Hseat [Hnb Hhold] Hrow Hv Hrange. unfold SeatService.holdSeat_locked.
  rewrite run_bind, run_prisma_await. unfold seat.findUnique at 1. rewrite Hseat.
  rewrite commit_nothing. rewrite run_bind. unfold Date_now at 1.
  rewrite bool_decide_eq_false_2 by done.
  assert (bool_decide (Seat.status seat = HOLD)
          && negb (hold_expired seat (now (shared (env_step w)))) = false) as ->.
  { destruct (decide (Seat.status seat = HOLD)) as [Hst | Hst].
    - rewrite (Hhold Hst). by rewrite andb_false_r.
    - by rewrite bool_decide_eq_false_2. }
  rewrite run_bind. unfold Date_now at 1.
  rewrite run_bind, run_prisma_await.
  by rewrite (guarded_update_out_of_range _ _ _ _ _ row).
Qed.

Lemma hold_seat_changed w seat :
  seats (db (shared (env_step w))) !! seat_id = Some seat →
  bookable seat (now (shared (env_step w))) →
  (∀ row, seats (db (shared (env_step (env_step w)))) !! seat_id = Some row →
          Seat.version row ≠ Seat.version seat) →
  SeatService.holdSeat_locked process_env seat_id w
  = (Err (ConflictException "Seat state changed, retry"), env_step (env_step w)).
Proof.
  intros Hseat [Hnb Hhold] Hmiss. unfold SeatService.holdSeat_locked.
  rewrite run_bind, run_prisma_await. unfold seat.findUnique at 1. rewrite Hseat.
  rewrite commit_nothing. rewrite run_bind. unfold Date_now at 1.
  rewrite bool_decide_eq_false_2 by done.
  assert (bool_decide (Seat.status seat = HOLD)
          && negb (hold_expired seat (now (shared (env_step w)))) = false) as ->.
  { destruct (decide (Seat.status seat = HOLD)) as [Hst | Hst].
    - rewrite (Hhold Hst). by rewrite andb_false_r.
    - by rewrite bool_decide_eq_false_2. }
  rewrite run_bind. unfold Date_now at 1.
  rewrite run_bind, run_prisma_await.
  rewrite guarded_update_miss by done.
  change (0 =? 0) with true. cbv iota.
  by rewrite commit_nothing.
Qed.

End Hold.

(** ** Bulk updates and the reapers *)

Lemma lookup_bulk_update {V} (P : string → V → bool) (data : V → V)
  (m : gmap string V) (id : string) :
  ((data <$> filter (λ kr, P kr.1 kr.2 = true) m) ∪ m) !! id
  = (λ row, if P id row then data row else row) <$> m !! id.
Proof.
  destruct (m !! id) as [row | ] eqn:Hm; simpl.
  - destruct (P id row) eqn:HP.
    + apply lookup_union_Some_l. rewrite lookup_fmap.
      rewrite (proj2 (map_lookup_filter_Some _ m id row)); [done | ]. by split.
    + rewrite lookup_union_r; [done | ]. rewrite lookup_fmap.
      rewrite (proj2 (map_lookup_filter_None _ m id)); [done | ].
      right. intros x Hx. simpl. congruence.
  - rewrite lookup_union_r; [done | ]. rewrite lookup_fmap.
    rewrite (proj2 (map_lookup_filter_None _ m id)); [done | ]. by left.
Qed.

Lemma lookup_bulk_update_rows {V} (P : V → bool) (data : V → V)
  (m : gmap string V) (id : string) :
  ((data <$> filter (λ kr, P kr.2 = true) m) ∪ m) !! id
  = (λ row, if P row then data row else row) <$> m !! id.
Proof. exact (lookup_bulk_update (λ _, P) data m id). Qed.

(** The seats of the bookings that are CONFIRMED and past [expiresAt]. *)
Definition expired_seats (t : Z) (d : Store) : list string :=
  map Booking.seatId
      (snd <$> map_to_list (filter (λ kr, confirmed_expired t kr.2 = true) (bookings d))).

(** The store after the hold reaper and after the booking-expiry
    reaper. *)
Definition holds_released (t : Z) (d : Store) : Store :=
  mkStore ((release <$> filter (λ kr, hold_lapsed t kr.1 kr.2 = true) (seats d)) ∪ seats d)
          (bookings d) (idempotencyRecords d).

Definition bookings_expired (t : Z) (d : Store) : Store :=
  mkStore ((make_available
              <$> filter (λ kr, booked_among (expired_seats t d) kr.1 kr.2 = true) (seats d))
           ∪ seats d)
          ((expire <$> filter (λ kr, confirmed_expired t kr.2 = true) (bookings d))
           ∪ bookings d)
          (idempotencyRecords d).

(** The store after the seats of [seatIds] that are BOOKED were made
    available and the bookings [expired] marked EXPIRED. *)
Definition swept (seatIds : list string) (expired : gmap string Booking.t) (d : Store)
  : Store :=
  mkStore ((make_available
              <$> filter (λ kr, booked_among seatIds kr.1 kr.2 = true) (seats d))
           ∪ seats d)
          ((expire <$> expired) ∪ bookings d)
          (idempotencyRecords d).

Lemma releaseExpiredHolds_run w :
  SeatService.releaseExpiredHolds w
  = if decide (versions_in_range (hold_lapsed (now (shared w))) (db (shared (env_step w))))
    then (Ok (Z.of_nat (size (filter (λ kr, hold_lapsed (now (shared w)) kr.1 kr.2 = true)
                                     (seats (db (shared (env_step w))))))),
          set_shared (set_db (holds_released (now (shared w)))) (env_step w))
    else (Err (PrismaClientKnownRequestError "P2020"), env_step w).
Proof.
  unfold SeatService.releaseExpiredHolds.
  rewrite run_bind. unfold Date_now at 1.
  rewrite run_bind, run_prisma_await. rewrite (updateMany_run _ release) by done.
  case_decide; [ | done].
  rewrite run_ret. f_equal.
  unfold set_shared, set_db, overlay, holds_released. simpl.
  by rewrite !(left_id_L ∅ (∪)).
Qed.

(** The booking-expiry reaper, whatever the environment does: the
    bookings are read one step of the environment into the call, marked
    one step later, and the seats are written one step later again. *)
Lemma expireBookings_run w :
  let t := now (shared w) in
  let w1 := env_step w in
  let w2 := env_step w1 in
  let w3 := env_step w2 in
  let seatIds := expired_seats t (db (shared w1)) in
  BookingCleanupService.expireBookings w
  = if decide (seatIds = []) then (Ok 0, w1)
    else if decide (versions_in_range (booked_among seatIds) (db (shared w3)))
    then (Ok (Z.of_nat (length seatIds)),
          set_shared
            (set_db (swept seatIds
                       (filter (λ kr, confirmed_expired t kr.2 = true)
                               (bookings (db (shared w2)))))) w3)
    else (Err (PrismaClientKnownRequestError "P2020"), w3).
Proof.
  intros t w1 w2 w3 seatIds. unfold BookingCleanupService.expireBookings.
  rewrite run_bind. unfold Date_now at 1. fold t.
  unfold prisma_transaction.
  rewrite run_tx_bind, run_tx_await. unfold booking.findMany at 1.
  fold w1. rewrite overlay_noRows, overlay_noRows.
  fold (expired_seats t (db (shared w1))). fold seatIds.
  assert (length (snd <$> map_to_list
                    (filter (λ kr, confirmed_expired t kr.2 = true)
                            (bookings (db (shared w1))))) = length seatIds) as Hlen.
  { unfold seatIds, expired_seats. symmetry. apply List.length_map. }
  rewrite Hlen.
  destruct (decide (length seatIds = 0%nat)) as [Hnone | Hsome].
  - rewrite run_tx_ret. apply length_zero_iff_nil in Hnone.
    rewrite decide_True by done. by rewrite commit_nothing.
  - rewrite decide_False by (intros Hnil; apply Hsome; by rewrite Hnil).
    rewrite run_tx_bind, run_tx_await. unfold booking.updateMany at 1. fold w2.
    rewrite run_tx_bind, run_tx_await. fold w3.
    rewrite (updateMany_run _ make_available) by done.
    assert (seats (overlay
                     (overlay
                        (mkStore ∅
                           (expire <$> filter (λ kr, confirmed_expired t kr.2 = true)
                                         (bookings (overlay noRows (db (shared w2))))) ∅)
                        noRows) (db (shared w3))) = seats (db (shared w3))) as Hseats.
    { unfold overlay. simpl. by rewrite !(left_id_L ∅ (∪)). }
    match goal with
    | |- context [decide (versions_in_range _ ?view)] =>
        assert (versions_in_range (booked_among seatIds) view
                ↔ versions_in_range (booked_among seatIds) (db (shared w3))) as Hrange
          by (unfold versions_in_range; by rewrite Hseats)
    end.
    rewrite (decide_ext _ _ _ _ Hrange).
    case_decide; [ | done].
    rewrite run_tx_ret. f_equal.
    unfold set_shared, set_db, overlay, swept. simpl.
    by rewrite !(left_id_L ∅ (∪)), !(right_id_L ∅ (∪)).
Qed.

Lemma expireBookings_quiet w :
  sched w = [] →
  BookingCleanupService.expireBookings w
  = if decide (versions_in_range
                 (booked_among (expired_seats (now (shared w)) (db (shared w))))
                 (db (shared w)))
    then (Ok (Z.of_nat (length (expired_seats (now (shared w)) (db (shared w))))),
          set_shared (set_db (bookings_expired (now (shared w)))) w)
    else (Err (PrismaClientKnownRequestError "P2020"), w).
Proof.
  intros Hquiet. rewrite expireBookings_run. rewrite !(env_step_quiet w Hquiet).
  destruct (decide (expired_seats (now (shared w)) (db (shared w)) = [])) as [Hnone | Hsome];
    [ | done].
  rewrite decide_True.
  2: { intros id row _ Hsel. rewrite Hnone in Hsel. unfold booked_among in Hsel.
       apply andb_true_iff in Hsel as [Hin _]. apply bool_decide_eq_true in Hin.
       by apply elem_of_nil in Hin. }
  rewrite Hnone. simpl. f_equal.
  assert (filter (λ kr, confirmed_expired (now (shared w)) kr.2 = true)
                 (bookings (db (shared w))) = ∅) as Hempty.
  { apply map_to_list_empty_iff. unfold expired_seats in Hnone.
    apply fmap_nil_inv in Hnone. by apply fmap_nil_inv in Hnone. }
  unfold set_shared, set_db, bookings_expired. simpl.
  rewrite Hnone, Hempty.
  assert (filter (λ kr : string * Seat.t, booked_among [] kr.1 kr.2 = true)
                 (seats (db (shared w))) = ∅) as ->.
  { apply map_empty_filter. intros i x _. unfold booked_among. intros Hb.
    apply andb_true_iff in Hb as [Hin _]. apply bool_decide_eq_true in Hin.
    by apply elem_of_nil in Hin. }
  rewrite !fmap_empty, !(left_id_L ∅ (∪)).
  destruct w as [[[ss bs rs] ns t] schedule events seed timers]. done.
Qed.

(** ** Versions *)

(** Between two stores, the rows of the seats that were written have
    their version increased by exactly one, and the other seats are as
    they were. *)
Definition versions_step (before after : Store) (written : string → Seat.t → bool) : Prop :=
  ∀ id,
    match seats before !! id with
    | Some row =>
        ∃ row', seats after !! id = Some row'
                ∧ if written id row then Seat.version row' = Seat.version row + 1
                  else row' = row
    | None => seats after !! id = None
    end.

Lemma versions_step_unwritten before after written :
  seats after = seats before →
  (∀ id row, written id row = false) →
  versions_step before after written.
Proof.
  intros Hsame Hnone id. rewrite Hsame.
  destruct (seats before !! id) as [row | ]; [ | done].
  exists row. by rewrite Hnone.
Qed.

Lemma versions_step_one before after seat_id row data :
  seats before !! seat_id = Some row →
  seats after = <[ seat_id := data row ]> (seats before) →
  Seat.version (data row) = Seat.version row + 1 →
  versions_step before after (λ id _, bool_decide (id = seat_id) && true).
Proof.
  intros Hrow Hafter Hv id. rewrite Hafter.
  destruct (decide (id = seat_id)) as [-> | Hne].
  - rewrite Hrow, lookup_insert_eq. exists (data row).
    by rewrite bool_decide_eq_true_2.
  - rewrite lookup_insert_ne by done.
    destruct (seats before !! id) as [row' | ]; [ | done].
    exists row'. by rewrite bool_decide_eq_false_2.
Qed.

Lemma versions_step_bulk before after (P : string → Seat.t → bool) data :
  seats after
  = (data <$> filter (λ kr, P kr.1 kr.2 = true) (seats before)) ∪ seats before →
  (∀ row, Seat.version (data row) = Seat.version row + 1) →
  versions_step before after P.
Proof.
  intros Hafter Hv id. rewrite Hafter, lookup_bulk_update.
  destruct (seats before !! id) as [row | ]; [ | done]. simpl.
  eexists. split; [done | ]. by destruct (P id row).
Qed.

Lemma versions_step_ext before after (written written' : string → Seat.t → bool) :
  (∀ id row, written id row = written' id row) →
  versions_step before after written → versions_step before after written'.
Proof.
  intros Hext Hstep id. specialize (Hstep id).
  destruct (seats before !! id) as [row | ]; [ | done].
  destruct Hstep as (row' & Hrow' & Hstep). exists row'. by rewrite <- Hext.
Qed.

Section Versions.
Context `{Host}.
Variable process_env : gmap string string.

Lemma reserve_versions input w :
  let call := BookingService.createBooking_locked input w in
  ∃ before,
    before ∈ [at_read w; at_insert w; at_update w]
    ∧ versions_step (db (shared before)) (db (shared call.2))
        (λ id _, bool_decide (id = seatId input) && is_ok call.1)
    ∧ (is_ok call.1 = true →
       before = at_update w
       ∧ ∃ seat row,
           seats (db (shared (at_read w))) !! seatId input = Some seat
           ∧ seats (db (shared before)) !! seatId input = Some row
           ∧ Seat.version row = Seat.version seat).
Proof.
  intros call. subst call.
  assert (∀ (e : Exception) before,
            before ∈ [at_read w; at_insert w; at_update w] →
            BookingService.createBooking_locked input w = (Err e, before) →
            ∃ before,
              before ∈ [at_read w; at_insert w; at_update w]
              ∧ versions_step (db (shared before))
                  (db (shared (BookingService.createBooking_locked input w).2))
                  (λ id _, bool_decide (id = seatId input)
                           && is_ok (BookingService.createBooking_locked input w).1)
              ∧ (is_ok (BookingService.createBooking_locked input w).1 = true →
                 before = at_update w
                 ∧ ∃ seat row,
                     seats (db (shared (at_read w))) !! seatId input = Some seat
                     ∧ seats (db (shared before)) !! seatId input = Some row
                     ∧ Seat.version row = Seat.version seat)) as Hfailed.
  { intros e before Hin ->. exists before. split; [done | ]. simpl. split; [ | done].
    apply versions_step_unwritten; [done | ]. intros. by rewrite andb_false_r. }
  destruct (seats (db (shared (at_read w))) !! seatId input) as [seat | ] eqn:Hseat.
  2: { eapply (Hfailed _ (at_read w)); [set_solver | ]. by apply reserve_not_found. }
  destruct (decide (Seat.status seat = BOOKED)) as [Hbooked | Hbooked].
  { eapply (Hfailed _ (at_read w)); [set_solver | ]. by apply (reserve_booked input w seat). }
  destruct (decide (Seat.status seat = HOLD
                    ∧ hold_expired seat (now (shared (at_read w))) = false))
    as [[Hhold Hexp] | Hfree].
  { eapply (Hfailed _ (at_read w)); [set_solver | ]. by apply (reserve_on_hold input w seat). }
  assert (bookable seat (now (shared (at_read w)))) as Hok.
  { split; [done | ]. intros Hhold.
    destruct (hold_expired seat (now (shared (at_read w)))) eqn:Hexp; [done | ].
    exfalso. by apply Hfree. }
  destruct (decide (bookings (db (shared (at_insert w))) !! drawn_id w = None
                    ∧ filter (λ kr, Booking.idempotencyKey kr.2 = idempotencyKey input)
                             (bookings (db (shared (at_insert w)))) = ∅))
    as [[Hid Hkey] | Htaken].
  2: { eapply (Hfailed _ (at_insert w)); [set_solver | ].
       apply (reserve_key_taken input w seat); [done | done | ].
       intros [Hid Hkey]. apply Htaken. split; [done | ]. by apply key_unused_filter. }
  apply key_unused_filter in Hkey.
  destruct (seats (db (shared (at_update w))) !! seatId input) as [row | ] eqn:Hrow.
  2: { eapply (Hfailed _ (at_update w)); [set_solver | ].
       apply (reserve_seat_changed input w seat); try done.
       intros row Hrow'. congruence. }
  destruct (decide (Seat.version row = Seat.version seat)) as [Hv | Hv].
  2: { eapply (Hfailed _ (at_update w)); [set_solver | ].
       apply (reserve_seat_changed input w seat); try done.
       intros row' Hrow'. congruence. }
  destruct (seat.in_INTEGER (Seat.version row + 1)) eqn:Hrange.
  2: { eapply (Hfailed _ (at_update w)); [set_solver | ].
       by apply (reserve_out_of_range input w seat row). }
  rewrite (reserve_commits input w seat row) by done.
  exists (at_update w). split; [set_solver | ]. simpl. split.
  - by apply (versions_step_one _ _ (seatId input) row book).
  - intros _. split; [done | ]. by exists seat, row.
Qed.

Lemma hold_versions seat_id w :
  let call := SeatService.holdSeat_locked process_env seat_id w in
  ∃ before after,
    before ∈ [env_step w; env_step (env_step w)]
    ∧ versions_step (db (shared before)) after
        (λ id _, bool_decide (id = seat_id) && is_ok call.1)
    ∧ (is_ok call.1 = false → call.2 = before)
    ∧ (is_ok call.1 = true →
       before = env_step (env_step w)
       ∧ call.2 = env_step (set_shared (set_db (λ _, after)) before)
       ∧ ∃ seat row,
           seats (db (shared (env_step w))) !! seat_id = Some seat
           ∧ seats (db (shared before)) !! seat_id = Some row
           ∧ Seat.version row = Seat.version seat).
Proof.
  intros call. subst call.
  assert (∀ (e : Exception) before,
            before ∈ [env_step w; env_step (env_step w)] →
            SeatService.holdSeat_locked process_env seat_id w = (Err e, before) →
            ∃ before after,
              before ∈ [env_step w; env_step (env_step w)]
              ∧ versions_step (db (shared before)) after
                  (λ id _, bool_decide (id = seat_id)
                           && is_ok (SeatService.holdSeat_locked process_env seat_id w).1)
              ∧ (is_ok (SeatService.holdSeat_locked process_env seat_id w).1 = false →
                 (SeatService.holdSeat_locked process_env seat_id w).2 = before)
              ∧ (is_ok (SeatService.holdSeat_locked process_env seat_id w).1 = true →
                 before = env_step (env_step w)
                 ∧ (SeatService.holdSeat_locked process_env seat_id w).2
                   = env_step (set_shared (set_db (λ _, after)) before)
                 ∧ ∃ seat row,
                     seats (db (shared (env_step w))) !! seat_id = Some seat
                     ∧ seats (db (shared before)) !! seat_id = Some row
                     ∧ Seat.version row = Seat.version seat)) as Hfailed.
  { intros e before Hin ->. exists before, (db (shared before)). split; [done | ]. simpl.
    split; [ | done].
    apply versions_step_unwritten; [done | ]. intros. by rewrite andb_false_r. }
  destruct (seats (db (shared (env_step w))) !! seat_id) as [seat | ] eqn:Hseat.
  2: { eapply (Hfailed _ (env_step w)); [set_solver | ]. by apply hold_not_found. }
  destruct (decide (Seat.status seat = BOOKED)) as [Hbooked | Hbooked].
  { eapply (Hfailed _ (env_step w)); [set_solver | ].
    by apply (hold_booked process_env seat_id w seat). }
  destruct (decide (Seat.status seat = HOLD
                    ∧ hold_expired seat (now (shared (env_step w))) = false))
    as [[Hhold Hexp] | Hfree].
  { eapply (Hfailed _ (env_step w)); [set_solver | ].
    by apply (hold_on_hold process_env seat_id w seat). }
  assert (bookable seat (now (shared (env_step w)))) as Hok.
  { split; [done | ]. intros Hhold.
    destruct (hold_expired seat (now (shared (env_step w)))) eqn:Hexp; [done | ].
    exfalso. by apply Hfree. }
  destruct (seats (db (shared (env_step (env_step w)))) !! seat_id) as [row | ] eqn:Hrow.
  2: { eapply (Hfailed _ (env_step (env_step w))); [set_solver | ].
       apply (hold_seat_changed process_env seat_id w seat); try done.
       intros row Hrow'. congruence. }
  destruct (decide (Seat.version row = Seat.version seat)) as [Hv | Hv].
  2: { eapply (Hfailed _ (env_step (env_step w))); [set_solver | ].
       apply (hold_seat_changed process_env seat_id w seat); try done.
       intros row' Hrow'. congruence. }
  destruct (seat.in_INTEGER (Seat.version row + 1)) eqn:Hrange.
  2: { eapply (Hfailed _ (env_step (env_step w))); [set_solver | ].
       by apply (hold_out_of_range process_env seat_id w seat row). }
  rewrite (hold_commits process_env seat_id w seat row) by done.
  exists (env_step (env_step w)),
         (held process_env seat_id w row (db (shared (env_step (env_step w))))).
  split; [set_solver | ]. simpl. split; [ | split; [done | ] ].
  - by apply (versions_step_one _ _ seat_id row (hold (hold_until process_env w))).
  - intros _. split; [done | ]. split; [done | ]. by exists seat, row.
Qed.

Lemma releaseExpiredHolds_versions w :
  versions_step (db (shared (env_step w))) (db (shared (SeatService.releaseExpiredHolds w).2))
    (λ id row, hold_lapsed (now (shared w)) id row
               && is_ok (SeatService.releaseExpiredHolds w).1).
Proof.
  rewrite releaseExpiredHolds_run. case_decide; simpl.
  - apply (versions_step_ext _ _ (hold_lapsed (now (shared w)))).
    { intros. by rewrite andb_true_r. }
    by apply (versions_step_bulk _ _ _ release).
  - apply versions_step_unwritten; [done | ]. intros. by rewrite andb_false_r.
Qed.

Lemma expireBookings_versions w :
  ∃ before,
    before ∈ [env_step w; env_step (env_step (env_step w))]
    ∧ versions_step (db (shared before))
        (db (shared (BookingCleanupService.expireBookings w).2))
        (λ id row, booked_among (expired_seats (now (shared w)) (db (shared (env_step w))))
                                id row
                   && is_ok (BookingCleanupService.expireBookings w).1).
Proof.
  rewrite expireBookings_run. cbv zeta.
  destruct (decide (expired_seats (now (shared w)) (db (shared (env_step w))) = []))
    as [Hnone | Hsome].
  - exists (env_step w). split; [set_solver | ]. simpl.
    apply versions_step_unwritten; [done | ]. intros id row. rewrite Hnone.
    unfold booked_among. rewrite bool_decide_eq_false_2; [done | ]. apply not_elem_of_nil.
  - exists (env_step (env_step (env_step w))). split; [set_solver | ].
    case_decide; simpl.
    + apply (versions_step_ext _ _
               (booked_among (expired_seats (now (shared w)) (db (shared (env_step w)))))).
      { intros. by rewrite andb_true_r. }
      by apply (versions_step_bulk _ _ _ make_available).
    + apply versions_step_unwritten; [done | ]. intros. by rewrite andb_false_r.
Qed.

(** C8: whatever the environment does meanwhile, for each operation that
    writes seats there is a moment of the call, the store [before] as the
    environment left it at one of the awaits of the call, such that
    against it and for every seat: the reserve and the hold increase the
    version of their seat by exactly one when they succeed, which they do
    only if the row still has, at the update, the version that they read;
    when they are rejected or fail, the guard having missed included,
    they leave every seat as it was; the hold reaper increases by exactly
    one the version of each seat on HOLD whose hold has lapsed, the
    booking-expiry reaper that of each BOOKED seat of a CONFIRMED booking
    past its expiry, both leave the other seats as they were, and when
    they fail they leave every seat as it was.  (The hold reads the seat
    again after its write; it ends one step of the environment after
    it.) *)
Theorem seat_versions (w : World) :
  (∀ input,
     let call := BookingService.createBooking_locked input w in
     ∃ before,
       before ∈ [at_read w; at_insert w; at_update w]
       ∧ versions_step (db (shared before)) (db (shared call.2))
           (λ id _, bool_decide (id = seatId input) && is_ok call.1)
       ∧ (is_ok call.1 = true →
          before = at_update w
          ∧ ∃ seat row,
              seats (db (shared (at_read w))) !! seatId input = Some seat
              ∧ seats (db (shared before)) !! seatId input = Some row
              ∧ Seat.version row = Seat.version seat))
  ∧ (∀ seat_id,
       let call := SeatService.holdSeat_locked process_env seat_id w in
       ∃ before after,
         before ∈ [env_step w; env_step (env_step w)]
         ∧ versions_step (db (shared before)) after
             (λ id _, bool_decide (id = seat_id) && is_ok call.1)
         ∧ (is_ok call.1 = false → call.2 = before)
         ∧ (is_ok call.1 = true →
            before = env_step (env_step w)
            ∧ call.2 = env_step (set_shared (set_db (λ _, after)) before)
            ∧ ∃ seat row,
                seats (db (shared (env_step w))) !! seat_id = Some seat
                ∧ seats (db (shared before)) !! seat_id = Some row
                ∧ Seat.version row = Seat.version seat))
  ∧ (let call := SeatService.releaseExpiredHolds w in
     versions_step (db (shared (env_step w))) (db (shared call.2))
       (λ id row, hold_lapsed (now (shared w)) id row && is_ok call.1))
  ∧ (let call := BookingCleanupService.expireBookings w in
     ∃ before,
       before ∈ [env_step w; env_step (env_step (env_step w))]
       ∧ versions_step (db (shared before)) (db (shared call.2))
           (λ id row,
              booked_among (expired_seats (now (shared w)) (db (shared (env_step w))))
                           id row
              && is_ok call.1)).
Proof.
  split; [ | split; [ | split]].
  - intros input. apply reserve_versions.
  - intros seat_id. apply hold_versions.
  - apply releaseExpiredHolds_versions.
  - apply expireBookings_versions.
Qed.

End Versions.

(** The versions of the three seats of the hall, before and after each
    operation. *)
Example versions_in_the_hall :
  let w := Demo.world Demo.hall [] 1000 [] in
  let versions (w' : World) := Seat.version <$> seats (db (shared w')) in
  versions w = {[ "A" := 0; "B" := 5; "C" := 8 ]}
  ∧ versions (BookingService.createBooking_locked Demo.request w).2
    = {[ "A" := 1; "B" := 5; "C" := 8 ]}
  ∧ versions (BookingService.createBooking_locked
                (mkCreateBookingInput "C" "u1" "k1") w).2
    = {[ "A" := 0; "B" := 5; "C" := 8 ]}
  ∧ versions (SeatService.holdSeat_locked ∅ "B" w).2
    = {[ "A" := 0; "B" := 6; "C" := 8 ]}
  ∧ versions (SeatService.releaseExpiredHolds w).2
    = {[ "A" := 0; "B" := 6; "C" := 8 ]}
  ∧ versions (BookingCleanupService.expireBookings w).2
    = {[ "A" := 0; "B" := 5; "C" := 9 ]}.
Proof. vm_compute. repeat split; reflexivity. Qed.

(** The rejected write: another process takes the seat between the read
    and the update of a hold; the guard misses, the hold fails, and the
    seat is as the other process left it. *)
Example hold_loses_race :
  let other := Seat.mk HOLD 1 (Some 99999) in
  let w := Demo.world (Demo.seat_store (Seat.mk AVAILABLE 0 None)) [] 1000
                      [Demo.idle; Demo.overwrite_seat other] in
  (SeatService.holdSeat_locked ∅ "A" w).1
    = Err (ConflictException "Seat state changed, retry")
  ∧ db (shared (SeatService.holdSeat_locked ∅ "A" w).2) = Demo.seat_store other.
Proof. vm_compute. split; reflexivity. Qed.

(** A lapsed hold on a seat whose version is the last of the range: the
    hold reaper fails, and the other lapsed hold is not released
    either. *)
Example releaseExpiredHolds_version_out_of_range :
  let w := Demo.world (mkStore {[ "A" := Seat.mk HOLD 2147483647 (Some 900);
                                  "B" := Seat.mk HOLD 5 (Some 900) ]} ∅ ∅)
                      [] 1000 [] in
  (SeatService.releaseExpiredHolds w).1 = Err (PrismaClientKnownRequestError "P2020")
  ∧ db (shared (SeatService.releaseExpiredHolds w).2) = db (shared w).
Proof. vm_compute. split; reflexivity. Qed.

(** ** No double booking *)

(** At most one CONFIRMED booking per seat. *)
Definition one_confirmed_per_seat (d : Store) : Prop :=
  ∀ i j b1 b2,
    bookings d !! i = Some b1 → bookings d !! j = Some b2 →
    Booking.status b1 = CONFIRMED → Booking.status b2 = CONFIRMED →
    Booking.seatId b1 = Booking.seatId b2 →
    i = j.

(** The seat of a CONFIRMED booking is BOOKED. *)
Definition confirmed_seat_booked (d : Store) : Prop :=
  ∀ i b row,
    bookings d !! i = Some b → Booking.status b = CONFIRMED →
    seats d !! Booking.seatId b = Some row →
    Seat.status row = BOOKED.

Definition consistent (d : Store) : Prop :=
  one_confirmed_per_seat d ∧ confirmed_seat_booked d.

(** Every write of a seat increases its version: a seat found with the
    version that was read is the row that was read. *)
Definition versions_grow (d d' : Store) : Prop :=
  ∀ id row,
    seats d !! id = Some row →
    ∃ row', seats d' !! id = Some row'
            ∧ (row' = row ∨ Seat.version row < Seat.version row').

(** What an operation may do to the store, and may rely on from the
    others. *)
Definition evolves (d d' : Store) : Prop :=
  (consistent d → consistent d') ∧ versions_grow d d'.

Lemma evolves_same d d' :
  seats d' = seats d → bookings d' = bookings d → evolves d d'.
Proof.
  intros Hs Hb. split.
  - intros [Hone Hbooked]. split.
    + intros i j b1 b2. rewrite Hb. apply Hone.
    + intros i b row. rewrite Hb, Hs. apply Hbooked.
  - intros id row Hrow. exists row. rewrite Hs. by split; [ | left].
Qed.

Lemma evolves_refl d : evolves d d.
Proof. by apply evolves_same. Qed.

Lemma evolves_trans d1 d2 d3 : evolves d1 d2 → evolves d2 d3 → evolves d1 d3.
Proof.
  intros [Hc12 Hv12] [Hc23 Hv23]. split; [by auto | ].
  intros id row Hrow.
  destruct (Hv12 id row Hrow) as (row2 & Hrow2 & H12).
  destruct (Hv23 id row2 Hrow2) as (row3 & Hrow3 & H23).
  exists row3. split; [done | ].
  destruct H12 as [-> | H12]; [done | ]. right.
  destruct H23 as [-> | H23]; [done | lia].
Qed.

(** The row found under the version that was read. *)
Lemma same_version_same_row d d' id seat row :
  versions_grow d d' →
  seats d !! id = Some seat → seats d' !! id = Some row →
  Seat.version row = Seat.version seat →
  row = seat.
Proof.
  intros Hgrow Hseat Hrow Hv.
  destruct (Hgrow id seat Hseat) as (row' & Hrow' & Hcase).
  rewrite Hrow in Hrow'. injection Hrow' as <-.
  destruct Hcase as [-> | Hlt]; [done | lia].
Qed.

(** A seat that is not BOOKED has no CONFIRMED booking. *)
Lemma unbooked_seat_unconfirmed d id row i b :
  consistent d →
  seats d !! id = Some row → Seat.status row ≠ BOOKED →
  bookings d !! i = Some b → Booking.status b = CONFIRMED →
  Booking.seatId b ≠ id.
Proof.
  intros [_ Hbooked] Hrow Hst Hb Hc Heq. subst id.
  by specialize (Hbooked i b row Hb Hc Hrow).
Qed.

Lemma reserved_evolves input id row d :
  seats d !! seatId input = Some row →
  Seat.status row ≠ BOOKED →
  evolves d (reserved input id row d).
Proof.
  intros Hrow Hst. split.
  - intros Hcons. pose proof Hcons as [Hone Hbooked]. split.
    + intros i j b1 b2 Hb1 Hb2 Hc1 Hc2 Hsame. simpl in Hb1, Hb2.
      destruct (decide (i = id)) as [-> | Hi]; destruct (decide (j = id)) as [-> | Hj];
        [done | | | ].
      * rewrite lookup_insert_eq in Hb1. injection Hb1 as <-.
        rewrite lookup_insert_ne in Hb2 by done.
        exfalso. by apply (unbooked_seat_unconfirmed d (seatId input) row j b2).
      * rewrite lookup_insert_eq in Hb2. injection Hb2 as <-.
        rewrite lookup_insert_ne in Hb1 by done.
        exfalso. by apply (unbooked_seat_unconfirmed d (seatId input) row i b1).
      * rewrite lookup_insert_ne in Hb1, Hb2 by done. by eapply Hone.
    + intros i b row' Hb Hc Hrow'. simpl in Hb, Hrow'.
      destruct (decide (Booking.seatId b = seatId input)) as [Hs | Hs].
      * rewrite Hs, lookup_insert_eq in Hrow'. by injection Hrow' as <-.
      * rewrite lookup_insert_ne in Hrow' by done.
        destruct (decide (i = id)) as [-> | Hi].
        -- rewrite lookup_insert_eq in Hb. injection Hb as <-. done.
        -- rewrite lookup_insert_ne in Hb by done. by eapply Hbooked.
  - intros id' row' Hrow'. simpl.
    destruct (decide (id' = seatId input)) as [-> | Hne].
    + rewrite lookup_insert_eq. eexists. split; [done | ]. right.
      rewrite Hrow in Hrow'. injection Hrow' as <-. simpl. lia.
    + rewrite lookup_insert_ne by done. exists row'. by split; [ | left].
Qed.

Lemma seat_written_evolves id row row' d :
  seats d !! id = Some row →
  Seat.status row ≠ BOOKED →
  Seat.version row < Seat.version row' →
  evolves d (mkStore (<[ id := row' ]> (seats d)) (bookings d) (idempotencyRecords d)).
Proof.
  intros Hrow Hst Hv. split.
  - intros Hcons. pose proof Hcons as [Hone Hbooked]. split.
    + intros i j b1 b2. simpl. apply Hone.
    + intros i b r Hb Hc Hr. simpl in Hb, Hr.
      destruct (decide (Booking.seatId b = id)) as [Hs | Hs].
      * exfalso. by apply (unbooked_seat_unconfirmed d id row i b).
      * rewrite lookup_insert_ne in Hr by done. by eapply Hbooked.
  - intros id' r Hr. simpl.
    destruct (decide (id' = id)) as [-> | Hne].
    + rewrite lookup_insert_eq. eexists. split; [done | ]. right.
      rewrite Hrow in Hr. by injection Hr as <-.
    + rewrite lookup_insert_ne by done. exists r. by split; [ | left].
Qed.

Lemma holds_released_evolves t d : evolves d (holds_released t d).
Proof.
  split.
  - intros Hcons. pose proof Hcons as [Hone Hbooked]. split.
    + intros i j b1 b2. simpl. apply Hone.
    + intros i b r Hb Hc Hr. simpl in Hb, Hr.
      rewrite lookup_bulk_update in Hr.
      destruct (seats d !! Booking.seatId b) as [row | ] eqn:Hrow; [ | done].
      simpl in Hr. injection Hr as <-.
      pose proof (Hbooked i b row Hb Hc Hrow) as Hst.
      unfold hold_lapsed. rewrite bool_decide_eq_false_2; [done | ]. by rewrite Hst.
  - intros id row Hrow. simpl. rewrite lookup_bulk_update, Hrow. simpl.
    eexists. split; [done | ].
    destruct (hold_lapsed t id row); [right; simpl; lia | by left].
Qed.

Lemma elem_of_expired_seats t d id :
  id ∈ expired_seats t d
  ↔ ∃ i b, bookings d !! i = Some b ∧ confirmed_expired t b = true
           ∧ Booking.seatId b = id.
Proof.
  unfold expired_seats. rewrite list_elem_of_fmap. split.
  - intros (b & -> & Hb). apply list_elem_of_fmap in Hb as ([i b'] & -> & Hib).
    apply elem_of_map_to_list in Hib. apply map_lookup_filter_Some in Hib as [Hb Hexp].
    by exists i, b'.
  - intros (i & b & Hb & Hexp & <-). exists b. split; [done | ].
    apply list_elem_of_fmap. exists (i, b). split; [done | ].
    apply elem_of_map_to_list. by apply map_lookup_filter_Some.
Qed.

Lemma bookings_expired_evolves t d : evolves d (bookings_expired t d).
Proof.
  split.
  - intros Hcons. pose proof Hcons as [Hone Hbooked].
    assert (∀ i b, bookings (bookings_expired t d) !! i = Some b →
                   Booking.status b = CONFIRMED →
                   bookings d !! i = Some b ∧ confirmed_expired t b = false) as Hold.
    { intros i b Hb Hc. simpl in Hb. rewrite lookup_bulk_update_rows in Hb.
      destruct (bookings d !! i) as [b0 | ] eqn:Hb0; [ | done].
      simpl in Hb. injection Hb as <-.
      destruct (confirmed_expired t b0) eqn:Hexp; [done | ]. done. }
    split.
    + intros i j b1 b2 Hb1 Hb2 Hc1 Hc2 Hsame.
      destruct (Hold i b1 Hb1 Hc1) as [Hb1' _].
      destruct (Hold j b2 Hb2 Hc2) as [Hb2' _].
      by eapply Hone.
    + intros i b r Hb Hc Hr.
      destruct (Hold i b Hb Hc) as [Hb' Hfresh].
      simpl in Hr. rewrite lookup_bulk_update in Hr.
      destruct (seats d !! Booking.seatId b) as [row | ] eqn:Hrow; [ | done].
      simpl in Hr. injection Hr as <-.
      pose proof (Hbooked i b row Hb' Hc Hrow) as Hst.
      assert (booked_among (expired_seats t d) (Booking.seatId b) row = false) as ->; [ | done].
      unfold booked_among. rewrite bool_decide_eq_false_2; [done | ].
      intros Hin. apply elem_of_expired_seats in Hin as (j & b' & Hb'' & Hexp & Hsame).
      assert (Booking.status b' = CONFIRMED) as Hc'.
      { unfold confirmed_expired in Hexp. apply andb_true_iff in Hexp as [Hexp _].
        by apply bool_decide_eq_true in Hexp. }
      assert (j = i) as -> by by eapply Hone.
      rewrite Hb' in Hb''. injection Hb'' as <-. congruence.
  - intros id row Hrow. simpl. rewrite lookup_bulk_update, Hrow. simpl.
    eexists. split; [done | ].
    destruct (booked_among (expired_seats t d) id row); [right; simpl; lia | by left].
Qed.

(** *** Computations that let the store evolve *)

(** An action of the environment that lets the store evolve, from any
    state. *)
Definition action_evolves (f : Shared → Shared) : Prop :=
  ∀ s, evolves (db s) (db (f s)).

(** A computation that lets the store evolve when the environment
    does. *)
Definition safe {A} (m : M A) : Prop :=
  ∀ w, Forall action_evolves (sched w) →
       evolves (db (shared w)) (db (shared (m w).2))
       ∧ Forall action_evolves (sched (m w).2).

Lemma env_step_safe w :
  Forall action_evolves (sched w) →
  evolves (db (shared w)) (db (shared (env_step w)))
  ∧ Forall action_evolves (sched (env_step w)).
Proof.
  intros Hsched. unfold env_step.
  destruct (sched w) as [ | action rest] eqn:Hw.
  - split; [apply evolves_refl | by rewrite Hw].
  - apply Forall_cons in Hsched as [Haction Hrest]. simpl. split; [apply Haction | done].
Qed.

Lemma safe_untouched {A} (m : M A) :
  (∀ w, db (shared (m w).2) = db (shared w) ∧ sched (m w).2 = sched w) → safe m.
Proof.
  intros Hm w Hsched. destruct (Hm w) as [-> ->]. split; [apply evolves_refl | done].
Qed.

Lemma safe_after_step {A} (m : M A) :
  (∀ w, ∃ w0, db (shared w0) = db (shared w) ∧ sched w0 = sched w
              ∧ db (shared (m w).2) = db (shared (env_step w0))
              ∧ sched (m w).2 = sched (env_step w0)) →
  safe m.
Proof.
  intros Hm w Hsched. destruct (Hm w) as (w0 & Hdb & Hs & -> & ->).
  rewrite <- Hdb. apply env_step_safe. by rewrite Hs.
Qed.

Lemma safe_ret {A} (a : A) : safe (mret a).
Proof. by apply safe_untouched. Qed.

Lemma safe_throw {A} (e : Exception) : safe (mthrow e : M A).
Proof. by apply safe_untouched. Qed.

Lemma safe_bind {A B} (m : M A) (k : A → M B) :
  safe m → (∀ a, safe (k a)) → safe (m ≫= k).
Proof.
  intros Hm Hk w Hsched. rewrite run_bind.
  destruct (Hm w Hsched) as [Hev Hs].
  destruct (m w) as [[a | e] w']; simpl in *; [ | done].
  destruct (Hk a w' Hs) as [Hev' Hs']. split; [by eapply evolves_trans | done].
Qed.

Lemma safe_settle {A} (m : M A) : safe m → safe (settle m).
Proof.
  intros Hm w Hsched. unfold settle. specialize (Hm w Hsched).
  by destruct (m w) as [r w'].
Qed.

Lemma safe_try_finally {A} (body : M A) (cleanup : M unit) :
  safe body → safe cleanup → safe (try_finally body cleanup).
Proof.
  intros Hbody Hcleanup w Hsched. unfold try_finally.
  destruct (Hbody w Hsched) as [Hev Hs].
  destruct (body w) as [r w1]. simpl in *.
  destruct (Hcleanup w1 Hs) as [Hev' Hs'].
  destruct (cleanup w1) as [[[] | e] w2]; simpl in *;
    (split; [by eapply evolves_trans | done]).
Qed.

Lemma safe_allSettled {A} (ps : list (M A)) :
  Forall safe ps → safe (Promise_allSettled ps).
Proof.
  induction 1 as [ | p ps Hp Hps IH]; simpl.
  - apply safe_ret.
  - apply safe_bind; [by apply safe_settle | ]. intros r.
    apply safe_bind; [done | ]. intros rs. apply safe_ret.
Qed.

Lemma safe_all {A} (ps : list (M A)) : Forall safe ps → safe (Promise_all ps).
Proof.
  intros Hps. unfold Promise_all. apply safe_bind; [by apply safe_allSettled | ].
  intros rs. destruct (all_fulfilled rs); [apply safe_ret | apply safe_throw].
Qed.

Lemma safe_Date_now : safe Date_now.
Proof. by apply safe_untouched. Qed.

Lemma safe_randomUUID : safe randomUUID.
Proof. by apply safe_untouched. Qed.

Lemma safe_setInterval key token ttlMs every : safe (setInterval key token ttlMs every).
Proof. by apply safe_untouched. Qed.

Lemma safe_clearInterval h : safe (clearInterval h).
Proof. by apply safe_untouched. Qed.

Lemma safe_sleep ms : safe (sleep ms).
Proof.
  apply safe_after_step. intros w.
  by exists (set_shared (set_now (λ t, t + timeout_delay ms)) (emit (EvSleep ms) w)).
Qed.

Lemma safe_client_set client key token ttlMs : safe (client_set client key token ttlMs).
Proof.
  apply safe_after_step. intros w. exists w. split; [done | ]. split; [done | ].
  unfold client_set.
  destruct (nodes (shared (env_step w)) !! client) as [n | ]; simpl;
    [ destruct (up n); [ destruct (is_integer ttlMs && Qltb 0 ttlMs);
        [ destruct (node_set_px_nx _ _ _ _ n) | ] | ] | ];
    done.
Qed.

Lemma safe_client_eval client script key token ttlMs :
  safe (client_eval client script key token ttlMs).
Proof.
  apply safe_after_step. intros w. exists w. split; [done | ]. split; [done | ].
  unfold client_eval.
  destruct (nodes (shared (env_step w)) !! client) as [n | ]; simpl;
    [ destruct (up n); [ destruct script;
        [ destruct (node_eval _ _ _ _ _ n)
        | destruct (is_integer ttlMs); [ destruct (node_eval _ _ _ _ _ n) | ] ] | ] | ];
    done.
Qed.

(** A statement on its own, when what it writes lets the store
    evolve. *)
Lemma safe_prisma_await {A} (s : Stmt A) :
  (∀ t d a rows, s t d = Ok (a, rows) → evolves d (overlay rows d)) →
  safe (prisma_await s).
Proof.
  intros Hs w Hsched. rewrite run_prisma_await.
  destruct (env_step_safe w Hsched) as [Hev Hsched'].
  destruct (s _ _) as [[a rows] | e] eqn:Hrun; simpl; [ | done].
  split; [ | done]. eapply evolves_trans; [done | ]. by eapply Hs.
Qed.

Lemma safe_deleteMany where_ : safe (prisma_idempotencyRecord_deleteMany where_).
Proof.
  intros w Hsched. unfold prisma_idempotencyRecord_deleteMany.
  destruct (env_step_safe w Hsched) as [Hev Hsched']. simpl. split; [ | done].
  eapply evolves_trans; [done | ]. by apply evolves_same.
Qed.

(** *** The lock services *)

Section SafeLocks.
Variable redlock : RedlockService.t.
Variable redisLock : RedisLockService.t.

Lemma safe_releaseLockOnAllInstances key token :
  safe (RedlockService.releaseLockOnAllInstances redlock key token).
Proof.
  unfold RedlockService.releaseLockOnAllInstances.
  apply safe_bind; [ | intros; apply safe_ret].
  apply safe_allSettled. apply Forall_forall. intros p Hp.
  apply list_elem_of_In, in_map_iff in Hp as (client & <- & _).
  unfold RedlockService.releaseLockOnInstance.
  apply safe_bind; [apply safe_client_eval | intros; apply safe_ret].
Qed.

Lemma safe_acquireLock_loop bound :
  ∀ attempt key token ttlMs startTime,
    safe (RedlockService.acquireLock_loop redlock bound attempt key token ttlMs startTime).
Proof.
  induction bound as [ | bound IH]; intros attempt key token ttlMs startTime; simpl.
  - apply safe_throw.
  - destruct (Qltb _ _); [ | apply safe_throw].
    apply safe_bind.
    { apply safe_all. apply Forall_forall. intros p Hp.
      apply list_elem_of_In, in_map_iff in Hp as (client & <- & _).
      unfold RedlockService.acquireLockOnInstance.
      apply safe_bind; [apply safe_client_set | intros; apply safe_ret]. }
    intros acquired. destruct (_ <=? _).
    + apply safe_bind; [apply safe_Date_now | intros; apply safe_ret].
    + apply safe_bind; [apply safe_releaseLockOnAllInstances | intros _].
      apply safe_bind; [ | intros _; apply IH].
      destruct (js_lt _ _); [apply safe_sleep | apply safe_ret].
Qed.

Lemma safe_acquireLock key ttlMs : safe (RedlockService.acquireLock redlock key ttlMs).
Proof.
  unfold RedlockService.acquireLock.
  apply safe_bind; [apply safe_randomUUID | intros token].
  apply safe_bind; [apply safe_Date_now | intros startTime].
  apply safe_bind; [apply safe_Date_now | intros t].
  destruct (js_le _ _); [apply safe_throw | apply safe_acquireLock_loop].
Qed.

Lemma safe_withLock {A} key ttlMs (work : M A) extendIntervalMs :
  safe work → safe (RedlockService.withLock redlock key ttlMs work extendIntervalMs).
Proof.
  intros Hwork. unfold RedlockService.withLock.
  apply safe_bind; [apply safe_acquireLock | intros lockResult].
  apply safe_bind.
  { destruct extendIntervalMs as [every | ]; [ | apply safe_ret].
    destruct (_ && _); [ | apply safe_ret].
    apply safe_bind; [apply safe_setInterval | intros; apply safe_ret]. }
  intros extendTimer. apply safe_try_finally; [done | ].
  apply safe_bind; [ | intros _; apply safe_releaseLockOnAllInstances].
  destruct extendTimer; [apply safe_clearInterval | apply safe_ret].
Qed.

Lemma safe_single_withLock {A} key ttlMs (work : M A) :
  safe work → safe (RedisLockService.withLock redisLock key ttlMs work).
Proof.
  intros Hwork. unfold RedisLockService.withLock.
  apply safe_bind.
  { unfold RedisLockService.acquireLock.
    apply safe_bind; [apply safe_randomUUID | intros token].
    apply safe_bind; [apply safe_client_set | intros result].
    destruct (negb result); [apply safe_throw | apply safe_ret]. }
  intros token. apply safe_try_finally; [done | ].
  unfold RedisLockService.releaseLock.
  apply safe_bind; [apply safe_client_eval | intros; apply safe_ret].
Qed.

End SafeLocks.

(** *** The idempotency coordinator writes records only *)

Definition only_records (written : Store) : Prop :=
  seats written = ∅ ∧ bookings written = ∅.

Definition safe_tx {A} (t : Tx A) : Prop :=
  ∀ written w,
    only_records written → Forall action_evolves (sched w) →
    evolves (db (shared w)) (db (shared (t written w).2))
    ∧ Forall action_evolves (sched (t written w).2)
    ∧ ∀ a written', (t written w).1 = Ok (a, written') → only_records written'.

Lemma safe_tx_ret {A} (a : A) : safe_tx (mret a).
Proof.
  intros written w Hw Hsched. rewrite run_tx_ret. simpl.
  split; [apply evolves_refl | ]. split; [done | ]. by intros a' written' [= <- <-].
Qed.

Lemma safe_tx_throw {A} (e : Exception) : safe_tx (mthrow e : Tx A).
Proof.
  intros written w Hw Hsched. rewrite run_tx_throw. simpl.
  split; [apply evolves_refl | ]. split; [done | ]. done.
Qed.

Lemma safe_tx_bind {A B} (t : Tx A) (k : A → Tx B) :
  safe_tx t → (∀ a, safe_tx (k a)) → safe_tx (t ≫= k).
Proof.
  intros Ht Hk written w Hw Hsched. rewrite run_tx_bind.
  destruct (Ht written w Hw Hsched) as (Hev & Hs & Hrec).
  destruct (t written w) as [[[a written'] | e] w']; simpl in *; [ | done].
  destruct (Hk a written' w' (Hrec a written' eq_refl) Hs) as (Hev' & Hs' & Hrec').
  split; [by eapply evolves_trans | done].
Qed.

Lemma safe_tx_outside {A} (m : M A) : safe m → safe_tx (outside m).
Proof.
  intros Hm written w Hw Hsched. rewrite run_outside.
  destruct (Hm w Hsched) as [Hev Hs].
  destruct (m w) as [[a | e] w']; simpl in *; [ | done].
  split; [done | ]. split; [done | ]. by intros a' written' [= <- <-].
Qed.

Lemma safe_tx_await {A} (s : Stmt A) :
  (∀ t v a rows, s t v = Ok (a, rows) → only_records rows) →
  safe_tx (tx_await s).
Proof.
  intros Hs written w [Hws Hwb] Hsched. rewrite run_tx_await.
  destruct (env_step_safe w Hsched) as [Hev Hsched'].
  destruct (s _ _) as [[a rows] | e] eqn:Hrun; simpl; [ | done].
  split; [done | ]. split; [done | ].
  intros a' written' [= <- <-]. destruct (Hs _ _ _ _ Hrun) as [Hrs Hrb].
  unfold only_records, overlay. simpl. rewrite Hws, Hwb, Hrs, Hrb.
  by rewrite !(left_id_L ∅ (∪)).
Qed.

Lemma safe_transaction {A} (fn : Tx A) :
  safe_tx fn → safe (TransactionService.runInTransaction fn).
Proof.
  intros Hfn w Hsched. rewrite run_transaction.
  destruct (Hfn noRows w (conj eq_refl eq_refl) Hsched) as (Hev & Hs & Hrec).
  destruct (fn noRows w) as [[[a written] | e] w']; simpl in *; [ | done].
  split; [ | done]. eapply evolves_trans; [done | ].
  destruct (Hrec a written eq_refl) as [Hws Hwb].
  apply evolves_same; simpl; rewrite ?Hws, ?Hwb; by rewrite (left_id_L ∅ (∪)).
Qed.

Section SafeIdempotency.
Context `{Host} {T P : Type} `{Json T} `{Json P}.
Variable this : IdempotencyService.t.

Lemma safe_checkOrCreate idempotencyKey (requestPayload : P) (work : M (WorkResult T)) :
  safe work →
  safe (IdempotencyService.checkOrCreate this idempotencyKey requestPayload work).
Proof.
  intros Hwork. unfold IdempotencyService.checkOrCreate.
  case_decide; [apply safe_throw | ].
  apply safe_bind; [apply safe_Date_now | intros t0].
  apply safe_transaction.
  apply safe_tx_bind.
  { apply safe_tx_await. intros t v a rows [= <- <-]. done. }
  intros [existing | ].
  - case_decide; [apply safe_tx_throw | ].
    destruct (IdempotencyRecord.state existing).
    + apply safe_tx_bind; [apply safe_tx_outside, safe_Date_now | intros now].
      destruct (Qltb _ _); [ | apply safe_tx_throw].
      apply safe_tx_bind; [ | intros; apply safe_tx_throw].
      apply safe_tx_await. intros t v a rows. unfold idempotencyRecord.update.
      destruct (idempotencyRecords v !! idempotencyKey); [ | done].
      by intros [= <- <-].
    + destruct (IdempotencyRecord.responseData existing) as [responseData | ];
        [ | apply safe_tx_throw].
      destruct (IdempotencyRecord.statusCode existing) as [code | ];
        [ | apply safe_tx_throw].
      case_decide; [apply safe_tx_throw | ].
      destruct (JSON_parse responseData); [apply safe_tx_ret | apply safe_tx_throw].
    + apply safe_tx_throw.
  - apply safe_tx_bind.
    { apply safe_tx_await. intros t v a rows. unfold idempotencyRecord.create.
      destruct (idempotencyRecords v !! idempotencyKey); [done | ].
      by intros [= <- <-]. }
    intros _. apply safe_tx_bind; [by apply safe_tx_outside, safe_settle | intros outcome].
    apply safe_tx_bind; [apply safe_tx_outside, safe_Date_now | intros now].
    apply safe_tx_bind.
    { apply safe_tx_await. intros t v a rows. unfold idempotencyRecord.update.
      destruct (idempotencyRecords v !! idempotencyKey); [ | done].
      by intros [= <- <-]. }
    intros _. destruct outcome; [apply safe_tx_ret | apply safe_tx_throw].
Qed.

End SafeIdempotency.

(** *** Reserve and hold under interference *)

Lemma bookable_dec seat t :
  Seat.status seat = BOOKED
  ∨ (Seat.status seat = HOLD ∧ hold_expired seat t = false)
  ∨ bookable seat t.
Proof.
  destruct (decide (Seat.status seat = BOOKED)) as [Hb | Hb]; [by left | right].
  destruct (decide (Seat.status seat = HOLD ∧ hold_expired seat t = false))
    as [Hh | Hh]; [by left | right].
  split; [done | ]. intros Hhold.
  destruct (hold_expired seat t) eqn:Hexp; [done | ]. exfalso. by apply Hh.
Qed.

Lemma found_with_version (m : gmap string Seat.t) id v :
  (∃ row, m !! id = Some row ∧ Seat.version row = v)
  ∨ (∀ row, m !! id = Some row → Seat.version row ≠ v).
Proof.
  destruct (m !! id) as [row | ]; [ | by right].
  destruct (decide (Seat.version row = v)) as [Hv | Hv].
  - left. by exists row.
  - right. by intros row' [= <-].
Qed.

Lemma safe_createBooking_locked input : safe (BookingService.createBooking_locked input).
Proof.
  intros w Hsched.
  destruct (env_step_safe w Hsched) as [Hev1 Hs1]. fold (at_read w) in Hev1, Hs1.
  destruct (env_step_safe (randomUUID (at_read w)).2 Hs1) as [Hev2 Hs2].
  fold (at_insert w) in Hev2, Hs2. simpl in Hev2.
  destruct (env_step_safe (at_insert w) Hs2) as [Hev3 Hs3].
  fold (at_update w) in Hev3, Hs3.
  pose proof (evolves_trans _ _ _ Hev1 Hev2) as Hev12.
  pose proof (evolves_trans _ _ _ Hev12 Hev3) as Hev13.
  destruct (seats (db (shared (at_read w))) !! seatId input) as [seat | ] eqn:Hseat.
  2: { by rewrite reserve_not_found. }
  destruct (bookable_dec seat (now (shared (at_read w)))) as [Hb | [[Hh Hexp] | Hok]].
  { by rewrite (reserve_booked input w seat). }
  { by rewrite (reserve_on_hold input w seat). }
  destruct (decide (bookings (db (shared (at_insert w))) !! drawn_id w = None
                    ∧ filter (λ kr, Booking.idempotencyKey kr.2 = idempotencyKey input)
                             (bookings (db (shared (at_insert w)))) = ∅))
    as [[Hid Hkey] | Htaken].
  2: { rewrite (reserve_key_taken input w seat); try done.
       intros [Hid Hkey]. apply Htaken. split; [done | ]. by apply key_unused_filter. }
  apply key_unused_filter in Hkey.
  destruct (found_with_version (seats (db (shared (at_update w)))) (seatId input)
              (Seat.version seat)) as [(row & Hrow & Hv) | Hmiss].
  - destruct (seat.in_INTEGER (Seat.version row + 1)) eqn:Hrange.
    2: { by rewrite (reserve_out_of_range input w seat row). }
    rewrite (reserve_commits input w seat row); try done. simpl. split; [ | done].
    eapply evolves_trans; [exact Hev13 | ].
    assert (row = seat) as ->.
    { eapply (same_version_same_row (db (shared (at_read w)))); try done.
      apply (evolves_trans _ _ _ Hev2 Hev3). }
    apply reserved_evolves; [done | ]. by destruct Hok.
  - by rewrite (reserve_seat_changed input w seat).
Qed.

Section SafeHold.
Context `{Host}.
Variable process_env : gmap string string.

Lemma safe_holdSeat_locked seat_id :
  safe (SeatService.holdSeat_locked process_env seat_id).
Proof.
  intros w Hsched.
  destruct (env_step_safe w Hsched) as [Hev1 Hs1].
  destruct (env_step_safe (env_step w) Hs1) as [Hev2 Hs2].
  pose proof (evolves_trans _ _ _ Hev1 Hev2) as Hev12.
  destruct (seats (db (shared (env_step w))) !! seat_id) as [seat | ] eqn:Hseat.
  2: { by rewrite hold_not_found. }
  destruct (bookable_dec seat (now (shared (env_step w)))) as [Hb | [[Hh Hexp] | Hok]].
  { by rewrite (hold_booked process_env seat_id w seat). }
  { by rewrite (hold_on_hold process_env seat_id w seat). }
  destruct (found_with_version (seats (db (shared (env_step (env_step w))))) seat_id
              (Seat.version seat)) as [(row & Hrow & Hv) | Hmiss].
  - destruct (seat.in_INTEGER (Seat.version row + 1)) eqn:Hrange.
    2: { by rewrite (hold_out_of_range process_env seat_id w seat row). }
    rewrite (hold_commits process_env seat_id w seat row); try done. simpl.
    assert (row = seat) as ->.
    { eapply (same_version_same_row (db (shared (env_step w)))); try done. apply Hev2. }
    set (w2 := set_shared (set_db (held process_env seat_id w seat))
                          (env_step (env_step w))).
    assert (Forall action_evolves (sched w2)) as Hs2' by done.
    destruct (env_step_safe w2 Hs2') as [Hev3 Hs3].
    split; [ | done].
    eapply evolves_trans; [exact Hev12 | ]. eapply evolves_trans; [ | exact Hev3].
    subst w2. simpl. unfold held.
    apply (seat_written_evolves seat_id seat); [done | by destruct Hok | simpl; lia].
  - by rewrite (hold_seat_changed process_env seat_id w seat).
Qed.

End SafeHold.

Lemma safe_releaseExpiredHolds : safe SeatService.releaseExpiredHolds.
Proof.
  intros w Hsched. rewrite releaseExpiredHolds_run.
  destruct (env_step_safe w Hsched) as [Hev Hs].
  case_decide; simpl; [ | done]. split; [ | done].
  eapply evolves_trans; [exact Hev | ]. apply holds_released_evolves.
Qed.

(** The booking-expiry reaper, run on its own. *)
Lemma expireBookings_evolves w :
  sched w = [] →
  evolves (db (shared w)) (db (shared (BookingCleanupService.expireBookings w).2)).
Proof.
  intros Hquiet. rewrite (expireBookings_quiet w Hquiet).
  case_decide; simpl; [ | apply evolves_refl].
  apply bookings_expired_evolves.
Qed.

(** ** Sequences of operations *)

(** The operations on seats and bookings.  A reserve and a hold name, for
    each of their awaits in turn, the operations of other processes that
    are carried out meanwhile; the reapers are run on their own.  [seed]
    is the state of the generator of identifiers. *)
#[warnings="-register-all"]
Inductive Op : Type :=
| Reserve (input : CreateBookingInput) (seed : N) (during : list (list Op))
| HoldSeat (seat_id : string) (seed : N) (during : list (list Op))
| ReleaseExpiredHolds
| ExpireBookings
| CleanupExpired
| Elapse (ms : N).

Lemma Op_nested_ind (Q : Op → Prop) :
  (∀ input seed during, Forall (Forall Q) during → Q (Reserve input seed during)) →
  (∀ seat_id seed during, Forall (Forall Q) during → Q (HoldSeat seat_id seed during)) →
  Q ReleaseExpiredHolds → Q ExpireBookings → Q CleanupExpired →
  (∀ ms, Q (Elapse ms)) →
  ∀ o, Q o.
Proof.
  intros HR HH Hrel Hexp Hclean Hel. fix IH 1.
  intros [input seed during | seat_id seed during | | | | ms].
  - apply HR. induction during as [ | batch during IHd]; constructor; [ | exact IHd].
    induction batch as [ | o batch IHb]; constructor; [apply IH | exact IHb].
  - apply HH. induction during as [ | batch during IHd]; constructor; [ | exact IHd].
    induction batch as [ | o batch IHb]; constructor; [apply IH | exact IHb].
  - exact Hrel.
  - exact Hexp.
  - exact Hclean.
  - apply Hel.
Qed.

Definition begin (s : Shared) (seed : N) (schedule : list (Shared → Shared)) : World :=
  mkWorld s schedule [] seed [].

Section Sequences.
Context `{Host} `{Json Booking.t} `{Json BookingPayload}.
Variable process_env : gmap string string.
Variable lockService : RedlockService.t.
Variable seatLockService : RedisLockService.t.
Variable idempotencyService : IdempotencyService.t.

Fixpoint run (o : Op) (s : Shared) : Shared :=
  match o with
  | Reserve input seed during =>
      shared (BookingService.createBooking process_env lockService idempotencyService input
                (begin s seed
                   (map (λ batch s', fold_left (λ acc o', run o' acc) batch s') during))).2
  | HoldSeat seat_id seed during =>
      shared (SeatService.holdSeat process_env seatLockService seat_id
                (begin s seed
                   (map (λ batch s', fold_left (λ acc o', run o' acc) batch s') during))).2
  | ReleaseExpiredHolds => shared (SeatService.releaseExpiredHolds (begin s 0 [])).2
  | ExpireBookings => shared (BookingCleanupService.expireBookings (begin s 0 [])).2
  | CleanupExpired => shared (IdempotencyService.cleanupExpired (begin s 0 [])).2
  | Elapse ms => set_now (λ t, t + Z.of_N ms) s
  end.

Definition run_all (ops : list Op) (s : Shared) : Shared :=
  fold_left (λ acc o, run o acc) ops s.

Lemma safe_createBooking input :
  safe (BookingService.createBooking process_env lockService idempotencyService input).
Proof.
  unfold BookingService.createBooking.
  case_decide; [apply safe_throw | ]. case_decide; [apply safe_throw | ].
  apply safe_bind; [ | intros; apply safe_ret].
  apply safe_checkOrCreate, safe_withLock, safe_createBooking_locked.
Qed.

Lemma safe_holdSeat seat_id :
  safe (SeatService.holdSeat process_env seatLockService seat_id).
Proof.
  unfold SeatService.holdSeat. apply safe_single_withLock, safe_holdSeat_locked.
Qed.

Lemma fold_evolves (Q : Op → Prop) batch :
  (∀ o, Q o → action_evolves (run o)) →
  Forall Q batch →
  action_evolves (λ s, fold_left (λ acc o, run o acc) batch s).
Proof.
  intros HQ Hbatch. induction Hbatch as [ | o batch Ho Hbatch IH]; intros s; simpl.
  - apply evolves_refl.
  - eapply evolves_trans; [by apply HQ | apply IH].
Qed.

Lemma schedule_evolves during :
  Forall (Forall (λ o, action_evolves (run o))) during →
  Forall action_evolves
    (map (λ batch s', fold_left (λ acc o', run o' acc) batch s') during).
Proof.
  intros IH. apply Forall_forall. intros f Hf.
  apply list_elem_of_In, in_map_iff in Hf as (batch & <- & Hbatch).
  rewrite Forall_forall in IH. apply list_elem_of_In in Hbatch.
  by apply (fold_evolves (λ o, action_evolves (run o))); [ | apply IH].
Qed.

Lemma run_evolves o : action_evolves (run o).
Proof.
  induction o as [input seed during IH | seat_id seed during IH | | | | ms]
    using Op_nested_ind; intros s; simpl.
  - apply (safe_createBooking input (begin s seed _)). by apply schedule_evolves.
  - apply (safe_holdSeat seat_id (begin s seed _)). by apply schedule_evolves.
  - by apply (safe_releaseExpiredHolds (begin s 0 [])).
  - by apply (expireBookings_evolves (begin s 0 [])).
  - assert (safe IdempotencyService.cleanupExpired) as Hsafe.
    { unfold IdempotencyService.cleanupExpired.
      apply safe_bind; [apply safe_Date_now | intros; apply safe_deleteMany]. }
    by apply (Hsafe (begin s 0 [])).
  - by apply evolves_same.
Qed.

Lemma run_all_evolves ops : action_evolves (run_all ops).
Proof.
  apply (fold_evolves (λ _, True)); [intros o _; apply run_evolves | ].
  by apply Forall_forall.
Qed.

(** C1, as stated, for one sequence and one state. *)
Definition keeps_one_confirmed (ops : list Op) (s : Shared) : Prop :=
  one_confirmed_per_seat (db s) → one_confirmed_per_seat (db (run_all ops s)).

(** C1, amended: from a state with at most one CONFIRMED booking per seat
    in which the seat of every CONFIRMED booking is BOOKED, every
    sequence of reserves, holds and reapers, the reserves and holds
    overlapping with other such operations at each of their awaits and
    the reapers run on their own, leads to a state with at most one
    CONFIRMED booking per seat (in which, again, the seat of every
    CONFIRMED booking is BOOKED). *)
Theorem no_double_booking (ops : list Op) (s : Shared) :
  consistent (db s) →
  one_confirmed_per_seat (db (run_all ops s))
  ∧ confirmed_seat_booked (db (run_all ops s)).
Proof.
  intros Hcons. by apply (run_all_evolves ops s).
Qed.

End Sequences.

(** C1, as stated, fails: at most one CONFIRMED booking per seat does not
    say that the seat of a CONFIRMED booking is BOOKED; the reserve looks
    at the seat only, and books a seat that is AVAILABLE although a
    CONFIRMED booking names it. *)
Lemma reserve_of_oversold_seat :
  ¬ keeps_one_confirmed ∅ Demo.redlock Demo.seat_lock Demo.idempotency
      [Reserve Demo.request 0 []] Demo.oversold.
Proof.
  intros Hclaim.
  assert (one_confirmed_per_seat (db Demo.oversold)) as Hone.
  { intros i j b1 b2 Hi Hj _ _ _.
    unfold Demo.oversold in Hi, Hj. simpl in Hi, Hj.
    apply lookup_singleton_Some in Hi as [<- _].
    by apply lookup_singleton_Some in Hj as [<- _]. }
  specialize (Hclaim Hone "b0" "uuid-2"
                (Booking.mk "b0" "A" "u0" CONFIRMED "k0" None)
                (confirmed "uuid-2" Demo.request)).
  assert ("b0" = "uuid-2") as Habsurd; [ | discriminate].
  apply Hclaim; vm_compute; reflexivity.
Qed.

Lemma hall_consistent : consistent Demo.hall.
Proof.
  split.
  - intros i j b1 b2 Hi Hj _ _ _.
    unfold Demo.hall in Hi, Hj. simpl in Hi, Hj.
    apply lookup_singleton_Some in Hi as [<- _].
    by apply lookup_singleton_Some in Hj as [<- _].
  - intros i b row Hb _ Hrow.
    unfold Demo.hall in Hb. simpl in Hb.
    apply lookup_singleton_Some in Hb as [<- <-].
    vm_compute in Hrow. by injection Hrow as <-.
Qed.

(** A day in the hall: a hold on ["B"], a reserve of ["A"] during which,
    past the lifetime of its lock, a rival reserve of ["A"] is carried
    out, then the reapers. *)
Definition a_day : list Op :=
  [ HoldSeat "B" 50 [];
    Reserve Demo.request 0
      [[]; []; []; []; []; []; [Elapse 6000; Reserve Demo.rival 100 []]];
    Elapse 1000; ReleaseExpiredHolds; ExpireBookings; CleanupExpired ].

Lemma no_double_booking_witness :
  let s := mkShared Demo.hall Demo.cluster 1000 in
  consistent (db s)
  ∧ one_confirmed_per_seat
      (db (run_all ∅ Demo.redlock Demo.seat_lock Demo.idempotency a_day s))
  ∧ confirmed_seat_booked
      (db (run_all ∅ Demo.redlock Demo.seat_lock Demo.idempotency a_day s)).
Proof.
  intros s. split; [exact hall_consistent | ].
  exact (no_double_booking ∅ Demo.redlock Demo.seat_lock Demo.idempotency a_day s
           hall_consistent).
Defined.

(** What the day leaves: the rival got seat ["A"], the stalled reserve
    lost at the version guard and left nothing, the hold on ["B"] was
    renewed, and the expired booking of ["C"] freed its seat. *)
Example after_a_day :
  let s := mkShared Demo.hall Demo.cluster 1000 in
  let d := db (run_all ∅ Demo.redlock Demo.seat_lock Demo.idempotency a_day s) in
  seats d = {[ "A" := Seat.mk BOOKED 1 None;
               "B" := Seat.mk HOLD 6 (Some 121000);
               "C" := Seat.mk AVAILABLE 9 None ]}
  ∧ ((λ b, (Booking.status b, Booking.seatId b, Booking.idempotencyKey b)) <$> bookings d)
    = {[ "b1" := (EXPIRED, "C", "k9"); "uuid-102" := (CONFIRMED, "A", "k2") ]}.
Proof. vm_compute. split; reflexivity. Qed.

(** Why the booking-expiry reaper is taken on its own above:
    [expireBookings] reads the expired bookings and frees their seats in
    separate statements.  When a call stalls after its read while another
    reaper expires the same booking and a reserve books the freed seat,
    the stalled call frees the seat of the new CONFIRMED booking, and the
    next reserve books that seat a second time. *)
Example expireBookings_overlap :
  let go := run_all ∅ Demo.redlock Demo.seat_lock Demo.idempotency in
  let s := mkShared Demo.hall Demo.cluster 1000 in
  let first := mkCreateBookingInput "C" "u1" "k1" in
  let second := mkCreateBookingInput "C" "u2" "k2" in
  let stalled :=
    shared (BookingCleanupService.expireBookings
              (begin s 0 [Demo.idle; go [ExpireBookings; Reserve first 0 []]])).2 in
  let d := db (go [Reserve second 100 []] stalled) in
  consistent (db s)
  ∧ seats (db stalled) !! "C" = Some (Seat.mk AVAILABLE 11 None)
  ∧ ((λ b, (Booking.status b, Booking.seatId b)) <$> bookings (db stalled))
    = {[ "b1" := (EXPIRED, "C"); "uuid-2" := (CONFIRMED, "C") ]}
  ∧ ((λ b, (Booking.status b, Booking.seatId b)) <$> bookings d)
    = {[ "b1" := (EXPIRED, "C"); "uuid-2" := (CONFIRMED, "C");
         "uuid-102" := (CONFIRMED, "C") ]}
  ∧ ¬ one_confirmed_per_seat d.
Proof.
  intros go s first second stalled d.
  split; [exact hall_consistent | ].
  split; [vm_compute; reflexivity | ].
  split; [vm_compute; reflexivity | ].
  split; [vm_compute; reflexivity | ].
  intros Hone.
  assert ("uuid-2" = "uuid-102") as Habsurd; [ | discriminate].
  apply (Hone "uuid-2" "uuid-102" (confirmed "uuid-2" first) (confirmed "uuid-102" second));
    vm_compute; reflexivity.
Qed.

(** * Further properties *)

(** ** The single-node lock *)

(** The node after [SET key token PX ttl NX] was granted at instant [t]. *)
Definition granted_node (key token : string) (ttlMs : double) (t : Z) (n : Node) : Node :=
  mkNode (up n) (<[ key := (token, t + Qfloor ttlMs) ]> (kv n)).

Lemma client_set_answered client key token (ttlMs : double) w n :
  nodes (shared (env_step w)) !! client = Some n → up n = true →
  is_integer ttlMs = true → (0 < ttlMs)%Q →
  client_set client key token ttlMs w
  = match node_get n (now (shared (env_step w))) key with
    | Some _ =>
        (Ok false, emit (EvSetPxNx client key token ttlMs (Ok false)) (env_step w))
    | None =>
        (Ok true,
         emit (EvSetPxNx client key token ttlMs (Ok true))
           (set_shared
              (set_nodes (<[ client := granted_node key token ttlMs
                                          (now (shared (env_step w))) n ]>))
              (env_step w)))
    end.
Proof.
  intros Hn Hup Hint Hpos. unfold client_set. rewrite Hn, Hup, Hint.
  apply Qltb_true in Hpos. rewrite Hpos. simpl.
  unfold node_set_px_nx.
  destruct (node_get n (now (shared (env_step w))) key) as [v | ]; [ | done].
  f_equal. f_equal. unfold set_shared, set_nodes.
  rewrite list_insert_id by done. by destruct (env_step w) as [[d ns t] ? ? ? ?].
Qed.

Lemma client_set_unreachable client key token (ttlMs : double) w :
  (∀ n, nodes (shared (env_step w)) !! client = Some n → up n = false) →
  client_set client key token ttlMs w
  = (Err (ReplyError "Connection is closed."),
     emit (EvSetPxNx client key token ttlMs (Err (ReplyError "Connection is closed.")))
          (env_step w)).
Proof.
  intros Hdown. unfold client_set.
  destruct (nodes (shared (env_step w)) !! client) as [n | ]; [ | done].
  by rewrite (Hdown n eq_refl).
Qed.

Lemma client_delete_answered client key token w n :
  nodes (shared (env_step w)) !! client = Some n → up n = true →
  client_eval client CompareAndDelete key token 0 w
  = if decide (node_get n (now (shared (env_step w))) key = Some token) then
      (Ok 1,
       emit (EvEval client CompareAndDelete key token (Ok 1))
         (set_shared (set_nodes (<[ client := mkNode (up n) (delete key (kv n)) ]>))
                     (env_step w)))
    else
      (Ok 0, emit (EvEval client CompareAndDelete key token (Ok 0)) (env_step w)).
Proof.
  intros Hn Hup. unfold client_eval, node_eval. rewrite Hn, Hup.
  destruct (decide (node_get n (now (shared (env_step w))) key = Some token)); [done | ].
  f_equal. f_equal. unfold set_shared, set_nodes.
  rewrite list_insert_id by done. by destruct (env_step w) as [[d ns t] ? ? ? ?].
Qed.

Lemma client_eval_unreachable client script key token (ttlMs : double) w :
  (∀ n, nodes (shared (env_step w)) !! client = Some n → up n = false) →
  client_eval client script key token ttlMs w
  = (Err (ReplyError "Connection is closed."),
     emit (EvEval client script key token (Err (ReplyError "Connection is closed.")))
          (env_step w)).
Proof.
  intros Hdown. unfold client_eval.
  destruct (nodes (shared (env_step w)) !! client) as [n | ]; [ | done].
  by rewrite (Hdown n eq_refl).
Qed.

Section SingleLock.
Variable this : RedisLockService.t.

(** The world in which the command of [acquireLock] reaches the node, and
    the token that it carries. *)
Definition at_set (w : World) : World := env_step (randomUUID w).2.
Definition drawn_token (w : World) : string := "uuid-" +:+ pretty (entropy w).

Lemma single_acquireLock_run key (ttlMs : double) w n :
  nodes (shared (at_set w)) !! RedisLockService.client this = Some n → up n = true →
  is_integer ttlMs = true → (0 < ttlMs)%Q →
  RedisLockService.acquireLock this key ttlMs w
  = match node_get n (now (shared (at_set w))) key with
    | Some _ =>
        (Err (ConflictException "Lock already held"),
         emit (EvSetPxNx (RedisLockService.client this) key (drawn_token w) ttlMs (Ok false))
              (at_set w))
    | None =>
        (Ok (drawn_token w),
         emit (EvSetPxNx (RedisLockService.client this) key (drawn_token w) ttlMs (Ok true))
           (set_shared
              (set_nodes (<[ RedisLockService.client this
                             := granted_node key (drawn_token w) ttlMs
                                  (now (shared (at_set w))) n ]>))
              (at_set w)))
    end.
Proof.
  intros Hn Hup Hint Hpos. unfold RedisLockService.acquireLock.
  rewrite run_bind. unfold randomUUID at 1. fold (drawn_token w).
  rewrite run_bind.
  rewrite (client_set_answered _ _ _ _ _ n); try done.
  change (env_step _) with (at_set w).
  by destruct (node_get n (now (shared (at_set w))) key).
Qed.

Lemma single_releaseLock_run key token w n :
  nodes (shared (env_step w)) !! RedisLockService.client this = Some n → up n = true →
  RedisLockService.releaseLock this key token w
  = if decide (node_get n (now (shared (env_step w))) key = Some token) then
      (Ok tt,
       emit (EvEval (RedisLockService.client this) CompareAndDelete key token (Ok 1))
         (set_shared
            (set_nodes (<[ RedisLockService.client this
                           := mkNode (up n) (delete key (kv n)) ]>))
            (env_step w)))
    else
      (Ok tt,
       emit (EvEval (RedisLockService.client this) CompareAndDelete key token (Ok 0))
            (env_step w)).
Proof.
  intros Hn Hup. unfold RedisLockService.releaseLock.
  rewrite run_bind, (client_delete_answered _ _ _ _ n) by done.
  by case_decide.
Qed.

Lemma single_releaseLock_unreachable key token w :
  (∀ n, nodes (shared (env_step w)) !! RedisLockService.client this = Some n → up n = false) →
  RedisLockService.releaseLock this key token w
  = (Err (ReplyError "Connection is closed."),
     emit (EvEval (RedisLockService.client this) CompareAndDelete key token
             (Err (ReplyError "Connection is closed.")))
          (env_step w)).
Proof.
  intros Hdown. unfold RedisLockService.releaseLock.
  by rewrite run_bind, client_eval_unreachable.
Qed.

(** The single-node lock grants a key exactly when the node holds no live
    value for it: the fresh token is then stored to expire [ttlMs] later;
    otherwise the call fails with the Conflict "Lock already held" and
    leaves the node, the store and the clock as they were.  (The node is
    reachable and [ttlMs] is a positive integer.) *)
Theorem single_lock_acquire key (ttlMs : double) w n :
  nodes (shared (at_set w)) !! RedisLockService.client this = Some n → up n = true →
  is_integer ttlMs = true → (0 < ttlMs)%Q →
  let after := (RedisLockService.acquireLock this key ttlMs w).2 in
  match node_get n (now (shared (at_set w))) key with
  | Some _ =>
      (RedisLockService.acquireLock this key ttlMs w).1
        = Err (ConflictException "Lock already held")
      ∧ shared after = shared (at_set w)
  | None =>
      (RedisLockService.acquireLock this key ttlMs w).1 = Ok (drawn_token w)
      ∧ nodes (shared after)
        = <[ RedisLockService.client this
             := granted_node key (drawn_token w) ttlMs (now (shared (at_set w))) n ]>
            (nodes (shared (at_set w)))
      ∧ db (shared after) = db (shared (at_set w))
      ∧ now (shared after) = now (shared (at_set w))
  end.
Proof.
  intros Hn Hup Hint Hpos after. subst after.
  rewrite (single_acquireLock_run key ttlMs w n) by done.
  by destruct (node_get n (now (shared (at_set w))) key).
Qed.

Lemma node_get_granted key token (ttlMs : double) t n t' k :
  node_get (granted_node key token ttlMs t n) t' k
  = if decide (k = key) then
      if t' <? t + Qfloor ttlMs then Some token else None
    else node_get n t' k.
Proof.
  unfold node_get, granted_node. simpl. case_decide as Hk.
  - subst k. by rewrite lookup_insert_eq.
  - by rewrite lookup_insert_ne.
Qed.

(** A key granted by the single-node lock is refused to every later
    caller until [ttlMs] has passed, and granted again from then on, as
    long as nothing else is sent to the node: the lock excludes for its
    time to live, and no longer. *)
Theorem single_lock_excludes key (ttlMs : double) (ttlMs' : double) w w2 n :
  nodes (shared (at_set w)) !! RedisLockService.client this = Some n → up n = true →
  node_get n (now (shared (at_set w))) key = None →
  is_integer ttlMs = true → (0 < ttlMs)%Q →
  is_integer ttlMs' = true → (0 < ttlMs')%Q →
  nodes (shared (at_set w2)) = nodes (shared (RedisLockService.acquireLock this key ttlMs w).2) →
  (now (shared (at_set w2)) < now (shared (at_set w)) + Qfloor ttlMs →
   (RedisLockService.acquireLock this key ttlMs' w2).1
     = Err (ConflictException "Lock already held"))
  ∧ (now (shared (at_set w)) + Qfloor ttlMs ≤ now (shared (at_set w2)) →
     (RedisLockService.acquireLock this key ttlMs' w2).1 = Ok (drawn_token w2)).
Proof.
  intros Hn Hup Hfree Hint Hpos Hint' Hpos' Hnodes.
  rewrite (single_acquireLock_run key ttlMs w n) in Hnodes by done.
  rewrite Hfree in Hnodes. simpl in Hnodes.
  assert (nodes (shared (at_set w2)) !! RedisLockService.client this
          = Some (granted_node key (drawn_token w) ttlMs (now (shared (at_set w))) n)) as Hn2.
  { rewrite Hnodes. apply list_lookup_insert_eq. by eapply lookup_lt_Some. }
  rewrite (single_acquireLock_run key ttlMs' w2 _ Hn2) by done.
  rewrite node_get_granted, decide_True by done.
  split; intros Ht.
  - apply Z.ltb_lt in Ht. by rewrite Ht.
  - apply Z.ltb_ge in Ht. by rewrite Ht.
Qed.

(** [releaseLock] of the single-node lock deletes the key only when the
    node holds it under the token given: the key is then free; under any
    other token, or when the key is free or expired, nothing changes.
    Other keys are never touched, and nor are the store and the clock. *)
Theorem single_lock_release key token w n :
  nodes (shared (env_step w)) !! RedisLockService.client this = Some n → up n = true →
  let t := now (shared (env_step w)) in
  let after := (RedisLockService.releaseLock this key token w).2 in
  (RedisLockService.releaseLock this key token w).1 = Ok tt
  ∧ (∃ n', nodes (shared after) !! RedisLockService.client this = Some n'
           ∧ node_get n' t key
             = (if decide (node_get n t key = Some token) then None else node_get n t key)
           ∧ ∀ k, k ≠ key → node_get n' t k = node_get n t k)
  ∧ (node_get n t key ≠ Some token → shared after = shared (env_step w))
  ∧ db (shared after) = db (shared (env_step w))
  ∧ now (shared after) = now (shared (env_step w)).
Proof.
  intros Hn Hup t after. subst after.
  rewrite (single_releaseLock_run key token w n) by done. fold t.
  destruct (decide (node_get n t key = Some token)) as [Hheld | Hother]; simpl.
  - split; [done | ]. split; [ | done].
    eexists. split; [apply list_lookup_insert_eq; by eapply lookup_lt_Some | ].
    unfold node_get. simpl. rewrite lookup_delete_eq. split; [done | ].
    intros k Hk. by rewrite lookup_delete_ne.
  - split; [done | ]. split; [ | done].
    exists n. split; [done | ]. done.
Qed.

(** [withLock] of the single-node lock on a key that the node holds:
    the call fails with the Conflict "Lock already held", and [work] is
    not run, whatever it is. *)
Theorem single_withLock_busy {A} key (ttlMs : double) (work : M A) w n value :
  nodes (shared (at_set w)) !! RedisLockService.client this = Some n → up n = true →
  is_integer ttlMs = true → (0 < ttlMs)%Q →
  node_get n (now (shared (at_set w))) key = Some value →
  RedisLockService.withLock this key ttlMs work w
  = (Err (ConflictException "Lock already held"),
     emit (EvSetPxNx (RedisLockService.client this) key (drawn_token w) ttlMs (Ok false))
          (at_set w)).
Proof.
  intros Hn Hup Hint Hpos Hheld. unfold RedisLockService.withLock.
  rewrite run_bind, (single_acquireLock_run key ttlMs w n) by done.
  by rewrite Hheld.
Qed.

(** Once [withLock] of the single-node lock holds the key, it ends with
    the outcome of [work] when the node answers the release, and the key
    is then no longer held under the token; when the node cannot be
    reached for the release, the call fails with the error of the node,
    whatever [work] returned: the release is awaited in the [finally]
    block and its failure is not caught. *)
Theorem single_withLock_outcome {A} key (ttlMs : double) (work : M A) w w1 w3 token outcome :
  RedisLockService.acquireLock this key ttlMs w = (Ok token, w1) →
  work w1 = (outcome, w3) →
  (∀ n, nodes (shared (env_step w3)) !! RedisLockService.client this = Some n →
        up n = true →
        (RedisLockService.withLock this key ttlMs work w).1 = outcome
        ∧ not_held_on key token (RedisLockService.client this)
            (shared (RedisLockService.withLock this key ttlMs work w).2))
  ∧ ((∀ n, nodes (shared (env_step w3)) !! RedisLockService.client this = Some n →
           up n = false) →
     (RedisLockService.withLock this key ttlMs work w).1
       = Err (ReplyError "Connection is closed.")
     ∧ db (shared (RedisLockService.withLock this key ttlMs work w).2)
       = db (shared (env_step w3))).
Proof.
  intros Hacq Hwork. unfold RedisLockService.withLock.
  rewrite run_bind, Hacq. unfold try_finally. rewrite Hwork. split.
  - intros n Hn Hup. rewrite (single_releaseLock_run key token w3 n) by done.
    case_decide as Hheld; simpl.
    + split; [done | ]. intros m Hm _. simpl in Hm.
      rewrite list_lookup_insert_eq in Hm by (by eapply lookup_lt_Some).
      injection Hm as <-. unfold node_get. simpl. by rewrite lookup_delete_eq.
    + split; [done | ]. intros m Hm _. simpl in Hm.
      rewrite Hn in Hm. by injection Hm as <-.
  - intros Hdown. by rewrite single_releaseLock_unreachable.
Qed.

End SingleLock.

(** ** Rounds of commands to the nodes *)

(** The failure of a command to a node that cannot be reached. *)
Definition closed : Exception := ReplyError "Connection is closed.".

(** A command as the node sees it: from the node and the instant, the
    reply and the node afterwards. *)
Definition NodeCommand (X : Type) : Type := Node → Z → Result X * Node.

Definition set_command (key token : string) (ttlMs : double) : NodeCommand bool :=
  λ n t,
    if is_integer ttlMs && Qltb 0 ttlMs then
      (Ok (node_set_px_nx key token (Qfloor ttlMs) t n).1,
       (node_set_px_nx key token (Qfloor ttlMs) t n).2)
    else (Err (ReplyError "ERR invalid expire time in 'set' command"), n).

Definition eval_command (script : LuaScript) (key token : string) (ttlMs : double)
  : NodeCommand Z :=
  λ n t,
    match script with
    | CompareAndPexpire =>
        if is_integer ttlMs then
          (Ok (node_eval script key token (Qfloor ttlMs) t n).1,
           (node_eval script key token (Qfloor ttlMs) t n).2)
        else (Err (ReplyError "ERR value is not an integer or out of range"), n)
    | CompareAndDelete =>
        (Ok (node_eval script key token 0 t n).1, (node_eval script key token 0 t n).2)
    end.

(** A command sent through a client, with the event that records it. *)
Definition send {X} (client : nat) (cmd : NodeCommand X) (ev : Result X → Event) : M X :=
  λ w0,
    let w := env_step w0 in
    match nodes (shared w) !! client with
    | Some n =>
        if up n then
          ((cmd n (now (shared w))).1,
           emit (ev (cmd n (now (shared w))).1)
                (set_shared (set_nodes (<[ client := (cmd n (now (shared w))).2 ]>)) w))
        else (Err closed, emit (ev (Err closed)) w)
    | None => (Err closed, emit (ev (Err closed)) w)
    end.

Lemma set_nodes_same client n w :
  nodes (shared w) !! client = Some n →
  set_shared (set_nodes (<[ client := n ]>)) w = w.
Proof.
  intros Hn. unfold set_shared, set_nodes. rewrite list_insert_id by done.
  by destruct w as [[d ns t] ? ? ? ?].
Qed.

Lemma client_set_send client key token (ttlMs : double) w :
  client_set client key token ttlMs w
  = send client (set_command key token ttlMs) (EvSetPxNx client key token ttlMs) w.
Proof.
  unfold client_set, send, set_command.
  destruct (nodes (shared (env_step w)) !! client) as [n | ] eqn:Hn; [ | done].
  destruct (up n); [ | done].
  destruct (is_integer ttlMs && Qltb 0 ttlMs).
  - by destruct (node_set_px_nx _ _ _ _ n).
  - simpl. by rewrite set_nodes_same.
Qed.

Lemma client_eval_send client script key token (ttlMs : double) w :
  client_eval client script key token ttlMs w
  = send client (eval_command script key token ttlMs) (EvEval client script key token) w.
Proof.
  unfold client_eval, send, eval_command.
  destruct (nodes (shared (env_step w)) !! client) as [n | ] eqn:Hn; [ | done].
  destruct (up n); [ | done].
  destruct script.
  - by destruct (node_eval _ _ _ _ _ n).
  - destruct (is_integer ttlMs).
    + by destruct (node_eval _ _ _ _ _ n).
    + simpl. by rewrite set_nodes_same.
Qed.

Lemma allSettled_ext {I A} (p q : I → M A) (l : list I) :
  (∀ i w, p i w = q i w) →
  ∀ w, Promise_allSettled (map p l) w = Promise_allSettled (map q l) w.
Proof.
  intros Hpq. induction l as [ | i l IH]; intros w; [done | ].
  simpl. rewrite !run_bind. unfold settle. rewrite Hpq.
  destruct (q i w) as [r w1]. rewrite !run_bind, IH. done.
Qed.

Definition Result_map {A B} (f : A → B) (r : Result A) : Result B :=
  match r with Ok a => Ok (f a) | Err e => Err e end.

Lemma allSettled_post {I A B} (p : I → M A) (post : A → B) (l : list I) :
  ∀ w, Promise_allSettled (map (λ i, r ← p i; mret (post r)) l) w
       = match Promise_allSettled (map p l) w with
         | (Ok rs, w') => (Ok (map (Result_map post) rs), w')
         | (Err e, w') => (Err e, w')
         end.
Proof.
  induction l as [ | i l IH]; intros w; [done | ].
  simpl. rewrite !run_bind. unfold settle. rewrite run_bind.
  destruct (p i w) as [[a | e] w1]; simpl; rewrite !run_bind, IH;
    by destruct (Promise_allSettled (map p l) w1) as [[rs | e'] w2].
Qed.

Section Round.
Context {X : Type}.
Variable cmd : NodeCommand X.
Variable ev : nat → Result X → Event.

(** The reply to the command from the node of a client, in a state. *)
Definition reply_at (s : Shared) (client : nat) : Result X :=
  match nodes s !! client with
  | Some n => if up n then (cmd n (now s)).1 else Err closed
  | None => Err closed
  end.

(** In a quiet environment, a round over distinct clients: each node
    that can be reached answers from its state at the start, and is the
    only thing to change. *)
Lemma round_quiet clients :
  ∀ w, sched w = [] → NoDup clients →
    ∃ w',
      Promise_allSettled (map (λ client, send client cmd (ev client)) clients) w
      = (Ok (map (reply_at (shared w)) clients), w')
      ∧ sched w' = [] ∧ db (shared w') = db (shared w) ∧ now (shared w') = now (shared w)
      ∧ entropy w' = entropy w ∧ intervals w' = intervals w
      ∧ (∀ c, nodes (shared w') !! c
              = (λ n, if bool_decide (c ∈ clients) && up n
                      then (cmd n (now (shared w))).2 else n) <$> nodes (shared w) !! c)
      ∧ log w' = log w ++ map (λ client, ev client (reply_at (shared w) client)) clients.
Proof.
  induction clients as [ | client clients IH]; intros w Hquiet Hdup.
  - exists w. simpl. rewrite app_nil_r. repeat split; try done.
    intros c. by destruct (nodes (shared w) !! c) as [n | ].
  - apply NoDup_cons in Hdup as [Hfresh Hdup].
    simpl. rewrite run_bind. unfold settle.
    destruct (send client cmd (ev client) w) as [r w1] eqn:Hsend.
    assert (r = reply_at (shared w) client
            ∧ sched w1 = [] ∧ db (shared w1) = db (shared w)
            ∧ now (shared w1) = now (shared w)
            ∧ entropy w1 = entropy w ∧ intervals w1 = intervals w
            ∧ (∀ c, nodes (shared w1) !! c
                    = (λ n, if bool_decide (c = client) && up n
                            then (cmd n (now (shared w))).2 else n) <$> nodes (shared w) !! c)
            ∧ log w1 = log w ++ [ev client (reply_at (shared w) client)])
      as (-> & Hq1 & Hdb1 & Hnow1 & Hent1 & Hint1 & Hnodes1 & Hlog1).
    { unfold send in Hsend. rewrite (env_step_quiet w Hquiet) in Hsend.
      unfold reply_at.
      destruct (nodes (shared w) !! client) as [n | ] eqn:Hn.
      - destruct (up n) eqn:Hup; injection Hsend as <- <-; simpl; repeat split; try done.
        + intros c. destruct (decide (c = client)) as [-> | Hne].
          * rewrite list_lookup_insert_eq by (by eapply lookup_lt_Some).
            rewrite Hn. simpl. by rewrite bool_decide_eq_true_2, Hup.
          * rewrite list_lookup_insert_ne by done.
            destruct (nodes (shared w) !! c) as [m | ]; [ | done]. simpl.
            by rewrite bool_decide_eq_false_2.
        + intros c. destruct (nodes (shared w) !! c) as [m | ] eqn:Hm; [ | done]. simpl.
          case_bool_decide as Hc; [ | done]. subst c.
          rewrite Hn in Hm. injection Hm as <-. by rewrite Hup.
      - injection Hsend as <- <-. simpl. repeat split; try done.
        intros c. destruct (nodes (shared w) !! c) as [m | ] eqn:Hm; [ | done]. simpl.
        case_bool_decide as Hc; [ | done]. subst c. congruence. }
    destruct (IH w1 Hq1 Hdup)
      as (w' & Hrun & Hq & Hdb & Hnow & Hent & Hint & Hnodes & Hlog).
    assert (∀ c, c ∈ clients → reply_at (shared w1) c = reply_at (shared w) c) as Hsame.
    { intros c Hc. unfold reply_at. rewrite Hnodes1, Hnow1.
      destruct (nodes (shared w) !! c) as [m | ]; [ | done]. simpl.
      rewrite bool_decide_eq_false_2; [done | ]. intros ->. done. }
    rewrite run_bind, Hrun, run_ret.
    exists w'. split.
    { do 3 f_equal. apply map_ext_in. intros c Hc. apply Hsame. by apply list_elem_of_In. }
    repeat split; try congruence.
    + intros c. rewrite Hnodes, Hnodes1, Hnow1.
      destruct (nodes (shared w) !! c) as [m | ]; [ | done]. simpl. f_equal.
      destruct (decide (c = client)) as [-> | Hne].
      * rewrite (bool_decide_eq_false_2 (client ∈ clients)) by done.
        rewrite !bool_decide_eq_true_2; [done | by left | done].
      * rewrite (bool_decide_eq_false_2 (c = client)) by done. simpl.
        destruct (decide (c ∈ clients)) as [Hin | Hout].
        -- rewrite !bool_decide_eq_true_2; [done | by right | done].
        -- rewrite !bool_decide_eq_false_2; [done | | done].
           intros Hin. apply elem_of_cons in Hin as [-> | Hin]; done.
    + rewrite Hlog, Hlog1, <- app_assoc. simpl. do 2 f_equal.
      apply map_ext_in. intros c Hc. f_equal. apply Hsame. by apply list_elem_of_In.
Qed.

End Round.

(** ** The lock manager, round by round *)

Lemma zip_with_map_r {A B C} (f : A → B → C) (g : A → B) (l : list A) :
  zip_with f l (map g l) = map (λ a, f a (g a)) l.
Proof. induction l as [ | a l IH]; [done | ]. simpl. by rewrite IH. Qed.

Lemma length_filter_map {A B} (f : A → B) (P : B → Prop) `{∀ b, Decision (P b)}
  (l : list A) :
  length (filter P (map f l)) = length (filter (λ a, P (f a)) l).
Proof.
  induction l as [ | a l IH]; [done | ]. simpl. rewrite !filter_cons.
  destruct (decide (P (f a))); simpl; by rewrite IH.
Qed.

(** The node of the client can be reached. *)
Definition reachable_on (s : Shared) (client : nat) : bool :=
  match nodes s !! client with
  | Some n => up n
  | None => false
  end.

(** The node of the client can be reached and holds no live value for
    the key. *)
Definition free_on (key : string) (s : Shared) (client : nat) : bool :=
  match nodes s !! client with
  | Some n => up n && bool_decide (node_get n (now s) key = None)
  | None => false
  end.

(** The node of the client can be reached and holds the key under the
    token. *)
Definition held_on (key token : string) (s : Shared) (client : nat) : bool :=
  match nodes s !! client with
  | Some n => up n && bool_decide (node_get n (now s) key = Some token)
  | None => false
  end.

Definition count_of (P : nat → bool) (clients : list nat) : Z :=
  Z.of_nat (length (filter (λ client, P client = true) clients)).

Lemma set_reply_cases key token (ttlMs : double) s client :
  is_integer ttlMs = true → (0 < ttlMs)%Q →
  reply_at (set_command key token ttlMs) s client
  = if reachable_on s client then Ok (free_on key s client) else Err closed.
Proof.
  intros Hint Hpos. unfold reply_at, reachable_on, free_on, set_command.
  apply Qltb_true in Hpos. rewrite Hint, Hpos. simpl.
  destruct (nodes s !! client) as [n | ]; [ | done].
  destruct (up n); [ | done]. simpl. unfold node_set_px_nx.
  by destruct (node_get n (now s) key).
Qed.

Lemma set_node_cases key token (ttlMs : double) t n :
  is_integer ttlMs = true → (0 < ttlMs)%Q →
  (set_command key token ttlMs n t).2
  = if bool_decide (node_get n t key = None) then granted_node key token ttlMs t n else n.
Proof.
  intros Hint Hpos. unfold set_command.
  apply Qltb_true in Hpos. rewrite Hint, Hpos. simpl. unfold node_set_px_nx.
  by destruct (node_get n t key).
Qed.

Lemma delete_reply_cases key token s client :
  reply_at (eval_command CompareAndDelete key token 0) s client
  = if reachable_on s client then Ok (if held_on key token s client then 1 else 0)
    else Err closed.
Proof.
  unfold reply_at, reachable_on, held_on, eval_command, node_eval.
  destruct (nodes s !! client) as [n | ]; [ | done].
  destruct (up n); [ | done]. simpl.
  by destruct (decide (node_get n (now s) key = Some token));
    [rewrite bool_decide_eq_true_2 | rewrite bool_decide_eq_false_2].
Qed.

Lemma delete_node_cases key token t n :
  (node_eval CompareAndDelete key token 0 t n).2
  = if bool_decide (node_get n t key = Some token)
    then mkNode (up n) (delete key (kv n)) else n.
Proof.
  unfold node_eval.
  by destruct (decide (node_get n t key = Some token));
    [rewrite bool_decide_eq_true_2 | rewrite bool_decide_eq_false_2].
Qed.

Lemma all_fulfilled_reachable {A} (f : nat → A) s clients :
  (∀ client, client ∈ clients → reachable_on s client = true) →
  all_fulfilled (map (λ client, if reachable_on s client then Ok (f client) else Err closed)
                     clients)
  = Ok (map f clients).
Proof.
  induction clients as [ | client clients IH]; intros Hall; [done | ].
  simpl. rewrite (Hall client) by by left.
  rewrite IH; [done | ]. intros c Hc. apply Hall. by right.
Qed.

Lemma all_fulfilled_unreachable {A} (f : nat → A) s clients client :
  client ∈ clients → reachable_on s client = false →
  all_fulfilled (map (λ client, if reachable_on s client then Ok (f client) else Err closed)
                     clients)
  = Err closed.
Proof.
  induction clients as [ | c clients IH]; intros Hin Hdown.
  - by apply elem_of_nil in Hin.
  - simpl. destruct (reachable_on s c) eqn:Hc; [ | done].
    apply elem_of_cons in Hin as [-> | Hin]; [congruence | ].
    by rewrite IH.
Qed.

Section RedlockRounds.
Variable this : RedlockService.t.

(** What a client's node is after a round of [SET]. *)
Definition set_node (key token : string) (ttlMs : double) (s : Shared) (c : nat) (n : Node)
  : Node :=
  if bool_decide (c ∈ RedlockService.clients this) && free_on key s c
  then granted_node key token ttlMs (now s) n else n.

(** What it is after a round of compare-and-delete. *)
Definition deleted_node (key token : string) (s : Shared) (c : nat) (n : Node) : Node :=
  if bool_decide (c ∈ RedlockService.clients this) && held_on key token s c
  then mkNode (up n) (delete key (kv n)) else n.

Lemma acquire_round_quiet key token (ttlMs : double) w :
  sched w = [] → NoDup (RedlockService.clients this) →
  is_integer ttlMs = true → (0 < ttlMs)%Q →
  ∃ w',
    Promise_allSettled
      (map (λ client, RedlockService.acquireLockOnInstance client key token ttlMs)
           (RedlockService.clients this)) w
    = (Ok (map (λ client, if reachable_on (shared w) client
                          then Ok (free_on key (shared w) client) else Err closed)
               (RedlockService.clients this)), w')
    ∧ sched w' = [] ∧ db (shared w') = db (shared w) ∧ now (shared w') = now (shared w)
    ∧ entropy w' = entropy w ∧ intervals w' = intervals w
    ∧ (∀ c, nodes (shared w') !! c = set_node key token ttlMs (shared w) c <$> nodes (shared w) !! c)
    ∧ log w'
      = log w ++ set_round key token ttlMs (RedlockService.clients this)
                   (map (λ client, if reachable_on (shared w) client
                                   then Ok (free_on key (shared w) client) else Err closed)
                        (RedlockService.clients this)).
Proof.
  intros Hquiet Hdup Hint Hpos.
  destruct (round_quiet (set_command key token ttlMs)
              (λ client, EvSetPxNx client key token ttlMs)
              (RedlockService.clients this) w Hquiet Hdup)
    as (w' & Hrun & Hq & Hdb & Hnow & Hent & Hints & Hnodes & Hlog).
  exists w'. split.
  { rewrite (allSettled_ext _
               (λ client, send client (set_command key token ttlMs)
                               (EvSetPxNx client key token ttlMs))).
    - rewrite Hrun. do 2 f_equal. apply map_ext. intros c.
      by apply set_reply_cases.
    - intros c w0. rewrite acquireLockOnInstance_run. apply client_set_send. }
  repeat split; try done.
  - intros c. rewrite Hnodes.
    destruct (nodes (shared w) !! c) as [n | ] eqn:Hn; [ | done]. simpl. f_equal.
    unfold set_node, free_on. rewrite Hn.
    destruct (bool_decide (c ∈ RedlockService.clients this)); [ | done].
    destruct (up n); [ | done]. simpl. by apply set_node_cases.
  - rewrite Hlog. f_equal. unfold set_round. rewrite zip_with_map_r.
    apply map_ext. intros c. f_equal. by apply set_reply_cases.
Qed.

Lemma release_round_quiet key token w :
  sched w = [] → NoDup (RedlockService.clients this) →
  ∃ w',
    RedlockService.releaseLockOnAllInstances this key token w = (Ok tt, w')
    ∧ sched w' = [] ∧ db (shared w') = db (shared w) ∧ now (shared w') = now (shared w)
    ∧ entropy w' = entropy w ∧ intervals w' = intervals w
    ∧ (∀ c, nodes (shared w') !! c = deleted_node key token (shared w) c <$> nodes (shared w) !! c)
    ∧ log w'
      = log w ++ del_round key token (RedlockService.clients this)
                   (map (λ client, if reachable_on (shared w) client
                                   then Ok (if held_on key token (shared w) client
                                            then 1 else 0)
                                   else Err closed)
                        (RedlockService.clients this)).
Proof.
  intros Hquiet Hdup.
  destruct (round_quiet (eval_command CompareAndDelete key token 0)
              (λ client, EvEval client CompareAndDelete key token)
              (RedlockService.clients this) w Hquiet Hdup)
    as (w' & Hrun & Hq & Hdb & Hnow & Hent & Hints & Hnodes & Hlog).
  exists w'. split.
  { unfold RedlockService.releaseLockOnAllInstances. rewrite run_bind.
    unfold RedlockService.releaseLockOnInstance.
    rewrite (allSettled_post
               (λ client, client_eval client CompareAndDelete key token 0) (λ r, r =? 1)).
    rewrite (allSettled_ext _
               (λ client, send client (eval_command CompareAndDelete key token 0)
                               (EvEval client CompareAndDelete key token))).
    - by rewrite Hrun.
    - intros c w0. apply client_eval_send. }
  repeat split; try done.
  - intros c. rewrite Hnodes.
    destruct (nodes (shared w) !! c) as [n | ] eqn:Hn; [ | done]. simpl. f_equal.
    unfold deleted_node, held_on. rewrite Hn.
    destruct (bool_decide (c ∈ RedlockService.clients this)); [ | done].
    destruct (up n) eqn:Hup; [ | done]. cbn [andb]. rewrite delete_node_cases. by rewrite Hup.
  - rewrite Hlog. f_equal. unfold del_round. rewrite zip_with_map_r.
    apply map_ext. intros c. f_equal. apply delete_reply_cases.
Qed.

End RedlockRounds.

Lemma Qfloor_positive_integer q : is_integer q = true → (0 < q)%Q → 0 < Qfloor q.
Proof.
  intros Hint Hpos. destruct q as [a b]. unfold is_integer in Hint. simpl in *.
  apply Z.eqb_eq in Hint. unfold Qlt in Hpos. simpl in Hpos.
  assert (0 < a) by lia.
  apply Z.div_str_pos. split; [lia | ].
  destruct (Z.le_gt_cases (Z.pos b) a) as [Hle | Hgt]; [done | ].
  rewrite Z.mod_small in Hint by lia. lia.
Qed.

Lemma ceiling_positive q : (0 < q)%Q → ∃ bound, Z.to_nat (Qceiling q) = S bound.
Proof.
  intros Hpos.
  assert (0 < Qceiling q).
  { apply Z.lt_nge. intros Hle.
    assert (q <= 0)%Q; [ | lra].
    eapply Qle_trans; [apply Qle_ceiling | ].
    change 0%Q with (inject_Z 0). by rewrite <- Zle_Qle. }
  exists (Z.to_nat (Qceiling q - 1)). lia.
Qed.

Lemma count_of_map_granted (f : nat → bool) s clients :
  (∀ client, client ∈ clients → reachable_on s client = true) →
  successes (map (λ client, if reachable_on s client then Ok (f client) else Err closed)
                 clients)
  = count_of f clients.
Proof.
  intros Hall. unfold successes, count_of. f_equal. rewrite length_filter_map.
  induction clients as [ | c clients IH]; [done | ].
  rewrite !filter_cons. rewrite (Hall c) by by left.
  specialize (IH (λ c' Hc', Hall c' (list_elem_of_further _ _ _ Hc'))).
  destruct (f c); cbn [granted]; repeat case_decide; try done; cbn [length]; congruence.
Qed.

Section RedlockAcquire.
Variable this : RedlockService.t.

(** The first round of [acquireLock], on the world after the token was
    drawn. *)
Lemma acquireLock_first_round key (ttlMs : double) w :
  js_le (js_sub (js_sub ttlMs (js_floor (js_mul ttlMs (RedlockService.driftFactor this))))
                (of_Z 0)) 0 = false →
  (0 < RedlockService.retryCount this)%Q →
  ∃ bound,
    RedlockService.acquireLock this key ttlMs w
    = RedlockService.acquireLock_loop this (S bound) 0 key (drawn_token w) ttlMs
        (now (shared w)) (randomUUID w).2.
Proof.
  intros Httl Hretry.
  destruct (ceiling_positive _ Hretry) as [bound Hbound]. exists bound.
  unfold RedlockService.acquireLock. rewrite Hbound.
  rewrite run_bind. unfold randomUUID at 1. fold (drawn_token w).
  rewrite run_bind. unfold Date_now at 1. cbn [shared].
  rewrite run_bind. unfold Date_now at 1. cbn [shared].
  rewrite Z.sub_diag, Httl.
  done.
Qed.

Lemma acquire_granted_run key (ttlMs : double) w :
  sched w = [] → NoDup (RedlockService.clients this) →
  (∀ c, c ∈ RedlockService.clients this → reachable_on (shared w) c = true) →
  is_integer ttlMs = true → (0 < ttlMs)%Q →
  js_le (js_sub (js_sub ttlMs (js_floor (js_mul ttlMs (RedlockService.driftFactor this))))
                (of_Z 0)) 0 = false →
  (0 < RedlockService.retryCount this)%Q →
  RedlockService.quorum this
    ≤ count_of (free_on key (shared w)) (RedlockService.clients this) →
  ∃ lockResult w',
    RedlockService.acquireLock this key ttlMs w = (Ok lockResult, w')
    ∧ token lockResult = drawn_token w
    ∧ validityTime lockResult
      = Math_max (js_sub (js_sub ttlMs (of_Z 0))
                         (js_floor (js_mul ttlMs (RedlockService.driftFactor this)))) 0
    ∧ sched w' = [] ∧ db (shared w') = db (shared w) ∧ now (shared w') = now (shared w)
    ∧ entropy w' = N.succ (entropy w) ∧ intervals w' = intervals w
    ∧ (∀ c, nodes (shared w') !! c
            = set_node this key (drawn_token w) ttlMs (shared w) c <$> nodes (shared w) !! c)
    ∧ log w'
      = log w ++ set_round key (drawn_token w) ttlMs (RedlockService.clients this)
                   (map (λ c, Ok (free_on key (shared w) c)) (RedlockService.clients this)).
Proof.
  intros Hquiet Hdup Hreach Hint Hpos Httl Hretry Hquorum.
  destruct (acquireLock_first_round key ttlMs w Httl Hretry) as [bound ->].
  cbn [RedlockService.acquireLock_loop].
  assert (Qltb (inject_Z 0) (RedlockService.retryCount this) = true) as ->
    by by apply Qltb_true.
  destruct (acquire_round_quiet this key (drawn_token w) ttlMs (randomUUID w).2
              Hquiet Hdup Hint Hpos)
    as (w' & Hrun & Hq & Hdb & Hnow & Hent & Hints & Hnodes & Hlog).
  cbn [randomUUID shared snd] in *.
  rewrite run_bind. unfold Promise_all. rewrite run_bind, Hrun.
  rewrite (all_fulfilled_reachable _ _ _ Hreach), run_ret.
  rewrite length_filter_map.
  fold (count_of (free_on key (shared w)) (RedlockService.clients this)).
  apply Z.leb_le in Hquorum. rewrite Hquorum.
  rewrite run_bind. unfold Date_now at 1. rewrite run_ret.
  eexists _, w'. split; [reflexivity | ]. cbn [token validityTime].
  split; [done | ]. split.
  { by rewrite Hnow, Z.sub_diag. }
  repeat split; try done.
  rewrite Hlog. do 2 f_equal. apply map_ext_in. intros c Hc.
  by rewrite Hreach by by apply list_elem_of_In.
Qed.

Lemma held_after_grant key token (ttlMs : double) s s' c :
  is_integer ttlMs = true → (0 < ttlMs)%Q →
  c ∈ RedlockService.clients this →
  free_on key s c = true →
  now s' = now s →
  (∀ c, nodes s' !! c = set_node this key token ttlMs s c <$> nodes s !! c) →
  held_on key token s' c = true.
Proof.
  intros Hint Hpos Hc Hfree Hnow Hnodes. unfold held_on. rewrite Hnodes.
  unfold free_on in Hfree. unfold set_node at 1. unfold free_on at 1.
  destruct (nodes s !! c) as [n | ]; [ | done]. simpl.
  rewrite Hfree, bool_decide_eq_true_2 by done. simpl.
  apply andb_true_iff in Hfree as [Hup _]. rewrite Hup. simpl.
  apply bool_decide_eq_true. rewrite node_get_granted, decide_True by done.
  pose proof (Qfloor_positive_integer ttlMs Hint Hpos).
  rewrite Hnow. by rewrite (proj2 (Z.ltb_lt _ _)) by lia.
Qed.

Lemma acquire_unreachable_run key (ttlMs : double) w client :
  sched w = [] → NoDup (RedlockService.clients this) →
  is_integer ttlMs = true → (0 < ttlMs)%Q →
  js_le (js_sub (js_sub ttlMs (js_floor (js_mul ttlMs (RedlockService.driftFactor this))))
                (of_Z 0)) 0 = false →
  (0 < RedlockService.retryCount this)%Q →
  client ∈ RedlockService.clients this → reachable_on (shared w) client = false →
  ∃ replies w',
    RedlockService.acquireLock this key ttlMs w = (Err closed, w')
    ∧ log w' = log w ++ set_round key (drawn_token w) ttlMs (RedlockService.clients this)
                          replies
    ∧ length replies = length (RedlockService.clients this)
    ∧ db (shared w') = db (shared w) ∧ now (shared w') = now (shared w)
    ∧ ∀ c, c ∈ RedlockService.clients this → free_on key (shared w) c = true →
           held_on key (drawn_token w) (shared w') c = true.
Proof.
  intros Hquiet Hdup Hint Hpos Httl Hretry Hin Hdown.
  destruct (acquireLock_first_round key ttlMs w Httl Hretry) as [bound ->].
  cbn [RedlockService.acquireLock_loop].
  assert (Qltb (inject_Z 0) (RedlockService.retryCount this) = true) as ->
    by by apply Qltb_true.
  destruct (acquire_round_quiet this key (drawn_token w) ttlMs (randomUUID w).2
              Hquiet Hdup Hint Hpos)
    as (w' & Hrun & Hq & Hdb & Hnow & Hent & Hints & Hnodes & Hlog).
  cbn [randomUUID shared snd log] in *.
  rewrite run_bind. unfold Promise_all. rewrite run_bind, Hrun.
  rewrite (all_fulfilled_unreachable _ _ _ client Hin Hdown), run_throw.
  eexists _, w'. split; [reflexivity | ]. split; [exact Hlog | ].
  split; [by rewrite length_map | ]. split; [done | ]. split; [done | ].
  intros c Hc Hfree. by apply (held_after_grant key _ ttlMs (shared w)).
Qed.

(** In a quiet environment, with every node within reach and the key
    free on a quorum of them, [acquireLock] holds the lock after one
    round of [SET]: under the token drawn, with the TTL less its drift
    discount as its validity, both as the program computes them (no time
    has elapsed; the product [ttlMs * driftFactor] is rounded to
    binary64, then floored); the key is then held under the token on
    every node where it was free, the other nodes are as they were, and
    so are the store and the clock. *)
Theorem redlock_acquire_granted key (ttlMs : double) w :
  sched w = [] → NoDup (RedlockService.clients this) →
  (∀ c, c ∈ RedlockService.clients this → reachable_on (shared w) c = true) →
  is_integer ttlMs = true → (0 < ttlMs)%Q →
  js_le (js_sub (js_sub ttlMs (js_floor (js_mul ttlMs (RedlockService.driftFactor this))))
                (of_Z 0)) 0 = false →
  (0 < RedlockService.retryCount this)%Q →
  RedlockService.quorum this
    ≤ count_of (free_on key (shared w)) (RedlockService.clients this) →
  let call := RedlockService.acquireLock this key ttlMs w in
  (∃ lockResult,
     call.1 = Ok lockResult
     ∧ token lockResult = drawn_token w
     ∧ validityTime lockResult
       = Math_max (js_sub (js_sub ttlMs (of_Z 0))
                          (js_floor (js_mul ttlMs (RedlockService.driftFactor this)))) 0)
  ∧ (∀ c, c ∈ RedlockService.clients this → free_on key (shared w) c = true →
          held_on key (drawn_token w) (shared call.2) c = true)
  ∧ (∀ c, c ∈ RedlockService.clients this → free_on key (shared w) c = false →
          nodes (shared call.2) !! c = nodes (shared w) !! c)
  ∧ db (shared call.2) = db (shared w) ∧ now (shared call.2) = now (shared w)
  ∧ log call.2
    = log w ++ set_round key (drawn_token w) ttlMs (RedlockService.clients this)
                 (map (λ c, Ok (free_on key (shared w) c)) (RedlockService.clients this)).
Proof.
  intros Hquiet Hdup Hreach Hint Hpos Httl Hretry Hquorum call.
  destruct (acquire_granted_run key ttlMs w Hquiet Hdup Hreach Hint Hpos Httl Hretry Hquorum)
    as (lockResult & w' & Hrun & Htoken & Hvalid & _ & Hdb & Hnow & _ & _ & Hnodes & Hlog).
  subst call. rewrite Hrun. cbn [fst snd].
  split; [by exists lockResult | ]. split; [ | split].
  - intros c Hc Hfree. by apply (held_after_grant key _ ttlMs (shared w)).
  - intros c Hc Hfree. rewrite Hnodes. unfold set_node. rewrite Hfree, andb_false_r.
    by destruct (nodes (shared w) !! c).
  - done.
Qed.

(** A node out of reach makes [acquireLock] fail with the error of that
    node after the first round, however many nodes granted the key: the
    replies are awaited with [Promise.all].  Nothing is rolled back: the
    round of [SET] is all that was sent, and every node on which the
    key was free keeps it under the token of the failed call until it
    expires. *)
Theorem redlock_acquire_unreachable key (ttlMs : double) w client :
  sched w = [] → NoDup (RedlockService.clients this) →
  is_integer ttlMs = true → (0 < ttlMs)%Q →
  js_le (js_sub (js_sub ttlMs (js_floor (js_mul ttlMs (RedlockService.driftFactor this))))
                (of_Z 0)) 0 = false →
  (0 < RedlockService.retryCount this)%Q →
  client ∈ RedlockService.clients this → reachable_on (shared w) client = false →
  let call := RedlockService.acquireLock this key ttlMs w in
  call.1 = Err closed
  ∧ (∃ replies,
       length replies = length (RedlockService.clients this)
       ∧ log call.2 = log w ++ set_round key (drawn_token w) ttlMs
                                 (RedlockService.clients this) replies)
  ∧ (∀ c, c ∈ RedlockService.clients this → free_on key (shared w) c = true →
          held_on key (drawn_token w) (shared call.2) c = true)
  ∧ db (shared call.2) = db (shared w).
Proof.
  intros Hquiet Hdup Hint Hpos Httl Hretry Hin Hdown call.
  destruct (acquire_unreachable_run key ttlMs w client Hquiet Hdup Hint Hpos Httl Hretry
              Hin Hdown)
    as (replies & w' & Hrun & Hlog & Hlen & Hdb & _ & Hheld).
  subst call. rewrite Hrun. cbn [fst snd].
  split; [done | ]. split; [by exists replies | ]. done.
Qed.

End RedlockAcquire.

(** ** Exclusion *)

(** The node of the client can be reached and holds the key under another
    token until after [horizon] ms from now. *)
Definition blocked_on (key token : string) (horizon : Z) (s : Shared) (client : nat) : bool :=
  match nodes s !! client with
  | Some n =>
      up n
      && match kv n !! key with
         | Some (value, expiry) => bool_decide (value ≠ token) && (now s + horizon <? expiry)
         | None => false
         end
  | None => false
  end.

Lemma count_of_mono (P Q : nat → bool) clients :
  (∀ c, c ∈ clients → P c = true → Q c = true) →
  count_of P clients ≤ count_of Q clients.
Proof.
  intros HPQ. unfold count_of. apply inj_le.
  induction clients as [ | c clients IH]; [done | ].
  rewrite !filter_cons.
  specialize (IH (λ c' Hc', HPQ c' (list_elem_of_further _ _ _ Hc'))).
  pose proof (HPQ c (list_elem_of_here _ _)) as Hc.
  destruct (P c) eqn:HP; destruct (Q c) eqn:HQ; repeat case_decide; try done;
    cbn [length]; try lia.
Qed.

Lemma timeout_delay_positive ms : 1 ≤ timeout_delay ms.
Proof.
  unfold timeout_delay. destruct ((1 <=? Qfloor ms) && (Qfloor ms <=? 2147483647)) eqn:E.
  - apply andb_true_iff in E as [E _]. by apply Z.leb_le.
  - done.
Qed.

Lemma node_get_earlier n t t' key value :
  node_get n t' key = Some value → t ≤ t' → node_get n t key = Some value.
Proof.
  unfold node_get. destruct (kv n !! key) as [[v e] | ]; [ | done].
  destruct (Z.ltb_spec t' e); [ | done]. intros [= <-] Ht.
  by rewrite (proj2 (Z.ltb_lt _ _)) by lia.
Qed.

Lemma blocked_reachable key token h s c :
  blocked_on key token h s c = true → reachable_on s c = true.
Proof.
  unfold blocked_on, reachable_on. destruct (nodes s !! c) as [n | ]; [ | done].
  by intros [Hup _]%andb_true_iff.
Qed.

Lemma blocked_not_free key token h s c :
  0 ≤ h → blocked_on key token h s c = true → free_on key s c = false.
Proof.
  unfold blocked_on, free_on, node_get. intros Hh.
  destruct (nodes s !! c) as [n | ]; [ | done].
  intros [Hup Hkv]%andb_true_iff. rewrite Hup. simpl.
  destruct (kv n !! key) as [[v e] | ]; [ | done].
  apply andb_true_iff in Hkv as [_ He]. apply Z.ltb_lt in He.
  rewrite (proj2 (Z.ltb_lt _ _)) by lia. by apply bool_decide_eq_false_2.
Qed.

Lemma blocked_not_held key token h s c :
  0 ≤ h → blocked_on key token h s c = true → held_on key token s c = false.
Proof.
  unfold blocked_on, held_on, node_get. intros Hh.
  destruct (nodes s !! c) as [n | ]; [ | done].
  intros [Hup Hkv]%andb_true_iff. rewrite Hup. simpl.
  destruct (kv n !! key) as [[v e] | ]; [ | done].
  apply andb_true_iff in Hkv as [Hv He]. apply Z.ltb_lt in He.
  apply bool_decide_eq_true in Hv.
  rewrite (proj2 (Z.ltb_lt _ _)) by lia. apply bool_decide_eq_false_2. congruence.
Qed.

Lemma blocked_later key token h h' s s' c :
  blocked_on key token h s c = true →
  nodes s' !! c = nodes s !! c → now s' + h' ≤ now s + h →
  blocked_on key token h' s' c = true.
Proof.
  unfold blocked_on. intros Hb Hn Ht. rewrite Hn.
  destruct (nodes s !! c) as [n | ]; [ | done].
  apply andb_true_iff in Hb as [Hup Hkv]. rewrite Hup. simpl.
  destruct (kv n !! key) as [[v e] | ]; [ | done].
  apply andb_true_iff in Hkv as [Hv He]. rewrite Hv. simpl.
  apply Z.ltb_lt in He. apply Z.ltb_lt. lia.
Qed.

Lemma reachable_same s s' c :
  (∃ f : Node → Node, (∀ n, up (f n) = up n) ∧ nodes s' !! c = f <$> nodes s !! c) →
  reachable_on s' c = reachable_on s c.
Proof.
  intros (f & Hup & Hn). unfold reachable_on. rewrite Hn.
  destruct (nodes s !! c) as [n | ]; [ | done]. simpl. apply Hup.
Qed.

Section RedlockExclusion.
Variable this : RedlockService.t.

(** The pause between two attempts. *)
Lemma pause_quiet (attempt : Z) w :
  sched w = [] →
  ∃ w3,
    (if js_lt attempt (js_sub (RedlockService.retryCount this) 1)
     then sleep (RedlockService.retryDelayMs this) else mret tt) w = (Ok tt, w3)
    ∧ sched w3 = [] ∧ db (shared w3) = db (shared w) ∧ nodes (shared w3) = nodes (shared w)
    ∧ now (shared w) ≤ now (shared w3)
      ≤ now (shared w) + timeout_delay (RedlockService.retryDelayMs this).
Proof.
  intros Hquiet.
  pose proof (timeout_delay_positive (RedlockService.retryDelayMs this)).
  destruct (js_lt _ _).
  - eexists. split; [reflexivity | ]. rewrite env_step_quiet by done. simpl.
    repeat split; try done; lia.
  - exists w. repeat split; try done; lia.
Qed.

Lemma held_on_false_later key token s s' c :
  held_on key token s c = false → nodes s' !! c = nodes s !! c → now s ≤ now s' →
  held_on key token s' c = false.
Proof.
  unfold held_on. intros Hheld Hn Ht. rewrite Hn.
  destruct (nodes s !! c) as [n | ]; [ | done].
  destruct (up n); [ | done]. simpl in *.
  apply bool_decide_eq_false in Hheld. apply bool_decide_eq_false_2.
  intros Hlater. apply Hheld. by eapply node_get_earlier.
Qed.

(** An attempt that the holders of the key make miss the quorum. *)
Lemma attempt_excluded bound attempt key token (ttlMs : double) startTime w h :
  sched w = [] → NoDup (RedlockService.clients this) →
  is_integer ttlMs = true → (0 < ttlMs)%Q →
  (∀ c, c ∈ RedlockService.clients this → reachable_on (shared w) c = true) →
  0 ≤ h →
  count_of (λ c, negb (blocked_on key token h (shared w) c)) (RedlockService.clients this)
    < RedlockService.quorum this →
  Qltb (inject_Z attempt) (RedlockService.retryCount this) = true →
  ∃ w3,
    RedlockService.acquireLock_loop this (S bound) attempt key token ttlMs startTime w
    = RedlockService.acquireLock_loop this bound (attempt + 1) key token ttlMs startTime w3
    ∧ sched w3 = [] ∧ db (shared w3) = db (shared w)
    ∧ now (shared w) ≤ now (shared w3)
      ≤ now (shared w) + timeout_delay (RedlockService.retryDelayMs this)
    ∧ (∀ c, c ∈ RedlockService.clients this → reachable_on (shared w3) c = true)
    ∧ (∀ c, c ∈ RedlockService.clients this → held_on key token (shared w3) c = false)
    ∧ (∀ c, blocked_on key token h (shared w) c = true →
            nodes (shared w3) !! c = nodes (shared w) !! c).
Proof.
  intros Hquiet Hdup Hint Hpos Hreach Hh Hcount Hguard.
  cbn [RedlockService.acquireLock_loop]. rewrite Hguard.
  destruct (acquire_round_quiet this key token ttlMs w Hquiet Hdup Hint Hpos)
    as (w1 & Hrun1 & Hq1 & Hdb1 & Hnow1 & _ & _ & Hnodes1 & _).
  rewrite run_bind. unfold Promise_all. rewrite run_bind, Hrun1.
  rewrite (all_fulfilled_reachable _ _ _ Hreach), run_ret.
  rewrite length_filter_map.
  fold (count_of (free_on key (shared w)) (RedlockService.clients this)).
  assert (count_of (free_on key (shared w)) (RedlockService.clients this)
          < RedlockService.quorum this) as Hmiss.
  { eapply Z.le_lt_trans; [ | exact Hcount]. apply count_of_mono. intros c _ Hfree.
    destruct (blocked_on key token h (shared w) c) eqn:Hb; [ | done].
    by rewrite (blocked_not_free _ _ _ _ _ Hh Hb) in Hfree. }
  apply Z.leb_gt in Hmiss. rewrite Hmiss.
  destruct (release_round_quiet this key token w1 Hq1 Hdup)
    as (w2 & Hrun2 & Hq2 & Hdb2 & Hnow2 & _ & _ & Hnodes2 & _).
  rewrite run_bind, Hrun2.
  destruct (pause_quiet attempt w2 Hq2) as (w3 & Hrun3 & Hq3 & Hdb3 & Hnodes3 & Hnow3).
  rewrite run_bind, Hrun3.
  exists w3. split; [done | ]. split; [done | ]. split; [congruence | ].
  split; [lia | ].
  assert (∀ c, c ∈ RedlockService.clients this → held_on key token (shared w2) c = false)
    as Hgone.
  { intros c Hc. unfold held_on at 1. rewrite Hnodes2, Hnow2.
    unfold deleted_node. rewrite bool_decide_eq_true_2 by done. cbn [andb].
    destruct (held_on key token (shared w1) c) eqn:Hheld.
    - destruct (nodes (shared w1) !! c) as [n1 | ]; [ | done]. simpl.
      unfold node_get. simpl. rewrite lookup_delete_eq.
      by rewrite bool_decide_eq_false_2, andb_false_r.
    - unfold held_on in Hheld.
      by destruct (nodes (shared w1) !! c) as [n1 | ]. }
  assert (∀ c, blocked_on key token h (shared w) c = true →
               nodes (shared w2) !! c = nodes (shared w) !! c) as Hkept.
  { intros c Hb.
    assert (nodes (shared w1) !! c = nodes (shared w) !! c) as H1.
    { rewrite Hnodes1. unfold set_node.
      rewrite (blocked_not_free _ _ _ _ _ Hh Hb), andb_false_r.
      by destruct (nodes (shared w) !! c). }
    rewrite Hnodes2. unfold deleted_node.
    assert (held_on key token (shared w1) c = false) as ->.
    { apply (held_on_false_later key token (shared w)); [ | done | lia].
      by apply (blocked_not_held _ _ h). }
    rewrite andb_false_r, H1. by destruct (nodes (shared w) !! c). }
  split; [ | split].
  - intros c Hc. specialize (Hreach c Hc). unfold reachable_on in *.
    rewrite Hnodes3, Hnodes2, Hnodes1.
    destruct (nodes (shared w) !! c) as [n | ]; [ | done]. simpl.
    unfold deleted_node, set_node, granted_node.
    repeat (match goal with |- context [if ?b then _ else _] => destruct b end); done.
  - intros c Hc. apply (held_on_false_later key token (shared w2)); [by apply Hgone | | lia].
    by rewrite Hnodes3.
  - intros c Hb. rewrite Hnodes3. by apply Hkept.
Qed.

Lemma loop_excluded key token (ttlMs : double) startTime bound :
  ∀ attempt w,
    sched w = [] → NoDup (RedlockService.clients this) →
    is_integer ttlMs = true → (0 < ttlMs)%Q →
    (∀ c, c ∈ RedlockService.clients this → reachable_on (shared w) c = true) →
    (∀ c, c ∈ RedlockService.clients this → held_on key token (shared w) c = false) →
    count_of (λ c, negb (blocked_on key token
                           (Z.of_nat bound * timeout_delay (RedlockService.retryDelayMs this))
                           (shared w) c))
             (RedlockService.clients this)
      < RedlockService.quorum this →
    ∃ w',
      RedlockService.acquireLock_loop this bound attempt key token ttlMs startTime w
      = (Err (ConflictException "Failed to acquire lock on quorum of Redis instances"), w')
      ∧ sched w' = [] ∧ db (shared w') = db (shared w)
      ∧ (∀ c, c ∈ RedlockService.clients this → held_on key token (shared w') c = false)
      ∧ (∀ c, blocked_on key token
                (Z.of_nat bound * timeout_delay (RedlockService.retryDelayMs this))
                (shared w) c = true →
              nodes (shared w') !! c = nodes (shared w) !! c).
Proof.
  pose proof (timeout_delay_positive (RedlockService.retryDelayMs this)) as Hd.
  induction bound as [ | bound IH]; intros attempt w Hquiet Hdup Hint Hpos Hreach Hfresh Hcount.
  - exists w. done.
  - destruct (Qltb (inject_Z attempt) (RedlockService.retryCount this)) eqn:Hguard.
    2: { exists w. cbn [RedlockService.acquireLock_loop]. by rewrite Hguard. }
    assert (0 ≤ Z.of_nat (S bound) * timeout_delay (RedlockService.retryDelayMs this))
      as Hh by nia.
    destruct (attempt_excluded bound attempt key token ttlMs startTime w _
                Hquiet Hdup Hint Hpos Hreach Hh Hcount Hguard)
      as (w3 & -> & Hq3 & Hdb3 & Hnow3 & Hreach3 & Hfresh3 & Hkept3).
    assert (∀ c, blocked_on key token
                   (Z.of_nat (S bound) * timeout_delay (RedlockService.retryDelayMs this))
                   (shared w) c = true →
                 blocked_on key token
                   (Z.of_nat bound * timeout_delay (RedlockService.retryDelayMs this))
                   (shared w3) c = true) as Hstill.
    { intros c Hb. eapply blocked_later; [exact Hb | by apply Hkept3 | lia]. }
    destruct (IH (attempt + 1) w3 Hq3 Hdup Hint Hpos Hreach3 Hfresh3)
      as (w' & Hrun & Hq & Hdb & Hgone & Hkept).
    { eapply Z.le_lt_trans; [ | exact Hcount]. apply count_of_mono. intros c _ Hnb.
      destruct (blocked_on key token (Z.of_nat (S bound) * _) (shared w) c) eqn:Hb; [ | done].
      by rewrite (Hstill c Hb) in Hnb. }
    exists w'. split; [done | ]. split; [done | ]. split; [congruence | ].
    split; [done | ]. intros c Hb. rewrite (Hkept c (Hstill c Hb)). by apply Hkept3.
Qed.

Lemma acquire_excluded_run key (ttlMs : double) w :
  sched w = [] → NoDup (RedlockService.clients this) →
  (∀ c, c ∈ RedlockService.clients this → reachable_on (shared w) c = true) →
  is_integer ttlMs = true → (0 < ttlMs)%Q →
  js_le (js_sub (js_sub ttlMs (js_floor (js_mul ttlMs (RedlockService.driftFactor this))))
                (of_Z 0)) 0 = false →
  (0 < RedlockService.retryCount this)%Q →
  let horizon :=
    Qceiling (RedlockService.retryCount this)
    * timeout_delay (RedlockService.retryDelayMs this) in
  count_of (λ c, negb (blocked_on key (drawn_token w) horizon (shared w) c))
           (RedlockService.clients this)
    < RedlockService.quorum this →
  ∃ w',
    RedlockService.acquireLock this key ttlMs w
    = (Err (ConflictException "Failed to acquire lock on quorum of Redis instances"), w')
    ∧ sched w' = [] ∧ db (shared w') = db (shared w)
    ∧ (∀ c, c ∈ RedlockService.clients this →
            held_on key (drawn_token w) (shared w') c = false)
    ∧ (∀ c, blocked_on key (drawn_token w) horizon (shared w) c = true →
            nodes (shared w') !! c = nodes (shared w) !! c).
Proof.
  intros Hquiet Hdup Hreach Hint Hpos Httl Hretry horizon Hcount.
  pose proof (timeout_delay_positive (RedlockService.retryDelayMs this)) as Hd.
  unfold RedlockService.acquireLock.
  rewrite run_bind. unfold randomUUID at 1. fold (drawn_token w).
  rewrite run_bind. unfold Date_now at 1. cbn [shared].
  rewrite run_bind. unfold Date_now at 1. cbn [shared].
  rewrite Z.sub_diag, Httl.
  destruct (ceiling_positive _ Hretry) as [bound Hbound].
  assert (horizon = Z.of_nat (S bound) * timeout_delay (RedlockService.retryDelayMs this))
    as Hhorizon.
  { unfold horizon. rewrite <- Hbound.
    rewrite Z2Nat.id; [done | ]. destruct (Qceiling _); try done; lia. }
  rewrite Hbound.
  set (w0 := mkWorld (shared w) (sched w) (log w) (N.succ (entropy w)) (intervals w)).
  assert (Qltb (inject_Z 0) (RedlockService.retryCount this) = true) as Hguard
    by by apply Qltb_true.
  assert (0 ≤ horizon) as Hh by (rewrite Hhorizon; nia).
  destruct (attempt_excluded bound 0 key (drawn_token w) ttlMs (now (shared w)) w0 horizon
              Hquiet Hdup Hint Hpos Hreach Hh Hcount Hguard)
    as (w3 & -> & Hq3 & Hdb3 & Hnow3 & Hreach3 & Hfresh3 & Hkept3).
  assert (∀ c, blocked_on key (drawn_token w) horizon (shared w) c = true →
               blocked_on key (drawn_token w)
                 (Z.of_nat bound * timeout_delay (RedlockService.retryDelayMs this))
                 (shared w3) c = true) as Hstill.
  { intros c Hb. eapply blocked_later; [exact Hb | by apply Hkept3 | ].
    change (shared w0) with (shared w) in Hnow3. rewrite Hhorizon. lia. }
  destruct (loop_excluded key (drawn_token w) ttlMs (now (shared w)) bound
              (0 + 1) w3 Hq3 Hdup Hint Hpos Hreach3 Hfresh3)
    as (w' & Hrun & Hq & Hdb & Hgone & Hkept).
  { eapply Z.le_lt_trans; [ | exact Hcount]. apply count_of_mono. intros c _ Hnb.
    destruct (blocked_on key (drawn_token w) horizon (shared w) c) eqn:Hb; [ | done].
    by rewrite (Hstill c Hb) in Hnb. }
  exists w'. split; [done | ]. split; [done | ]. split; [by rewrite Hdb, Hdb3 | ].
  split; [done | ]. intros c Hb. rewrite (Hkept c (Hstill c Hb)). by apply Hkept3.
Qed.

(** In a quiet environment, with every node within reach, when all but
    fewer than a quorum of the nodes hold the key under other tokens
    until after the last retry, [acquireLock] fails with the Conflict
    "Failed to acquire lock on quorum of Redis instances"; every attempt
    was rolled back: afterwards no node holds the key under the token of
    the call, the nodes of the holders are as they were, and so is the
    store. *)
Theorem redlock_acquire_excluded key (ttlMs : double) w :
  sched w = [] → NoDup (RedlockService.clients this) →
  (∀ c, c ∈ RedlockService.clients this → reachable_on (shared w) c = true) →
  is_integer ttlMs = true → (0 < ttlMs)%Q →
  js_le (js_sub (js_sub ttlMs (js_floor (js_mul ttlMs (RedlockService.driftFactor this))))
                (of_Z 0)) 0 = false →
  (0 < RedlockService.retryCount this)%Q →
  let horizon :=
    Qceiling (RedlockService.retryCount this)
    * timeout_delay (RedlockService.retryDelayMs this) in
  count_of (λ c, negb (blocked_on key (drawn_token w) horizon (shared w) c))
           (RedlockService.clients this)
    < RedlockService.quorum this →
  let call := RedlockService.acquireLock this key ttlMs w in
  call.1 = Err (ConflictException "Failed to acquire lock on quorum of Redis instances")
  ∧ (∀ c, c ∈ RedlockService.clients this →
          held_on key (drawn_token w) (shared call.2) c = false)
  ∧ (∀ c, blocked_on key (drawn_token w) horizon (shared w) c = true →
          nodes (shared call.2) !! c = nodes (shared w) !! c)
  ∧ db (shared call.2) = db (shared w).
Proof.
  intros Hquiet Hdup Hreach Hint Hpos Httl Hretry horizon Hcount call.
  destruct (acquire_excluded_run key ttlMs w Hquiet Hdup Hreach Hint Hpos Httl Hretry Hcount)
    as (w' & Hrun & _ & Hdb & Hgone & Hkept).
  subst call. rewrite Hrun. by cbn [fst snd].
Qed.

End RedlockExclusion.

Lemma count_of_negb (P : nat → bool) clients :
  count_of (λ c, negb (P c)) clients + count_of P clients = Z.of_nat (length clients).
Proof.
  unfold count_of. induction clients as [ | c clients IH]; [done | ].
  rewrite !filter_cons. destruct (P c); repeat case_decide; try done; cbn [length negb] in *; lia.
Qed.

Lemma drawn_token_inj w w' : drawn_token w = drawn_token w' → entropy w = entropy w'.
Proof.
  unfold drawn_token. intros Heq. apply (inj (String.append "uuid-")) in Heq.
  by apply (inj pretty) in Heq.
Qed.

Section RedlockTwoCallers.
Variable this : RedlockService.t.

(** Mutual exclusion between two callers: in a quiet environment, with
    every node within reach and a quorum that is a majority, after a
    call of [acquireLock] took the key free on a quorum of the nodes for a TTL
    that outlasts the retries, a second call for the key fails with a
    Conflict, and leaves the key under the token of the first on the
    nodes that granted it. *)
Theorem redlock_mutual_exclusion key (ttlMs : double) (ttlMs' : double) w :
  sched w = [] → NoDup (RedlockService.clients this) →
  (∀ c, c ∈ RedlockService.clients this → reachable_on (shared w) c = true) →
  is_integer ttlMs = true → (0 < ttlMs)%Q →
  js_le (js_sub (js_sub ttlMs (js_floor (js_mul ttlMs (RedlockService.driftFactor this))))
                (of_Z 0)) 0 = false →
  is_integer ttlMs' = true → (0 < ttlMs')%Q →
  js_le (js_sub (js_sub ttlMs' (js_floor (js_mul ttlMs' (RedlockService.driftFactor this))))
                (of_Z 0)) 0 = false →
  (0 < RedlockService.retryCount this)%Q →
  Z.of_nat (length (RedlockService.clients this)) < 2 * RedlockService.quorum this →
  RedlockService.quorum this
    ≤ count_of (free_on key (shared w)) (RedlockService.clients this) →
  Qceiling (RedlockService.retryCount this)
  * timeout_delay (RedlockService.retryDelayMs this) < Qfloor ttlMs →
  let first := RedlockService.acquireLock this key ttlMs w in
  let second := RedlockService.acquireLock this key ttlMs' first.2 in
  is_ok first.1 = true
  ∧ second.1
    = Err (ConflictException "Failed to acquire lock on quorum of Redis instances")
  ∧ ∀ c, c ∈ RedlockService.clients this → free_on key (shared w) c = true →
         nodes (shared second.2) !! c = nodes (shared first.2) !! c
         ∧ held_on key (drawn_token w) (shared first.2) c = true.
Proof.
  intros Hquiet Hdup Hreach Hint Hpos Httl Hint' Hpos' Httl' Hretry Hmajority Hquorum Hlong
    first second.
  destruct (acquire_granted_run this key ttlMs w Hquiet Hdup Hreach Hint Hpos Httl
              Hretry Hquorum)
    as (lockResult & w1 & Hrun & Htoken & _ & Hq1 & Hdb1 & Hnow1 & Hent1 & _ & Hnodes1 & _).
  subst first second. rewrite Hrun. cbn [fst snd is_ok].
  assert (∀ c, c ∈ RedlockService.clients this → reachable_on (shared w1) c = true)
    as Hreach1.
  { intros c Hc. specialize (Hreach c Hc). unfold reachable_on in *. rewrite Hnodes1.
    destruct (nodes (shared w) !! c) as [n | ]; [ | done]. simpl.
    unfold set_node, granted_node. by destruct (_ && _). }
  set (horizon := Qceiling (RedlockService.retryCount this)
                  * timeout_delay (RedlockService.retryDelayMs this)) in *.
  assert (∀ c, c ∈ RedlockService.clients this → free_on key (shared w) c = true →
               blocked_on key (drawn_token w1) horizon (shared w1) c = true) as Hblocked.
  { intros c Hc Hfree. unfold blocked_on. rewrite Hnodes1. unfold set_node.
    rewrite Hfree, bool_decide_eq_true_2 by done. cbn [andb].
    unfold free_on in Hfree.
    destruct (nodes (shared w) !! c) as [n | ]; [ | done]. simpl.
    apply andb_true_iff in Hfree as [-> _]. simpl. rewrite lookup_insert_eq.
    apply andb_true_iff. split.
    - apply bool_decide_eq_true. intros Heq. apply drawn_token_inj in Heq.
      rewrite Hent1 in Heq. lia.
    - apply Z.ltb_lt. lia. }
  destruct (acquire_excluded_run this key ttlMs' w1 Hq1 Hdup Hreach1 Hint' Hpos' Httl'
              Hretry) as (w2 & Hrun2 & _ & _ & _ & Hkept).
  { fold horizon.
    pose proof (count_of_negb (blocked_on key (drawn_token w1) horizon (shared w1))
                  (RedlockService.clients this)) as Hsum.
    assert (count_of (free_on key (shared w)) (RedlockService.clients this)
            ≤ count_of (blocked_on key (drawn_token w1) horizon (shared w1))
                (RedlockService.clients this)) as Hle.
    { apply count_of_mono. intros c Hc Hfree. by apply Hblocked. }
    lia. }
  rewrite Hrun2. cbn [fst snd]. split; [done | ]. split; [done | ].
  intros c Hc Hfree. split.
  - apply Hkept. by apply Hblocked.
  - by apply (held_after_grant this key _ ttlMs (shared w)).
Qed.

End RedlockTwoCallers.

(** ** Extension and release *)

Lemma extend_reply_cases key token (ttlMs : double) s client :
  is_integer ttlMs = true →
  reply_at (eval_command CompareAndPexpire key token ttlMs) s client
  = if reachable_on s client then Ok (if held_on key token s client then 1 else 0)
    else Err closed.
Proof.
  intros Hint. unfold reply_at, reachable_on, held_on, eval_command, node_eval.
  rewrite Hint.
  destruct (nodes s !! client) as [n | ]; [ | done].
  destruct (up n); [ | done]. simpl.
  by destruct (decide (node_get n (now s) key = Some token));
    [rewrite bool_decide_eq_true_2 | rewrite bool_decide_eq_false_2].
Qed.

Lemma extend_node_cases key token (ttlMs : double) t n :
  is_integer ttlMs = true →
  (eval_command CompareAndPexpire key token ttlMs n t).2
  = if bool_decide (node_get n t key = Some token)
    then granted_node key token ttlMs t n else n.
Proof.
  intros Hint. unfold eval_command, node_eval. rewrite Hint.
  by destruct (decide (node_get n t key = Some token));
    [rewrite bool_decide_eq_true_2 | rewrite bool_decide_eq_false_2].
Qed.

Lemma count_of_ones (P : nat → bool) clients :
  Z.of_nat (length (filter (λ result : Z, result = 1)
                           (map (λ c, if P c then 1 else 0) clients)))
  = count_of P clients.
Proof.
  unfold count_of. f_equal. rewrite length_filter_map.
  induction clients as [ | c clients IH]; [done | ].
  rewrite !filter_cons. destruct (P c); repeat case_decide; try done; cbn [length]; congruence.
Qed.

Section RedlockExtend.
Variable this : RedlockService.t.

(** What a client's node is after a round of compare-and-pexpire. *)
Definition extended_node (key token : string) (ttlMs : double) (s : Shared) (c : nat) (n : Node)
  : Node :=
  if bool_decide (c ∈ RedlockService.clients this) && held_on key token s c
  then granted_node key token ttlMs (now s) n else n.

Lemma extend_round_quiet key token (ttlMs : double) w :
  sched w = [] → NoDup (RedlockService.clients this) → is_integer ttlMs = true →
  ∃ w',
    Promise_allSettled
      (map (λ client, client_eval client CompareAndPexpire key token ttlMs)
           (RedlockService.clients this)) w
    = (Ok (map (λ client, if reachable_on (shared w) client
                          then Ok (if held_on key token (shared w) client then 1 else 0)
                          else Err closed)
               (RedlockService.clients this)), w')
    ∧ sched w' = [] ∧ db (shared w') = db (shared w) ∧ now (shared w') = now (shared w)
    ∧ (∀ c, nodes (shared w') !! c
            = extended_node key token ttlMs (shared w) c <$> nodes (shared w) !! c).
Proof.
  intros Hquiet Hdup Hint.
  destruct (round_quiet (eval_command CompareAndPexpire key token ttlMs)
              (λ client, EvEval client CompareAndPexpire key token)
              (RedlockService.clients this) w Hquiet Hdup)
    as (w' & Hrun & Hq & Hdb & Hnow & _ & _ & Hnodes & _).
  exists w'. split.
  { rewrite (allSettled_ext _
               (λ client, send client (eval_command CompareAndPexpire key token ttlMs)
                               (EvEval client CompareAndPexpire key token))).
    - rewrite Hrun. do 2 f_equal. apply map_ext. intros c. by apply extend_reply_cases.
    - intros c w0. apply client_eval_send. }
  repeat split; try done.
  intros c. rewrite Hnodes.
  destruct (nodes (shared w) !! c) as [n | ] eqn:Hn; [ | done]. cbn [fmap option_fmap option_map].
  f_equal. unfold extended_node, held_on. rewrite Hn.
  destruct (bool_decide (c ∈ RedlockService.clients this)); [ | done].
  destruct (up n); [ | done]. cbn [andb]. by apply extend_node_cases.
Qed.

(** In a quiet environment, with every node within reach and an integer
    TTL, [extendLock] answers whether the nodes that hold the key under
    the token are a quorum; on each of them the key now expires [ttlMs]
    from now, whatever the answer; no other node is changed, so the key
    is never set on a node that does not hold it under the token. *)
Theorem redlock_extend key token (ttlMs : double) w :
  sched w = [] → NoDup (RedlockService.clients this) →
  (∀ c, c ∈ RedlockService.clients this → reachable_on (shared w) c = true) →
  is_integer ttlMs = true →
  let call := RedlockService.extendLock this key token ttlMs w in
  call.1 = Ok (RedlockService.quorum this
               <=? count_of (held_on key token (shared w)) (RedlockService.clients this))
  ∧ (∀ c n, c ∈ RedlockService.clients this → nodes (shared w) !! c = Some n →
            held_on key token (shared w) c = true →
            nodes (shared call.2) !! c
            = Some (mkNode (up n) (<[ key := (token, now (shared w) + Qfloor ttlMs) ]> (kv n))))
  ∧ (∀ c, held_on key token (shared w) c = false →
          nodes (shared call.2) !! c = nodes (shared w) !! c)
  ∧ db (shared call.2) = db (shared w).
Proof.
  intros Hquiet Hdup Hreach Hint call.
  destruct (extend_round_quiet key token ttlMs w Hquiet Hdup Hint)
    as (w' & Hrun & Hq & Hdb & Hnow & Hnodes).
  assert (call = (Ok (RedlockService.quorum this
                      <=? count_of (held_on key token (shared w))
                            (RedlockService.clients this)), w')) as ->.
  { subst call. unfold RedlockService.extendLock.
    rewrite run_bind. unfold Promise_all. rewrite run_bind, Hrun.
    rewrite (all_fulfilled_reachable _ _ _ Hreach), run_ret, run_ret.
    by rewrite count_of_ones. }
  cbn [fst snd]. split; [done | ]. split; [ | split; [ | done]].
  - intros c n Hc Hn Hheld. rewrite Hnodes, Hn. cbn [fmap option_fmap option_map].
    unfold extended_node. by rewrite Hheld, bool_decide_eq_true_2.
  - intros c Hheld. rewrite Hnodes. unfold extended_node. rewrite Hheld, andb_false_r.
    by destruct (nodes (shared w) !! c).
Qed.

(** A node out of reach makes [extendLock] fail with the error of that
    node, rather than answer [false]: the replies are awaited with
    [Promise.all]. *)
Theorem redlock_extend_unreachable key token (ttlMs : double) w client :
  sched w = [] → NoDup (RedlockService.clients this) → is_integer ttlMs = true →
  client ∈ RedlockService.clients this → reachable_on (shared w) client = false →
  (RedlockService.extendLock this key token ttlMs w).1 = Err closed.
Proof.
  intros Hquiet Hdup Hint Hin Hdown.
  destruct (extend_round_quiet key token ttlMs w Hquiet Hdup Hint)
    as (w' & Hrun & _).
  unfold RedlockService.extendLock.
  rewrite run_bind. unfold Promise_all. rewrite run_bind, Hrun.
  by rewrite (all_fulfilled_unreachable _ _ _ client Hin Hdown).
Qed.

(** The release is checked against the token: in a quiet environment,
    [releaseLock] deletes the key on the nodes that hold it under the
    token given, and leaves every other node as it was; a key held
    under another token stays held. *)
Theorem redlock_release_token_checked key token w :
  sched w = [] → NoDup (RedlockService.clients this) →
  let call := RedlockService.releaseLock this key token w in
  call.1 = Ok tt
  ∧ (∀ c n, c ∈ RedlockService.clients this → nodes (shared w) !! c = Some n →
            held_on key token (shared w) c = true →
            nodes (shared call.2) !! c = Some (mkNode (up n) (delete key (kv n))))
  ∧ (∀ c, held_on key token (shared w) c = false →
          nodes (shared call.2) !! c = nodes (shared w) !! c)
  ∧ ((∀ c, c ∈ RedlockService.clients this → held_on key token (shared w) c = false) →
     shared call.2 = shared w).
Proof.
  intros Hquiet Hdup call.
  destruct (release_round_quiet this key token w Hquiet Hdup)
    as (w' & Hrun & _ & Hdb & Hnow & _ & _ & Hnodes & _).
  subst call. unfold RedlockService.releaseLock. rewrite Hrun. cbn [fst snd].
  assert (∀ c, held_on key token (shared w) c = false →
               nodes (shared w') !! c = nodes (shared w) !! c) as Hkept.
  { intros c Hheld. rewrite Hnodes. unfold deleted_node. rewrite Hheld, andb_false_r.
    by destruct (nodes (shared w) !! c). }
  split; [done | ]. split; [ | split; [done | ]].
  - intros c n Hc Hn Hheld. rewrite Hnodes, Hn. cbn [fmap option_fmap option_map].
    unfold deleted_node. by rewrite Hheld, bool_decide_eq_true_2.
  - intros Hnone.
    assert (nodes (shared w') = nodes (shared w)) as Hsame.
    { apply list_eq. intros c. rewrite Hnodes. unfold deleted_node.
      destruct (decide (c ∈ RedlockService.clients this)) as [Hc | Hc].
      - rewrite (Hnone c Hc), andb_false_r. by destruct (nodes (shared w) !! c).
      - rewrite bool_decide_eq_false_2 by done. by destruct (nodes (shared w) !! c). }
    destruct (shared w') as [d' ns' t'], (shared w) as [d ns t]. simpl in *. congruence.
Qed.

End RedlockExtend.

(** ** The quorum *)

Lemma floor_half (n : Z) : Math_floor (inject_Z n / 2) = n / 2.
Proof.
  unfold Math_floor, Qfloor, Qdiv, Qmult, Qinv, inject_Z. simpl.
  by rewrite Z.mul_1_r.
Qed.

(** The lock manager built over at least one connection: the quorum is a
    strict majority of the nodes, so that two quorums share a node, and
    it does not exceed their number; the drift factor, the number of
    attempts and the delay between them are above zero, whatever the
    environment holds. *)
Theorem redlock_quorum_majority `{Host} (process_env : gmap string string)
  (connections : list nat) :
  connections ≠ [] →
  let this := RedlockService.constructor process_env connections in
  let n := Z.of_nat (length connections) in
  RedlockService.quorum this = n / 2 + 1
  ∧ n < 2 * RedlockService.quorum this
  ∧ RedlockService.quorum this ≤ n
  ∧ (0 < RedlockService.driftFactor this)%Q
  ∧ (0 < RedlockService.retryCount this)%Q
  ∧ (0 < RedlockService.retryDelayMs this)%Q.
Proof.
  intros Hne this n.
  assert (1 ≤ n) as Hn.
  { subst n. destruct connections; [done | ]. simpl. lia. }
  assert (RedlockService.quorum this = n / 2 + 1) as Hq.
  { subst this n. unfold RedlockService.constructor. cbn [RedlockService.quorum].
    by rewrite floor_half. }
  rewrite Hq. split; [done | ].
  pose proof (Z.div_mod n 2 ltac:(lia)) as Hdiv.
  pose proof (Z.mod_pos_bound n 2 ltac:(lia)) as Hmod.
  split; [lia | ]. split; [lia | ].
  subst this. unfold RedlockService.constructor.
  cbn [RedlockService.driftFactor RedlockService.retryCount RedlockService.retryDelayMs].
  repeat split; by apply envNumber_positive.
Qed.

(** ** The idempotency coordinator, key by key *)

Lemma overwrite_singleton {V} (k : string) (x y : V) (m : gmap string V) :
  {[ k := x ]} ∪ {[ k := y ]} ∪ m = <[ k := x ]> m.
Proof.
  apply map_eq. intros i. destruct (decide (i = k)) as [-> | Hne].
  - rewrite lookup_insert_eq. apply lookup_union_Some_l, lookup_union_Some_l.
    apply lookup_singleton_eq.
  - rewrite lookup_insert_ne by done.
    rewrite !lookup_union, !lookup_singleton_ne by done.
    by destruct (m !! i).
Qed.

Section IdempotencyKeys.
Context `{Host} {T P : Type} `{Json T} `{Json P}.
Variable this : IdempotencyService.t.

(** The record of a key after [work] succeeded with [result]: inserted
    at instant [t], updated at instant [t']. *)
Definition success_record (idempotencyKey : string) (requestPayload : P) (t t' : Z)
  (result : WorkResult T) : IdempotencyRecord.t :=
  IdempotencyRecord.mk idempotencyKey SUCCESS
    (Some (IdempotencyService.hashRequest requestPayload))
    (Some (JSON_stringify (data result))) (Some (work_statusCode result)) t t'
    (Date_of (js_add (of_Z t) (IdempotencyService.ttlMs this))).

(** The store with a record written. *)
Definition with_record (row : IdempotencyRecord.t) (d : Store) : Store :=
  mkStore (seats d) (bookings d)
          (<[ IdempotencyRecord.idempotencyKey row := row ]> (idempotencyRecords d)).

Lemma checkOrCreate_fresh_run (idempotencyKey : string) (requestPayload : P)
  (work : M (WorkResult T)) (w w3 : World) (outcome : Result (WorkResult T)) :
  idempotencyKey ≠ "" →
  sched w = [] →
  idempotencyRecords (db (shared w)) !! idempotencyKey = None →
  work w = (outcome, w3) →
  IdempotencyService.checkOrCreate this idempotencyKey requestPayload work w
  = match outcome with
    | Ok result =>
        (Ok (mkIdempotencyResult false (data result) (work_statusCode result)),
         set_shared
           (set_db (with_record (success_record idempotencyKey requestPayload
                                   (now (shared w)) (now (shared w3)) result)))
           (env_step w3))
    | Err error => (Err error, env_step w3)
    end.
Proof.
  intros Hkey Hquiet Hfresh Hwork.
  unfold IdempotencyService.checkOrCreate.
  rewrite decide_False by done.
  rewrite run_bind. unfold Date_now at 1.
  rewrite run_transaction, run_tx_bind, run_tx_await.
  unfold idempotencyRecord.findUnique at 1.
  rewrite (env_step_quiet w Hquiet), overlay_noRows, Hfresh.
  rewrite run_tx_bind, run_tx_await.
  unfold idempotencyRecord.create at 1.
  rewrite (env_step_quiet w Hquiet), overlay_noRows, Hfresh.
  rewrite run_tx_bind, run_outside. unfold settle at 1. rewrite Hwork.
  rewrite run_tx_bind, run_outside. unfold Date_now at 1.
  rewrite run_tx_bind, run_tx_await.
  unfold idempotencyRecord.update at 1.
  rewrite lookup_written_record.
  destruct outcome as [result | error]; [ | by rewrite run_tx_throw].
  rewrite run_tx_ret. f_equal.
  unfold set_shared, set_db, with_record, overlay, success_record,
    IdempotencyService.finalize. simpl.
  rewrite !(left_id_L ∅ (∪)), !(right_id_L ∅ (∪)).
  by rewrite overwrite_singleton.
Qed.

(** [checkOrCreate] refuses a key without running [work] and without
    writing anything: an empty key is a bad request; a key recorded
    under the hash of another payload is a Conflict, whatever the state
    of the record; under the hash of this payload, a FAILED record and an
    IN_PROGRESS record no older than the TTL are Conflicts of their
    own. *)
Lemma checkOrCreate_other_payload (idempotencyKey : string) (requestPayload : P)
  (work : M (WorkResult T)) (w : World) (row : IdempotencyRecord.t) :
  idempotencyKey ≠ "" →
  idempotencyRecords (db (shared (env_step w))) !! idempotencyKey = Some row →
  IdempotencyRecord.requestHash row ≠ Some (IdempotencyService.hashRequest requestPayload) →
  IdempotencyService.checkOrCreate this idempotencyKey requestPayload work w
  = (Err (ConflictException "Idempotency key reuse with different payload"), env_step w).
Proof.
  intros Hkey Hrow Hhash. unfold IdempotencyService.checkOrCreate.
  rewrite decide_False by done.
  rewrite run_bind. unfold Date_now at 1.
  rewrite run_transaction, run_tx_bind, run_tx_await.
  unfold idempotencyRecord.findUnique at 1.
  rewrite overlay_noRows, Hrow.
  rewrite decide_True by done. by rewrite run_tx_throw.
Qed.

Theorem checkOrCreate_refusals (idempotencyKey : string) (requestPayload : P)
  (work : M (WorkResult T)) (w : World) :
  (idempotencyKey = "" →
   IdempotencyService.checkOrCreate this idempotencyKey requestPayload work w
   = (Err (BadRequestException "Idempotency-Key is required"), w))
  ∧ (∀ row,
       idempotencyKey ≠ "" →
       idempotencyRecords (db (shared (env_step w))) !! idempotencyKey = Some row →
       (IdempotencyRecord.requestHash row
          ≠ Some (IdempotencyService.hashRequest requestPayload) →
        IdempotencyService.checkOrCreate this idempotencyKey requestPayload work w
        = (Err (ConflictException "Idempotency key reuse with different payload"),
           env_step w))
       ∧ (IdempotencyRecord.requestHash row
            = Some (IdempotencyService.hashRequest requestPayload) →
          IdempotencyRecord.state row = FAILED →
          IdempotencyService.checkOrCreate this idempotencyKey requestPayload work w
          = (Err (ConflictException "Previous request with this idempotency key failed"),
             env_step w))
       ∧ (IdempotencyRecord.requestHash row
            = Some (IdempotencyService.hashRequest requestPayload) →
          IdempotencyRecord.state row = IN_PROGRESS →
          (inject_Z (now (shared (env_step w)) - IdempotencyRecord.createdAt row)
           <= IdempotencyService.ttlMs this)%Q →
          IdempotencyService.checkOrCreate this idempotencyKey requestPayload work w
          = (Err (ConflictException "Request already in progress"), env_step w))).
Proof.
  split.
  - intros ->. unfold IdempotencyService.checkOrCreate. by rewrite decide_True.
  - intros row Hkey Hrow. split; [ | split].
    + intros Hhash. by apply (checkOrCreate_other_payload _ _ _ _ row).
    + intros Hhash Hstate. by apply (checkOrCreate_previous_failure this _ _ _ _ row).
    + intros Hhash Hstate Hage. by apply (checkOrCreate_in_flight this _ _ _ _ row).
Qed.


End IdempotencyKeys.

(** ** The sweeps *)

Lemma bulk_update_settles {V} (P : string → V → bool) (data : V → V) (m : gmap string V) :
  (∀ id row, P id (data row) = false) →
  filter (λ kr, P kr.1 kr.2 = true) ((data <$> filter (λ kr, P kr.1 kr.2 = true) m) ∪ m) = ∅.
Proof.
  intros Hdone. apply map_empty_filter. intros id row Hrow. simpl.
  rewrite lookup_bulk_update in Hrow.
  destruct (m !! id) as [row0 | ]; [ | done]. simpl in Hrow. injection Hrow as <-.
  destruct (P id row0) eqn:HP; [ | by rewrite HP]. by rewrite Hdone.
Qed.

Lemma set_db_same d w : db (shared w) = d → set_shared (set_db (λ _, d)) w = w.
Proof. intros <-. by destruct w as [[d ns t] ? ? ? ?]. Qed.

Lemma versions_in_range_none (selected : string → Seat.t → bool) (d : Store) :
  filter (λ kr, selected kr.1 kr.2 = true) (seats d) = ∅ →
  versions_in_range selected d.
Proof.
  intros Hnone id row Hrow Hsel. exfalso.
  assert (filter (λ kr, selected kr.1 kr.2 = true) (seats d) !! id = Some row) as Hin
    by by apply map_lookup_filter_Some.
  by rewrite Hnone in Hin.
Qed.

Section Sweeps.
Context `{Host}.

(** *** Idempotency records *)

Lemma cleanupExpired_run w :
  let t := now (shared w) in
  let table := idempotencyRecords (db (shared (env_step w))) in
  IdempotencyService.cleanupExpired w
  = (Ok (Z.of_nat (size (filter (λ kr, (IdempotencyRecord.expiresAt kr.2 <? t) = true) table))),
     set_shared
       (set_db (λ d, mkStore (seats d) (bookings d)
                       (filter (λ kr, (IdempotencyRecord.expiresAt kr.2 <? t) = false) table)))
       (env_step w)).
Proof. reflexivity. Qed.

(** [cleanupExpired] deletes the records whose [expiresAt] is strictly
    before the instant of the call, whatever their state, and answers
    with their number; a record that expires at that very instant, the
    seats and the bookings are kept.  Run again at once in a quiet
    environment, it finds nothing to delete. *)
Theorem cleanupExpired_sweeps (w : World) :
  let t := now (shared w) in
  let before := db (shared (env_step w)) in
  let call := IdempotencyService.cleanupExpired w in
  call.1 = Ok (Z.of_nat (size (filter (λ kr, (IdempotencyRecord.expiresAt kr.2 <? t) = true)
                                      (idempotencyRecords before))))
  ∧ (∀ key, idempotencyRecords (db (shared call.2)) !! key
            = match idempotencyRecords before !! key with
              | Some row => if IdempotencyRecord.expiresAt row <? t then None else Some row
              | None => None
              end)
  ∧ seats (db (shared call.2)) = seats before
  ∧ bookings (db (shared call.2)) = bookings before
  ∧ (sched w = [] → IdempotencyService.cleanupExpired call.2 = (Ok 0, call.2)).
Proof.
  intros t before call. subst call. rewrite cleanupExpired_run. cbn [fst snd]. fold t before.
  split; [done | ]. split; [ | split; [done | split; [done | ]]].
  - intros key. simpl.
    destruct (idempotencyRecords before !! key) as [row | ] eqn:Hrow.
    + destruct (IdempotencyRecord.expiresAt row <? t) eqn:Hexp.
      * apply map_lookup_filter_None. right. intros row' Hrow'. simpl. congruence.
      * apply map_lookup_filter_Some. by split.
    + apply map_lookup_filter_None. by left.
  - intros Hquiet. subst t before. rewrite (env_step_quiet w Hquiet).
    set (w1 := set_shared _ w).
    rewrite cleanupExpired_run.
    assert (env_step w1 = w1) as -> by by apply env_step_quiet.
    subst w1. simpl.
    set (kept := filter (λ kr : string * IdempotencyRecord.t,
                           (IdempotencyRecord.expiresAt kr.2 <? now (shared w)) = false)
                        (idempotencyRecords (db (shared w)))).
    assert (filter (λ kr : string * IdempotencyRecord.t,
                      (IdempotencyRecord.expiresAt kr.2 <? now (shared w)) = true) kept = ∅)
      as ->.
    { apply map_empty_filter. intros key row Hrow. simpl.
      apply map_lookup_filter_Some in Hrow as [_ Hkeep]. simpl in Hkeep. congruence. }
    assert (filter (λ kr : string * IdempotencyRecord.t,
                      (IdempotencyRecord.expiresAt kr.2 <? now (shared w)) = false) kept = kept)
      as ->.
    { apply map_filter_id. intros key row Hrow.
      by apply map_lookup_filter_Some in Hrow as [_ Hkeep]. }
    by rewrite map_size_empty.
Qed.

(** *** Holds *)

Lemma releaseExpiredHolds_count w :
  versions_in_range (hold_lapsed (now (shared w))) (db (shared (env_step w))) →
  SeatService.releaseExpiredHolds w
  = (Ok (Z.of_nat (size (filter (λ kr, hold_lapsed (now (shared w)) kr.1 kr.2 = true)
                                (seats (db (shared (env_step w))))))),
     set_shared (set_db (holds_released (now (shared w)))) (env_step w)).
Proof. intros Hrange. rewrite releaseExpiredHolds_run. by rewrite decide_True. Qed.

(** The hold reaper makes AVAILABLE, with [holdExpiresAt] cleared and
    the version incremented, the seats on HOLD whose [holdExpiresAt] is
    strictly before the instant of the call, and answers with their
    number, provided that the version of each of them, incremented, is
    within the range of its column (32 bits); a hold that expires at
    that very instant, a hold without [holdExpiresAt], the other seats,
    the bookings and the idempotency records are left as they are, and
    run again at once in a quiet environment, it releases nothing.  When
    the version of one of those seats is the last of the range, the
    update fails with the error P2020 of the database and no seat is
    released. *)
Theorem releaseExpiredHolds_sweeps (w : World) :
  let t := now (shared w) in
  let before := db (shared (env_step w)) in
  let call := SeatService.releaseExpiredHolds w in
  (versions_in_range (hold_lapsed t) before →
   call.1 = Ok (Z.of_nat (size (filter (λ kr, hold_lapsed t kr.1 kr.2 = true)
                                       (seats before))))
   ∧ (∀ id, seats (db (shared call.2)) !! id
            = (λ row, if hold_lapsed t id row
                      then Seat.mk AVAILABLE (Seat.version row + 1) None
                      else row) <$> seats before !! id)
   ∧ bookings (db (shared call.2)) = bookings before
   ∧ idempotencyRecords (db (shared call.2)) = idempotencyRecords before
   ∧ (sched w = [] → SeatService.releaseExpiredHolds call.2 = (Ok 0, call.2)))
  ∧ (¬ versions_in_range (hold_lapsed t) before →
     call = (Err (PrismaClientKnownRequestError "P2020"), env_step w)).
Proof.
  intros t before call. subst call. split.
  2: { intros Hrange. rewrite releaseExpiredHolds_run. by rewrite decide_False. }
  intros Hrange. rewrite releaseExpiredHolds_count by done. cbn [fst snd].
  fold t before.
  split; [done | ]. split; [ | split; [done | split; [done | ]]].
  - intros id. simpl. fold before. by rewrite lookup_bulk_update.
  - intros Hquiet. subst t before. rewrite (env_step_quiet w Hquiet).
    set (w1 := set_shared _ w).
    assert (env_step w1 = w1) as Hstep by by apply env_step_quiet.
    rewrite releaseExpiredHolds_count.
    2: { rewrite Hstep. apply versions_in_range_none. subst w1. unfold holds_released.
         simpl. by rewrite bulk_update_settles. }
    rewrite Hstep.
    subst w1. unfold holds_released. simpl.
    rewrite bulk_update_settles by done.
    rewrite map_size_empty. f_equal. unfold set_shared, set_db. simpl.
    rewrite bulk_update_settles by done.
    by rewrite fmap_empty, (left_id_L ∅ (∪)).
Qed.

End Sweeps.

(** *** Bookings past their expiry *)

Lemma length_expired_seats t d :
  length (expired_seats t d)
  = size (filter (λ kr, confirmed_expired t kr.2 = true) (bookings d)).
Proof.
  unfold expired_seats. rewrite List.length_map, length_fmap. apply length_map_to_list.
Qed.

Lemma expireBookings_count w :
  sched w = [] →
  versions_in_range (booked_among (expired_seats (now (shared w)) (db (shared w))))
                    (db (shared w)) →
  BookingCleanupService.expireBookings w
  = (Ok (Z.of_nat (size (filter (λ kr, confirmed_expired (now (shared w)) kr.2 = true)
                                (bookings (db (shared w)))))),
     set_shared (set_db (bookings_expired (now (shared w)))) w).
Proof.
  intros Hquiet Hrange. rewrite (expireBookings_quiet w Hquiet).
  rewrite decide_True by done. by rewrite length_expired_seats.
Qed.

Lemma booked_among_none (m : gmap string Seat.t) :
  filter (λ kr : string * Seat.t, booked_among [] kr.1 kr.2 = true) m = ∅.
Proof.
  apply map_empty_filter. intros i x _. unfold booked_among. intros Hb.
  apply andb_true_iff in Hb as [Hin _]. apply bool_decide_eq_true in Hin.
  by apply elem_of_nil in Hin.
Qed.

Lemma expired_settles t (m : gmap string Booking.t) :
  filter (λ kr, confirmed_expired t kr.2 = true)
         ((expire <$> filter (λ kr, confirmed_expired t kr.2 = true) m) ∪ m) = ∅.
Proof. by apply (bulk_update_settles (λ _, confirmed_expired t) expire). Qed.

(** Run on its own, the booking-expiry reaper marks EXPIRED the
    CONFIRMED bookings whose [expiresAt] is strictly before the instant
    of the call, and answers with their number; it makes AVAILABLE, with
    the version incremented, the seats of those bookings that are
    BOOKED, provided that the version of each of these seats,
    incremented, is within the range of its column (32 bits); the other
    bookings (without [expiresAt], or expiring at that very instant or
    later, or not CONFIRMED), the other seats and the idempotency records
    are left as they are, and run again at once, it finds nothing.  When
    the version of one of these seats is the last of the range, the
    update of the seats fails with the error P2020 of the database, and
    neither a booking nor a seat is changed. *)
Theorem expireBookings_sweeps (w : World) :
  sched w = [] →
  let t := now (shared w) in
  let before := db (shared w) in
  let call := BookingCleanupService.expireBookings w in
  (versions_in_range (booked_among (expired_seats t before)) before →
   call.1 = Ok (Z.of_nat (size (filter (λ kr, confirmed_expired t kr.2 = true)
                                       (bookings before))))
   ∧ (∀ i, bookings (db (shared call.2)) !! i
           = (λ b, if confirmed_expired t b then expire b else b) <$> bookings before !! i)
   ∧ (∀ id, seats (db (shared call.2)) !! id
            = (λ row, if booked_among (expired_seats t before) id row
                      then Seat.mk AVAILABLE (Seat.version row + 1) (Seat.holdExpiresAt row)
                      else row) <$> seats before !! id)
   ∧ idempotencyRecords (db (shared call.2)) = idempotencyRecords before
   ∧ BookingCleanupService.expireBookings call.2 = (Ok 0, call.2))
  ∧ (¬ versions_in_range (booked_among (expired_seats t before)) before →
     call = (Err (PrismaClientKnownRequestError "P2020"), w)).
Proof.
  intros Hquiet t before call. subst call. split.
  2: { intros Hrange. rewrite (expireBookings_quiet w Hquiet). by rewrite decide_False. }
  intros Hrange. rewrite (expireBookings_count w Hquiet) by done.
  cbn [fst snd]. fold t before.
  split; [done | ]. split; [ | split; [ | split; [done | ]]].
  - intros i. simpl. fold before. by rewrite lookup_bulk_update_rows.
  - intros id. simpl. fold before. by rewrite lookup_bulk_update.
  - subst t before. set (w1 := set_shared _ w).
    assert (expired_seats (now (shared w1)) (db (shared w1)) = []) as Hnone.
    { subst w1. unfold expired_seats. simpl.
      by rewrite expired_settles, map_to_list_empty. }
    rewrite (expireBookings_count w1); [ | done | ].
    2: { rewrite Hnone. apply versions_in_range_none, booked_among_none. }
    subst w1. simpl. rewrite expired_settles, map_size_empty. f_equal.
    unfold set_shared, set_db, bookings_expired, expired_seats. simpl.
    rewrite expired_settles, map_to_list_empty. simpl.
    by rewrite booked_among_none, !fmap_empty, !(left_id_L ∅ (∪)).
Qed.

(** The bookings that carry no [expiresAt]. *)
Definition without_expiry (d : Store) : Prop :=
  ∀ i b, bookings d !! i = Some b → Booking.expiresAt b = None.

Lemma expireBookings_nothing w :
  sched w = [] → without_expiry (db (shared w)) →
  BookingCleanupService.expireBookings w = (Ok 0, w).
Proof.
  intros Hquiet Hnone.
  assert (filter (λ kr : string * Booking.t, confirmed_expired (now (shared w)) kr.2 = true)
                 (bookings (db (shared w))) = ∅) as Hempty.
  { apply map_empty_filter. intros i b Hb. simpl. unfold confirmed_expired.
    rewrite (Hnone i b Hb). by rewrite andb_false_r. }
  rewrite (expireBookings_count w Hquiet).
  2: { unfold expired_seats. rewrite Hempty, map_to_list_empty.
       apply versions_in_range_none, booked_among_none. }
  rewrite Hempty, map_size_empty. f_equal.
  unfold set_shared, set_db, bookings_expired, expired_seats. simpl.
  rewrite Hempty, map_to_list_empty. simpl.
  assert (filter (λ kr : string * Seat.t, booked_among [] kr.1 kr.2 = true)
                 (seats (db (shared w))) = ∅) as ->.
  { apply map_empty_filter. intros i x _. unfold booked_among. intros Hb.
    apply andb_true_iff in Hb as [Hin _]. apply bool_decide_eq_true in Hin.
    by apply elem_of_nil in Hin. }
  rewrite !fmap_empty, !(left_id_L ∅ (∪)).
  by destruct w as [[[ss bs rs] ns t] schedule events seed timers].
Qed.

(** ** Reserves and holds in a quiet environment *)

Lemma quiet_reserve_worlds w :
  sched w = [] →
  at_read w = w ∧ at_insert w = (randomUUID w).2 ∧ at_update w = (randomUUID w).2.
Proof.
  intros Hquiet.
  assert (at_read w = w) as Hread by by apply env_step_quiet.
  assert (at_insert w = (randomUUID w).2) as Hinsert.
  { unfold at_insert. rewrite Hread. by apply env_step_quiet. }
  split; [done | ]. split; [done | ].
  unfold at_update. rewrite Hinsert. by apply env_step_quiet.
Qed.

(** The seat can be booked or held at instant [t]: it is AVAILABLE, or
    on a HOLD whose [holdExpiresAt] is not after [t]. *)
Definition open_at (seat : Seat.t) (t : Z) : bool :=
  match Seat.status seat with
  | AVAILABLE => true
  | HOLD => hold_expired seat t
  | BOOKED => false
  end.

Lemma open_at_bookable seat t : open_at seat t = true ↔ bookable seat t.
Proof.
  unfold open_at, bookable. destruct (Seat.status seat) eqn:Hst; split; try done.
  - intros [_ Hexp]. by apply Hexp.
  - intros [Hb _]. done.
Qed.

(** The outcome of a reserve in a quiet environment, from the store it
    starts in. *)
Lemma reserve_quiet input w :
  sched w = [] →
  BookingService.createBooking_locked input w
  = match seats (db (shared w)) !! seatId input with
    | None => (Err (NotFoundException "Seat not found"), w)
    | Some seat =>
        if bool_decide (Seat.status seat = BOOKED) then
          (Err (ConflictException "Seat already booked"), w)
        else if negb (open_at seat (now (shared w))) then
          (Err (ConflictException "Seat currently on hold"), w)
        else if decide (bookings (db (shared w)) !! drawn_id w = None
                        ∧ key_unused (idempotencyKey input) (db (shared w))) then
          if seat.in_INTEGER (Seat.version seat + 1) then
            (Ok (mkWorkResult (confirmed (drawn_id w) input) 201),
             set_shared (set_db (reserved input (drawn_id w) seat)) (randomUUID w).2)
          else (Err (PrismaClientKnownRequestError "P2020"), (randomUUID w).2)
        else (Err (PrismaClientKnownRequestError "P2002"), (randomUUID w).2)
    end.
Proof.
  intros Hquiet. destruct (quiet_reserve_worlds w Hquiet) as (Hread & Hinsert & Hupdate).
  destruct (seats (db (shared w)) !! seatId input) as [seat | ] eqn:Hseat.
  2: { rewrite reserve_not_found by by rewrite Hread. by rewrite Hread. }
  case_bool_decide as Hbooked.
  { rewrite (reserve_booked input w seat) by by rewrite ?Hread. by rewrite Hread. }
  destruct (open_at seat (now (shared w))) eqn:Hopen; cbn [negb].
  2: { assert (Seat.status seat = HOLD ∧ hold_expired seat (now (shared w)) = false)
         as [Hhold Hexp].
       { unfold open_at in Hopen. by destruct (Seat.status seat). }
       rewrite (reserve_on_hold input w seat) by by rewrite ?Hread. by rewrite Hread. }
  apply open_at_bookable in Hopen.
  case_decide as Hfresh.
  - destruct Hfresh as [Hid Hkey].
    destruct (seat.in_INTEGER (Seat.version seat + 1)) eqn:Hrange.
    + rewrite (reserve_commits input w seat seat); rewrite ?Hread, ?Hinsert, ?Hupdate; done.
    + rewrite (reserve_out_of_range input w seat seat);
        rewrite ?Hread, ?Hinsert, ?Hupdate; done.
  - rewrite (reserve_key_taken input w seat); rewrite ?Hread, ?Hinsert; done.
Qed.

Section QuietSeats.
Context `{Host}.
Variable process_env : gmap string string.




End QuietSeats.

(** A reserve writes a booking without [expiresAt]: from a store whose
    bookings carry none, after a reserve in a quiet environment, the
    booking-expiry reaper, whenever it runs, expires no booking and frees
    no seat. *)
Theorem reserve_sets_no_expiry (input : CreateBookingInput) (w w2 : World) :
  sched w = [] → without_expiry (db (shared w)) →
  sched w2 = [] →
  db (shared w2) = db (shared (BookingService.createBooking_locked input w).2) →
  BookingCleanupService.expireBookings w2 = (Ok 0, w2).
Proof.
  intros Hquiet Hnone Hquiet2 Hdb. apply expireBookings_nothing; [done | ].
  rewrite Hdb, (reserve_quiet input w Hquiet).
  destruct (seats (db (shared w)) !! seatId input) as [seat | ]; [ | done].
  case_bool_decide; [done | ].
  destruct (negb _); [done | ].
  case_decide; [ | done].
  destruct (seat.in_INTEGER _); [ | done].
  intros i b Hb. simpl in Hb.
  destruct (decide (i = drawn_id w)) as [-> | Hne].
  - rewrite lookup_insert_eq in Hb. by injection Hb as <-.
  - rewrite lookup_insert_ne in Hb by done. by apply (Hnone i).
Qed.

(** A booking made can be read back: in a quiet environment, a reserve
    of a seat that is open and whose version, incremented, is within the
    range of its column (32 bits), under a key that no booking carries,
    answers with a CONFIRMED booking; [getBooking] of its identifier
    then answers with that booking and its seat, BOOKED under the next
    version, and [getSeat] with that seat; an identifier that no booking
    has is not found. *)
Theorem reserve_then_getBooking (input : CreateBookingInput) (w : World) (seat : Seat.t) :
  sched w = [] →
  seats (db (shared w)) !! seatId input = Some seat →
  open_at seat (now (shared w)) = true →
  seat.in_INTEGER (Seat.version seat + 1) = true →
  bookings (db (shared w)) !! drawn_id w = None →
  key_unused (idempotencyKey input) (db (shared w)) →
  let call := BookingService.createBooking_locked input w in
  let booking := confirmed (drawn_id w) input in
  let booked := Seat.mk BOOKED (Seat.version seat + 1) None in
  call.1 = Ok (mkWorkResult booking 201)
  ∧ BookingService.getBooking (drawn_id w) call.2 = (Ok (booking, Some booked), call.2)
  ∧ SeatService.getSeat (seatId input) call.2 = (Ok booked, call.2)
  ∧ ∀ id, bookings (db (shared call.2)) !! id = None →
          BookingService.getBooking id call.2
          = (Err (NotFoundException "Booking not found"), call.2).
Proof.
  intros Hquiet Hseat Hopen Hrange Hid Hkey call booking booked. subst call.
  assert (Seat.status seat ≠ BOOKED) as Hnb.
  { unfold open_at in Hopen. by destruct (Seat.status seat). }
  rewrite (reserve_quiet input w Hquiet), Hseat, Hopen.
  rewrite bool_decide_eq_false_2 by done. cbn [negb].
  rewrite decide_True by done. rewrite Hrange. cbn [fst snd].
  set (w1 := set_shared _ _).
  assert (env_step w1 = w1) as Hstep by by apply env_step_quiet.
  split; [done | ]. split; [ | split].
  - unfold BookingService.getBooking.
    rewrite run_bind, run_prisma_await, Hstep. unfold booking.findUnique_include_seat.
    subst w1. simpl. rewrite !lookup_insert_eq. simpl. rewrite lookup_insert_eq.
    by rewrite commit_nothing.
  - unfold SeatService.getSeat.
    rewrite run_bind, run_prisma_await, Hstep. unfold seat.findUnique.
    subst w1. simpl. rewrite !lookup_insert_eq. by rewrite commit_nothing.
  - intros id Hnone. unfold BookingService.getBooking.
    rewrite run_bind, run_prisma_await, Hstep. unfold booking.findUnique_include_seat.
    rewrite Hnone. simpl. by rewrite commit_nothing.
Qed.

(** ** Work under the lock, in a quiet environment *)

Section QuietWithLock.
Variable this : RedlockService.t.

Lemma released_everywhere key token s s' :
  now s' = now s →
  (∀ c, nodes s' !! c = deleted_node this key token s c <$> nodes s !! c) →
  ∀ c, c ∈ RedlockService.clients this → held_on key token s' c = false.
Proof.
  intros Hnow Hnodes c Hc. unfold held_on at 1. rewrite Hnodes, Hnow.
  unfold deleted_node. rewrite bool_decide_eq_true_2 by done. cbn [andb].
  destruct (held_on key token s c) eqn:Hheld.
  - destruct (nodes s !! c) as [n | ]; [ | done]. simpl.
    unfold node_get. simpl. rewrite lookup_delete_eq.
    by rewrite bool_decide_eq_false_2, andb_false_r.
  - unfold held_on in Hheld. by destruct (nodes s !! c) as [n | ].
Qed.

(** The lock can be taken in [w] at the first attempt. *)
Definition lock_ready (key : string) (ttlMs : double) (w : World) : Prop :=
  sched w = [] ∧ NoDup (RedlockService.clients this)
  ∧ (∀ c, c ∈ RedlockService.clients this → reachable_on (shared w) c = true)
  ∧ is_integer ttlMs = true ∧ (0 < ttlMs)%Q
  ∧ js_le (js_sub (js_sub ttlMs (js_floor (js_mul ttlMs (RedlockService.driftFactor this))))
                  (of_Z 0)) 0 = false
  ∧ (0 < RedlockService.retryCount this)%Q
  ∧ RedlockService.quorum this
    ≤ count_of (free_on key (shared w)) (RedlockService.clients this).

Lemma withLock_quiet {A} key (ttlMs : double) (work : M A) extendIntervalMs w :
  lock_ready key ttlMs w →
  ∃ w2,
    sched w2 = [] ∧ db (shared w2) = db (shared w) ∧ now (shared w2) = now (shared w)
    ∧ (entropy w < entropy w2)%N
    ∧ ∀ outcome w3,
        work w2 = (outcome, w3) → sched w3 = [] →
        ∃ w4,
          RedlockService.withLock this key ttlMs work extendIntervalMs w = (outcome, w4)
          ∧ sched w4 = [] ∧ db (shared w4) = db (shared w3)
          ∧ now (shared w4) = now (shared w3)
          ∧ ∀ c, c ∈ RedlockService.clients this →
                 held_on key (drawn_token w) (shared w4) c = false.
Proof.
  intros (Hquiet & Hdup & Hreach & Hint & Hpos & Httl & Hretry & Hquorum).
  destruct (acquire_granted_run this key ttlMs w Hquiet Hdup Hreach Hint Hpos Httl Hretry
              Hquorum)
    as (lockResult & w1 & Hacq & Htoken & _ & Hq1 & Hdb1 & Hnow1 & Hent1 & _ & _ & _).
  set (arm := match extendIntervalMs with
              | Some every =>
                  if truthy every && js_lt every (validityTime lockResult)
                  then h ← setInterval key (token lockResult) ttlMs every; mret (Some h)
                  else mret None
              | None => mret None
              end).
  assert (∃ extendTimer w2,
            arm w1 = (Ok extendTimer, w2)
            ∧ shared w2 = shared w1 ∧ sched w2 = sched w1
            ∧ (entropy w1 <= entropy w2)%N)
    as (extendTimer & w2 & Harm & Hs2 & Hq2 & Hent2).
  { subst arm. destruct extendIntervalMs as [every | ].
    - destruct (truthy every && js_lt every (validityTime lockResult)).
      + eexists _, _. split; [reflexivity | ]. simpl. repeat split; try done. lia.
      + exists None, w1. repeat split; try done.
    - exists None, w1. repeat split; try done. }
  exists w2. rewrite Hs2, Hq2. split; [done | ]. split; [done | ]. split; [done | ].
  split; [lia | ].
  intros outcome w3 Hwork Hquiet3.
  set (clear := match extendTimer with
                | Some h => clearInterval h
                | None => mret tt
                end).
  assert (∃ w3', clear w3 = (Ok tt, w3') ∧ shared w3' = shared w3 ∧ sched w3' = sched w3)
    as (w3' & Hclear & Hs3 & Hq3).
  { subst clear. destruct extendTimer as [h | ].
    - eexists. split; [reflexivity | ]. done.
    - by exists w3. }
  rewrite <- Hq3 in Hquiet3.
  destruct (release_round_quiet this key (token lockResult) w3' Hquiet3 Hdup)
    as (w4 & Hrel & Hq4 & Hdb4 & Hnow4 & _ & _ & Hnodes4 & _).
  exists w4. split.
  { unfold RedlockService.withLock.
    unfold mbind at 1. unfold M_bind at 1. rewrite Hacq.
    unfold mbind at 1. unfold M_bind at 1. fold arm. rewrite Harm.
    unfold try_finally. rewrite Hwork.
    unfold mbind at 1. unfold M_bind at 1. fold clear. rewrite Hclear.
    unfold RedlockService.releaseLock. by rewrite Hrel. }
  rewrite <- Hs3. split; [done | ]. split; [done | ]. split; [done | ].
  rewrite <- Htoken. by apply (released_everywhere key _ (shared w3')).
Qed.

End QuietWithLock.

(** ** A booking, end to end *)


Section EndToEnd.
Context `{Host} `{Json Booking.t} `{Json BookingPayload}.
Variable process_env : gmap string string.
Variable lockService : RedlockService.t.
Variable idempotencyService : IdempotencyService.t.

Definition lockKey (input : CreateBookingInput) : string := "seat:" +:+ seatId input.
Definition lockTtlMs : double := Env.envNumber process_env "LOCK_TTL_MS" 5000.
Definition payload_of (input : CreateBookingInput) : BookingPayload :=
  mkBookingPayload (seatId input) (userId input).

(** The request is well formed, its key is new, and the lock of its seat
    can be taken. *)
Definition admissible (input : CreateBookingInput) (w : World) : Prop :=
  seatId input ≠ "" ∧ userId input ≠ "" ∧ idempotencyKey input ≠ ""
  ∧ idempotencyRecords (db (shared w)) !! idempotencyKey input = None
  ∧ lock_ready lockService (lockKey input) lockTtlMs w.

Lemma createBooking_run input w :
  admissible input w →
  ∃ w2,
    sched w2 = [] ∧ db (shared w2) = db (shared w) ∧ now (shared w2) = now (shared w)
    ∧ (entropy w < entropy w2)%N
    ∧ ∀ outcome w3,
        BookingService.createBooking_locked input w2 = (outcome, w3) → sched w3 = [] →
        ∃ w4,
          sched w4 = [] ∧ db (shared w4) = db (shared w3) ∧ now (shared w4) = now (shared w3)
          ∧ (∀ c, c ∈ RedlockService.clients lockService →
                  held_on (lockKey input) (drawn_token w) (shared w4) c = false)
          ∧ BookingService.createBooking process_env lockService idempotencyService input w
            = match outcome with
              | Ok result =>
                  (Ok (data result),
                   set_shared
                     (set_db (with_record
                                (success_record idempotencyService (idempotencyKey input)
                                   (payload_of input) (now (shared w)) (now (shared w4))
                                   result)))
                     w4)
              | Err error => (Err error, w4)
              end.
Proof.
  intros (Hseat & Huser & Hkey & Hrecord & Hlock).
  pose proof Hlock as (Hquiet & _).
  destruct (withLock_quiet lockService (lockKey input) lockTtlMs
              (BookingService.createBooking_locked input)
              (Some (js_floor (js_mul lockTtlMs (decimal 6 1)))) w Hlock)
    as (w2 & Hq2 & Hdb2 & Hnow2 & Hent2 & Hwork).
  exists w2. repeat (split; [done | ]).
  intros outcome w3 Hlocked Hq3.
  destruct (Hwork outcome w3 Hlocked Hq3) as (w4 & Hrun & Hq4 & Hdb4 & Hnow4 & Hfree).
  exists w4. repeat (split; [done | ]).
  unfold BookingService.createBooking.
  rewrite decide_False by (intros [? | ?]; done).
  rewrite decide_False by done.
  rewrite run_bind.
  fold (lockKey input) lockTtlMs (payload_of input).
  rewrite (checkOrCreate_fresh_run idempotencyService _ _ _ w w4 outcome Hkey Hquiet Hrecord Hrun).
  rewrite (env_step_quiet w4 Hq4).
  by destruct outcome.
Qed.


Lemma reserve_stays_quiet input w :
  sched w = [] → sched (BookingService.createBooking_locked input w).2 = [].
Proof.
  intros Hquiet. rewrite (reserve_quiet input w Hquiet).
  destruct (seats (db (shared w)) !! seatId input) as [seat | ]; [ | done].
  case_bool_decide; [done | ]. destruct (negb _); [done | ].
  case_decide; [ | done]. by destruct (seat.in_INTEGER _).
Qed.

(** A request is applied once, end to end: in a quiet environment, when
    [createBooking] answered a well-formed request under a new key with a
    booking, the same request made again is answered with that booking
    from the record of the key, provided that the response text parses
    back to it: nothing is written, no lock is taken, and the world is
    left as it was; and a request under the same key whose payload
    hashes differently is refused with a Conflict in the same way. *)
Theorem createBooking_once (input other : CreateBookingInput) (w : World)
  (booking : Booking.t) :
  admissible input w →
  let first := BookingService.createBooking process_env lockService idempotencyService input w in
  first.1 = Ok booking →
  JSON_stringify booking ≠ "" →
  JSON_parse (JSON_stringify booking) = Some booking →
  BookingService.createBooking process_env lockService idempotencyService input first.2
  = (Ok booking, first.2)
  ∧ (seatId other ≠ "" → userId other ≠ "" →
     idempotencyKey other = idempotencyKey input →
     IdempotencyService.hashRequest (payload_of other)
       ≠ IdempotencyService.hashRequest (payload_of input) →
     BookingService.createBooking process_env lockService idempotencyService other first.2
     = (Err (ConflictException "Idempotency key reuse with different payload"), first.2)).
Proof.
  intros Hadm first Hfirst Htext Hparse. pose proof Hadm as (Hseat & Huser & Hkey & _).
  destruct (createBooking_run input w Hadm) as (w2 & Hq2 & _ & _ & _ & Hrun).
  destruct (BookingService.createBooking_locked input w2) as [outcome w3] eqn:Hlocked.
  assert (sched w3 = []) as Hq3.
  { pose proof (reserve_stays_quiet input w2 Hq2) as Hq. by rewrite Hlocked in Hq. }
  destruct (Hrun outcome w3 eq_refl Hq3) as (w4 & Hq4 & _ & _ & _ & Hcall).
  subst first. rewrite Hcall in *.
  destruct outcome as [result | error]; [ | done].
  cbn [fst snd] in *. injection Hfirst as Hdata.
  set (row := success_record idempotencyService (idempotencyKey input) (payload_of input)
                (now (shared w)) (now (shared w4)) result).
  set (w5 := set_shared (set_db (with_record row)) w4).
  assert (env_step w5 = w5) as Hstep by by apply env_step_quiet.
  assert (idempotencyRecords (db (shared (env_step w5))) !! idempotencyKey input = Some row)
    as Hrow.
  { rewrite Hstep. simpl. apply lookup_insert_eq. }
  split.
  - unfold BookingService.createBooking.
    rewrite decide_False by (intros [? | ?]; done).
    rewrite decide_False by done.
    rewrite run_bind.
    rewrite (checkOrCreate_success_run idempotencyService _ _ _ w5 row Hkey Hrow);
      [ | done | done].
    rewrite Hstep. unfold replay.
    cbn [row success_record IdempotencyRecord.responseData IdempotencyRecord.statusCode].
    rewrite Hdata. by rewrite decide_False, Hparse.
  - intros Hseat' Huser' Hsame Hhash.
    unfold BookingService.createBooking.
    rewrite decide_False by (intros [? | ?]; done).
    rewrite decide_False by by rewrite Hsame.
    rewrite run_bind. rewrite Hsame.
    rewrite (checkOrCreate_other_payload idempotencyService _ _ _ w5 row Hkey Hrow);
      [by rewrite Hstep | ].
    cbn [row success_record IdempotencyRecord.requestHash]. intros [= Heq].
    by apply Hhash.
Qed.

(** A refused booking leaves no trace: in a quiet environment, for a
    well-formed request under a new key, with the lock of the seat free,
    [createBooking] fails with "Seat not found" when the seat does not
    exist, with "Seat already booked" when it is BOOKED and with "Seat
    currently on hold" when it is on a hold that has not expired; the
    lock is released on every node, and the store is as it was, without
    a booking and without a record of the key. *)
Theorem createBooking_refused (input : CreateBookingInput) (w : World) :
  admissible input w →
  let call := BookingService.createBooking process_env lockService idempotencyService input w in
  (match seats (db (shared w)) !! seatId input with
   | None => call.1 = Err (NotFoundException "Seat not found")
   | Some seat =>
       (Seat.status seat = BOOKED →
        call.1 = Err (ConflictException "Seat already booked"))
       ∧ (Seat.status seat = HOLD → hold_expired seat (now (shared w)) = false →
          call.1 = Err (ConflictException "Seat currently on hold"))
   end)
  ∧ (is_ok call.1 = false →
     db (shared call.2) = db (shared w)
     ∧ ∀ c, c ∈ RedlockService.clients lockService →
            held_on (lockKey input) (drawn_token w) (shared call.2) c = false).
Proof.
  intros Hadm call.
  destruct (createBooking_run input w Hadm) as (w2 & Hq2 & Hdb2 & Hnow2 & _ & Hrun).
  pose proof (reserve_quiet input w2 Hq2) as Hlocked. rewrite Hdb2, Hnow2 in Hlocked.
  pose proof (reserve_stays_quiet input w2 Hq2) as Hq3.
  destruct (BookingService.createBooking_locked input w2) as [outcome w3] eqn:Hrunlocked.
  destruct (Hrun outcome w3 eq_refl Hq3) as (w4 & Hq4 & Hdb4 & _ & Hfree & Hcall).
  subst call. rewrite Hcall. split.
  - destruct (seats (db (shared w)) !! seatId input) as [seat | ].
    + split.
      * intros Hst. rewrite bool_decide_eq_true_2 in Hlocked by done.
        by injection Hlocked as -> ->.
      * intros Hst Hexp. rewrite bool_decide_eq_false_2 in Hlocked by by rewrite Hst.
        unfold open_at in Hlocked. rewrite Hst, Hexp in Hlocked.
        by injection Hlocked as -> ->.
    + by injection Hlocked as -> ->.
  - destruct outcome as [result | error]; [done | ]. cbn [fst snd]. intros _.
    split; [ | done]. rewrite Hdb4.
    destruct (seats (db (shared w)) !! seatId input) as [seat | ].
    2: { injection Hlocked as _ ->. done. }
    case_bool_decide; [injection Hlocked as _ ->; done | ].
    destruct (negb _); [injection Hlocked as _ ->; done | ].
    case_decide; [ | injection Hlocked as _ ->; done].
    destruct (seat.in_INTEGER _); [done | ]. injection Hlocked as _ ->. done.
Qed.

End EndToEnd.

(** ** The earlier revision, end to end *)

Section Legacy.
Context `{Host}.
Variable process_env : gmap string string.
Variable lockService : RedisLockService.t.

(** In the earlier revision the bookings themselves record the keys: in
    a quiet environment, with the lock of the seat free, a well-formed
    request whose key a booking carries is answered with that booking
    when it is for the same seat and user, whatever the state of the
    seat, and refused with a Conflict when it is not; nothing is
    written, and the lock is released. *)
Theorem legacy_createBooking_replays (input : CreateBookingInput) (w : World)
  (n : Node) (id : string) (b : Booking.t) :
  sched w = [] →
  seatId input ≠ "" → userId input ≠ "" → idempotencyKey input ≠ "" →
  nodes (shared w) !! RedisLockService.client lockService = Some n → up n = true →
  node_get n (now (shared w)) ("seat:" +:+ seatId input) = None →
  is_integer (Env.envNumber process_env "LOCK_TTL_MS" 3000) = true →
  bookings (db (shared w)) !! id = Some b →
  Booking.idempotencyKey b = idempotencyKey input →
  (∀ id' b', bookings (db (shared w)) !! id' = Some b' →
             Booking.idempotencyKey b' = idempotencyKey input → id' = id) →
  let call := BookingServiceRedisLock.createBooking process_env lockService input w in
  call.1 = (if decide (Booking.seatId b ≠ seatId input ∨ Booking.userId b ≠ userId input)
            then Err (ConflictException "Idempotency key reuse with different payload")
            else Ok b)
  ∧ db (shared call.2) = db (shared w)
  ∧ not_held_on ("seat:" +:+ seatId input) (drawn_token w)
      (RedisLockService.client lockService) (shared call.2).
Proof.
  intros Hquiet Hseat Huser Hkey Hn Hup Hfree Hint Hb Hbkey Hunique call.
  set (key := "seat:" +:+ seatId input) in *.
  set (ttlMs := Env.envNumber process_env "LOCK_TTL_MS" 3000) in *.
  assert (0 < ttlMs)%Q as Hpos by by apply envNumber_positive.
  assert (at_set w = (randomUUID w).2) as Hset by by apply env_step_quiet.
  destruct (RedisLockService.acquireLock lockService key ttlMs w) as [r1 w1] eqn:Hacq.
  rewrite (single_acquireLock_run lockService key ttlMs w n) in Hacq;
    rewrite ?Hset; try done.
  rewrite Hset in Hacq. cbn [shared randomUUID snd] in Hacq. rewrite Hfree in Hacq.
  injection Hacq as <- Hw1.
  assert (sched w1 = [] ∧ db (shared w1) = db (shared w) ∧ now (shared w1) = now (shared w)
          ∧ nodes (shared w1) !! RedisLockService.client lockService
            = Some (granted_node key (drawn_token w) ttlMs (now (shared w)) n))
    as (Hq1 & Hdb1 & Hnow1 & Hn1).
  { subst w1. simpl. repeat split; try done.
    apply list_lookup_insert_eq. by eapply lookup_lt_Some. }
  assert (env_step w1 = w1) as Hstep1 by by apply env_step_quiet.
  assert (BookingServiceRedisLock.createBooking_locked input w1
          = (if decide (Booking.seatId b ≠ seatId input ∨ Booking.userId b ≠ userId input)
             then Err (ConflictException "Idempotency key reuse with different payload")
             else Ok b, w1)) as Hwork.
  { unfold BookingServiceRedisLock.createBooking_locked. rewrite run_transaction.
    rewrite (legacy_reserve_known_key input noRows w1 id b);
      rewrite ?Hstep1, ?overlay_noRows, ?Hdb1; try done.
    case_decide; [done | ]. by rewrite commit_nothing. }
  assert (call = (if decide (Booking.seatId b ≠ seatId input
                             ∨ Booking.userId b ≠ userId input)
                  then Err (ConflictException "Idempotency key reuse with different payload")
                  else Ok b,
                  (RedisLockService.releaseLock lockService key (drawn_token w) w1).2))
    as ->.
  { subst call. unfold BookingServiceRedisLock.createBooking.
    rewrite decide_False by (intros [? | ?]; done).
    rewrite decide_False by done.
    fold key ttlMs. unfold RedisLockService.withLock.
    rewrite run_bind.
    rewrite (single_acquireLock_run lockService key ttlMs w n); rewrite ?Hset; try done.
    cbn [shared randomUUID snd]. rewrite Hfree, Hw1.
    unfold try_finally. rewrite Hwork.
    rewrite (single_releaseLock_run lockService key (drawn_token w) w1 _
               ltac:(rewrite Hstep1; exact Hn1) Hup).
    by destruct (decide (node_get _ _ key = Some (drawn_token w))). }
  cbn [fst snd]. split; [done | ].
  rewrite (single_releaseLock_run lockService key (drawn_token w) w1 _
             ltac:(rewrite Hstep1; exact Hn1) Hup).
  rewrite Hstep1.
  destruct (decide (node_get _ _ key = Some (drawn_token w))) as [Hheld | Hheld]; simpl.
  - split; [done | ]. intros m Hm _. simpl in Hm.
    rewrite list_lookup_insert_eq in Hm by (by eapply lookup_lt_Some).
    injection Hm as <-. unfold node_get. simpl. by rewrite lookup_delete_eq.
  - split; [done | ]. intros m Hm _. simpl in Hm. rewrite Hn1 in Hm. injection Hm as <-.
    done.
Qed.

End Legacy.

(** ** Versions over sequences *)

Section VersionsOverSequences.
Context `{Host} `{Json Booking.t} `{Json BookingPayload}.
Variable process_env : gmap string string.
Variable lockService : RedlockService.t.
Variable seatLockService : RedisLockService.t.
Variable idempotencyService : IdempotencyService.t.

(** The version guard can be relied on: over every sequence of reserves,
    holds, reapers and lapses of time, with the reserves and holds
    overlapping at their awaits, no seat is removed, no version
    decreases, and a seat found under the version that was read is the
    row that was read. *)
Theorem seat_versions_guard (ops : list Op) (s : Shared) (id : string) (row : Seat.t) :
  seats (db s) !! id = Some row →
  ∃ row',
    seats (db (run_all process_env lockService seatLockService idempotencyService ops s))
      !! id = Some row'
    ∧ Seat.version row ≤ Seat.version row'
    ∧ (Seat.version row' = Seat.version row → row' = row).
Proof.
  intros Hrow.
  destruct (run_all_evolves process_env lockService seatLockService idempotencyService
              ops s) as [_ Hgrow].
  destruct (Hgrow id row Hrow) as (row' & Hrow' & Hcase).
  exists row'. split; [done | ].
  destruct Hcase as [-> | Hlt]; [done | ]. split; [lia | ]. intros Heq. lia.
Qed.

End VersionsOverSequences.

(** * The properties at work *)

(** A property of the members of a list given in full. *)
Ltac each_member :=
  let c := fresh "c" in
  let Hc := fresh "Hc" in
  intros c Hc;
  repeat (apply elem_of_cons in Hc as [-> | Hc]; [vm_compute; reflexivity | ]);
  by apply elem_of_nil in Hc.

Ltac by_computation := apply (bool_decide_unpack _); vm_compute; exact I.

Lemma single_lock_excludes_witness :
  let w := Demo.world noRows [Demo.free_node] 1000 [] in
  let first := RedisLockService.acquireLock Demo.seat_lock "seat:A" 3000 w in
  let w2 := set_shared (Demo.advance 1000) first.2 in
  nodes (shared (at_set w)) !! RedisLockService.client Demo.seat_lock = Some Demo.free_node
  ∧ up Demo.free_node = true
  ∧ node_get Demo.free_node (now (shared (at_set w))) "seat:A" = None
  ∧ is_integer (of_Z 3000) = true ∧ (0 < of_Z 3000)%Q
  ∧ nodes (shared (at_set w2)) = nodes (shared first.2)
  ∧ (now (shared (at_set w2)) < now (shared (at_set w)) + Qfloor (of_Z 3000) →
     (RedisLockService.acquireLock Demo.seat_lock "seat:A" 3000 w2).1
       = Err (ConflictException "Lock already held"))
  ∧ (now (shared (at_set w)) + Qfloor (of_Z 3000) ≤ now (shared (at_set w2)) →
     (RedisLockService.acquireLock Demo.seat_lock "seat:A" 3000 w2).1
       = Ok (drawn_token w2)).
Proof.
  intros w first w2.
  assert (nodes (shared (at_set w)) !! RedisLockService.client Demo.seat_lock
          = Some Demo.free_node) as Hn by reflexivity.
  assert (node_get Demo.free_node (now (shared (at_set w))) "seat:A" = None)
    as Hfree by reflexivity.
  assert (0 < of_Z 3000)%Q as Hpos by reflexivity.
  assert (nodes (shared (at_set w2)) = nodes (shared first.2)) as Hnodes by reflexivity.
  do 6 (split; [first [assumption | reflexivity] | ]).
  exact (single_lock_excludes Demo.seat_lock "seat:A" 3000 3000 w w2 Demo.free_node
           Hn eq_refl Hfree eq_refl Hpos eq_refl Hpos Hnodes).
Defined.

Lemma single_lock_release_witness :
  let n := Demo.held_node "seat:A" "uuid-7" 9000 in
  let w := Demo.world noRows [n] 1000 [] in
  let after := (RedisLockService.releaseLock Demo.seat_lock "seat:A" "uuid-7" w).2 in
  nodes (shared (env_step w)) !! RedisLockService.client Demo.seat_lock = Some n
  ∧ up n = true
  ∧ (RedisLockService.releaseLock Demo.seat_lock "seat:A" "uuid-7" w).1 = Ok tt
  ∧ (∃ n', nodes (shared after) !! RedisLockService.client Demo.seat_lock = Some n'
           ∧ node_get n' 1000 "seat:A" = None)
  ∧ db (shared after) = db (shared (env_step w)).
Proof.
  intros n w after.
  assert (nodes (shared (env_step w)) !! RedisLockService.client Demo.seat_lock = Some n)
    as Hn by reflexivity.
  split; [exact Hn | ]. split; [reflexivity | ].
  destruct (single_lock_release Demo.seat_lock "seat:A" "uuid-7" w n Hn eq_refl)
    as (Hok & (n' & Hn' & Hgone & _) & _ & Hdb & _).
  split; [exact Hok | ]. split; [ | exact Hdb].
  exists n'. split; [exact Hn' | exact Hgone].
Defined.

Lemma single_withLock_busy_witness :
  let n := Demo.held_node "seat:A" "other" 9000 in
  let w := Demo.world noRows [n] 1000 [] in
  nodes (shared (at_set w)) !! RedisLockService.client Demo.seat_lock = Some n
  ∧ up n = true ∧ is_integer (of_Z 3000) = true ∧ (0 < of_Z 3000)%Q
  ∧ node_get n (now (shared (at_set w))) "seat:A" = Some "other"
  ∧ RedisLockService.withLock Demo.seat_lock "seat:A" 3000 Demo.visible_work w
    = (Err (ConflictException "Lock already held"),
       emit (EvSetPxNx (RedisLockService.client Demo.seat_lock) "seat:A" (drawn_token w)
               3000 (Ok false))
            (at_set w)).
Proof.
  intros n w.
  assert (nodes (shared (at_set w)) !! RedisLockService.client Demo.seat_lock = Some n)
    as Hn by reflexivity.
  assert (0 < of_Z 3000)%Q as Hpos by reflexivity.
  assert (node_get n (now (shared (at_set w))) "seat:A" = Some "other") as Hheld
    by reflexivity.
  do 5 (split; [first [assumption | reflexivity] | ]).
  exact (single_withLock_busy Demo.seat_lock "seat:A" 3000 Demo.visible_work w n "other"
           Hn eq_refl eq_refl Hpos Hheld).
Defined.

Lemma single_withLock_outcome_witness :
  let w := Demo.world noRows [Demo.free_node] 1000 [] in
  let w1 := (RedisLockService.acquireLock Demo.seat_lock "seat:A" 3000 w).2 in
  let w3 := (Demo.visible_work w1).2 in
  RedisLockService.acquireLock Demo.seat_lock "seat:A" 3000 w = (Ok "uuid-0", w1)
  ∧ Demo.visible_work w1 = (Ok (mkWorkResult 7 201), w3)
  ∧ (RedisLockService.withLock Demo.seat_lock "seat:A" 3000 Demo.visible_work w).1
    = Ok (mkWorkResult 7 201)
  ∧ not_held_on "seat:A" "uuid-0" (RedisLockService.client Demo.seat_lock)
      (shared (RedisLockService.withLock Demo.seat_lock "seat:A" 3000 Demo.visible_work w).2).
Proof.
  intros w w1 w3.
  assert (RedisLockService.acquireLock Demo.seat_lock "seat:A" 3000 w = (Ok "uuid-0", w1))
    as Hacq by reflexivity.
  assert (Demo.visible_work w1 = (Ok (mkWorkResult 7 201), w3)) as Hwork by reflexivity.
  split; [exact Hacq | ]. split; [exact Hwork | ].
  destruct (single_withLock_outcome Demo.seat_lock "seat:A" 3000 Demo.visible_work
              w w1 w3 "uuid-0" (Ok (mkWorkResult 7 201)) Hacq Hwork) as [Hup _].
  exact (Hup _ eq_refl eq_refl).
Defined.

Lemma redlock_quorum_majority_witness :
  let this := RedlockService.constructor ∅ [0; 1; 2]%nat in
  [0; 1; 2]%nat ≠ []
  ∧ RedlockService.quorum this = 2
  ∧ 3 < 2 * RedlockService.quorum this
  ∧ RedlockService.quorum this ≤ 3
  ∧ (0 < RedlockService.driftFactor this)%Q
  ∧ (0 < RedlockService.retryCount this)%Q
  ∧ (0 < RedlockService.retryDelayMs this)%Q.
Proof.
  intros this.
  assert ([0; 1; 2]%nat ≠ []) as Hne by discriminate.
  split; [exact Hne | ].
  exact (redlock_quorum_majority ∅ [0; 1; 2]%nat Hne).
Defined.

(** Three free nodes, and the lock manager over them. *)
Lemma cluster_reachable (d : Store) (t : Z) :
  ∀ c, c ∈ RedlockService.clients Demo.redlock →
       reachable_on (shared (Demo.world d Demo.cluster t [])) c = true.
Proof. each_member. Qed.

Lemma clients_NoDup : NoDup (RedlockService.clients Demo.redlock).
Proof. by_computation. Qed.

Lemma redlock_acquire_granted_witness :
  let this := Demo.redlock in
  let w := Demo.world Demo.hall Demo.cluster 1000 [] in
  let call := RedlockService.acquireLock this "seat:A" 5000 w in
  sched w = [] ∧ NoDup (RedlockService.clients this)
  ∧ (∀ c, c ∈ RedlockService.clients this → reachable_on (shared w) c = true)
  ∧ is_integer (of_Z 5000) = true ∧ (0 < of_Z 5000)%Q
  ∧ js_le (js_sub (js_sub 5000 (js_floor (js_mul 5000 (RedlockService.driftFactor this))))
                  (of_Z 0)) 0 = false
  ∧ (0 < RedlockService.retryCount this)%Q
  ∧ RedlockService.quorum this
    ≤ count_of (free_on "seat:A" (shared w)) (RedlockService.clients this)
  ∧ (∃ lockResult,
       call.1 = Ok lockResult ∧ token lockResult = "uuid-0"
       ∧ validityTime lockResult = 4950)
  ∧ (∀ c, c ∈ RedlockService.clients this → free_on "seat:A" (shared w) c = true →
          held_on "seat:A" "uuid-0" (shared call.2) c = true).
Proof.
  intros this w call.
  assert (0 < of_Z 5000)%Q as Hpos by reflexivity.
  assert (js_le (js_sub (js_sub 5000 (js_floor (js_mul 5000 (RedlockService.driftFactor this))))
                        (of_Z 0)) 0 = false)
    as Httl by (vm_compute; reflexivity).
  assert (0 < RedlockService.retryCount this)%Q as Hretry by reflexivity.
  assert (RedlockService.quorum this
          ≤ count_of (free_on "seat:A" (shared w)) (RedlockService.clients this))
    as Hquorum by (vm_compute; discriminate).
  destruct (redlock_acquire_granted this "seat:A" 5000 w eq_refl clients_NoDup
              (cluster_reachable Demo.hall 1000) eq_refl Hpos Httl Hretry Hquorum)
    as (Hgranted & Hheld & _).
  split; [reflexivity | ]. split; [exact clients_NoDup | ].
  split; [exact (cluster_reachable Demo.hall 1000) | ].
  split; [reflexivity | ]. split; [exact Hpos | ]. split; [exact Httl | ].
  split; [exact Hretry | ]. split; [exact Hquorum | ].
  split; [exact Hgranted | exact Hheld].
Defined.

Lemma redlock_acquire_unreachable_witness :
  let this := Demo.redlock in
  let w := Demo.world Demo.hall [Demo.free_node; mkNode false ∅; Demo.free_node] 1000 [] in
  let call := RedlockService.acquireLock this "seat:A" 5000 w in
  sched w = [] ∧ NoDup (RedlockService.clients this)
  ∧ is_integer (of_Z 5000) = true ∧ (0 < of_Z 5000)%Q
  ∧ js_le (js_sub (js_sub 5000 (js_floor (js_mul 5000 (RedlockService.driftFactor this))))
                  (of_Z 0)) 0 = false
  ∧ (0 < RedlockService.retryCount this)%Q
  ∧ 1%nat ∈ RedlockService.clients this ∧ reachable_on (shared w) 1 = false
  ∧ call.1 = Err closed
  ∧ (∀ c, c ∈ RedlockService.clients this → free_on "seat:A" (shared w) c = true →
          held_on "seat:A" (drawn_token w) (shared call.2) c = true)
  ∧ db (shared call.2) = db (shared w).
Proof.
  intros this w call.
  assert (0 < of_Z 5000)%Q as Hpos by reflexivity.
  assert (js_le (js_sub (js_sub 5000 (js_floor (js_mul 5000 (RedlockService.driftFactor this))))
                        (of_Z 0)) 0 = false)
    as Httl by (vm_compute; reflexivity).
  assert (0 < RedlockService.retryCount this)%Q as Hretry by reflexivity.
  assert (1%nat ∈ RedlockService.clients this) as Hin by by_computation.
  destruct (redlock_acquire_unreachable this "seat:A" 5000 w 1%nat eq_refl clients_NoDup
              eq_refl Hpos Httl Hretry Hin eq_refl)
    as (Hfail & _ & Hheld & Hdb).
  split; [reflexivity | ]. split; [exact clients_NoDup | ].
  split; [reflexivity | ]. split; [exact Hpos | ]. split; [exact Httl | ].
  split; [exact Hretry | ]. split; [exact Hin | ]. split; [reflexivity | ].
  split; [exact Hfail | ]. split; [exact Hheld | exact Hdb].
Defined.

(** Two of the three nodes hold the key for another caller. *)
Definition contended : World :=
  Demo.world Demo.hall
    [Demo.held_node "seat:A" "other" 99999; Demo.held_node "seat:A" "other" 99999;
     Demo.free_node] 1000 [].

Lemma redlock_acquire_excluded_witness :
  let this := Demo.redlock in
  let w := contended in
  let call := RedlockService.acquireLock this "seat:A" 5000 w in
  sched w = [] ∧ NoDup (RedlockService.clients this)
  ∧ (∀ c, c ∈ RedlockService.clients this → reachable_on (shared w) c = true)
  ∧ is_integer (of_Z 5000) = true ∧ (0 < of_Z 5000)%Q
  ∧ js_le (js_sub (js_sub 5000 (js_floor (js_mul 5000 (RedlockService.driftFactor this))))
                  (of_Z 0)) 0 = false
  ∧ (0 < RedlockService.retryCount this)%Q
  ∧ count_of (λ c, negb (blocked_on "seat:A" (drawn_token w)
                           (Qceiling (RedlockService.retryCount this)
                            * timeout_delay (RedlockService.retryDelayMs this))
                           (shared w) c))
             (RedlockService.clients this)
    < RedlockService.quorum this
  ∧ call.1 = Err (ConflictException "Failed to acquire lock on quorum of Redis instances")
  ∧ (∀ c, c ∈ RedlockService.clients this →
          held_on "seat:A" (drawn_token w) (shared call.2) c = false)
  ∧ db (shared call.2) = db (shared w).
Proof.
  intros this w call.
  assert (∀ c, c ∈ RedlockService.clients this → reachable_on (shared w) c = true)
    as Hreach by each_member.
  assert (0 < of_Z 5000)%Q as Hpos by reflexivity.
  assert (js_le (js_sub (js_sub 5000 (js_floor (js_mul 5000 (RedlockService.driftFactor this))))
                        (of_Z 0)) 0 = false)
    as Httl by (vm_compute; reflexivity).
  assert (0 < RedlockService.retryCount this)%Q as Hretry by reflexivity.
  assert (count_of (λ c, negb (blocked_on "seat:A" (drawn_token w)
                                 (Qceiling (RedlockService.retryCount this)
                                  * timeout_delay (RedlockService.retryDelayMs this))
                                 (shared w) c))
                   (RedlockService.clients this)
          < RedlockService.quorum this) as Hcount by (vm_compute; reflexivity).
  destruct (redlock_acquire_excluded this "seat:A" 5000 w eq_refl clients_NoDup
              Hreach eq_refl Hpos Httl Hretry Hcount)
    as (Hfail & Hgone & _ & Hdb).
  split; [reflexivity | ]. split; [exact clients_NoDup | ]. split; [exact Hreach | ].
  split; [reflexivity | ]. split; [exact Hpos | ]. split; [exact Httl | ].
  split; [exact Hretry | ]. split; [exact Hcount | ].
  split; [exact Hfail | ]. split; [exact Hgone | exact Hdb].
Defined.

Lemma redlock_mutual_exclusion_witness :
  let this := Demo.redlock in
  let w := Demo.world Demo.hall Demo.cluster 1000 [] in
  let first := RedlockService.acquireLock this "seat:A" 5000 w in
  let second := RedlockService.acquireLock this "seat:A" 3000 first.2 in
  sched w = [] ∧ NoDup (RedlockService.clients this)
  ∧ (∀ c, c ∈ RedlockService.clients this → reachable_on (shared w) c = true)
  ∧ is_integer (of_Z 5000) = true ∧ (0 < of_Z 5000)%Q
  ∧ js_le (js_sub (js_sub 5000 (js_floor (js_mul 5000 (RedlockService.driftFactor this))))
                  (of_Z 0)) 0 = false
  ∧ is_integer (of_Z 3000) = true ∧ (0 < of_Z 3000)%Q
  ∧ js_le (js_sub (js_sub 3000 (js_floor (js_mul 3000 (RedlockService.driftFactor this))))
                  (of_Z 0)) 0 = false
  ∧ (0 < RedlockService.retryCount this)%Q
  ∧ Z.of_nat (length (RedlockService.clients this)) < 2 * RedlockService.quorum this
  ∧ RedlockService.quorum this
    ≤ count_of (free_on "seat:A" (shared w)) (RedlockService.clients this)
  ∧ Qceiling (RedlockService.retryCount this)
    * timeout_delay (RedlockService.retryDelayMs this) < Qfloor (of_Z 5000)
  ∧ is_ok first.1 = true
  ∧ second.1
    = Err (ConflictException "Failed to acquire lock on quorum of Redis instances").
Proof.
  intros this w first second.
  assert (0 < of_Z 5000)%Q as Hpos by reflexivity.
  assert (js_le (js_sub (js_sub 5000 (js_floor (js_mul 5000 (RedlockService.driftFactor this))))
                        (of_Z 0)) 0 = false)
    as Httl by (vm_compute; reflexivity).
  assert (0 < of_Z 3000)%Q as Hpos' by reflexivity.
  assert (js_le (js_sub (js_sub 3000 (js_floor (js_mul 3000 (RedlockService.driftFactor this))))
                        (of_Z 0)) 0 = false)
    as Httl' by (vm_compute; reflexivity).
  assert (0 < RedlockService.retryCount this)%Q as Hretry by reflexivity.
  assert (Z.of_nat (length (RedlockService.clients this)) < 2 * RedlockService.quorum this)
    as Hmajority by reflexivity.
  assert (RedlockService.quorum this
          ≤ count_of (free_on "seat:A" (shared w)) (RedlockService.clients this))
    as Hquorum by (vm_compute; discriminate).
  assert (Qceiling (RedlockService.retryCount this)
          * timeout_delay (RedlockService.retryDelayMs this) < Qfloor (of_Z 5000))
    as Hlong by reflexivity.
  destruct (redlock_mutual_exclusion this "seat:A" 5000 3000 w eq_refl clients_NoDup
              (cluster_reachable Demo.hall 1000) eq_refl Hpos Httl eq_refl Hpos' Httl'
              Hretry Hmajority Hquorum Hlong)
    as (Hfirst & Hsecond & _).
  split; [reflexivity | ]. split; [exact clients_NoDup | ].
  split; [exact (cluster_reachable Demo.hall 1000) | ].
  split; [reflexivity | ]. split; [exact Hpos | ]. split; [exact Httl | ].
  split; [reflexivity | ]. split; [exact Hpos' | ]. split; [exact Httl' | ].
  split; [exact Hretry | ]. split; [exact Hmajority | ]. split; [exact Hquorum | ].
  split; [exact Hlong | ]. split; [exact Hfirst | exact Hsecond].
Defined.

(** The key is held under ["uuid-7"] on the first two nodes. *)
Definition held_by_two (second : Node) : World :=
  Demo.world Demo.hall
    [Demo.held_node "seat:A" "uuid-7" 9000; second; Demo.free_node] 1000 [].

Lemma redlock_extend_witness :
  let this := Demo.redlock in
  let w := held_by_two (Demo.held_node "seat:A" "uuid-7" 9000) in
  let call := RedlockService.extendLock this "seat:A" "uuid-7" 5000 w in
  sched w = [] ∧ NoDup (RedlockService.clients this)
  ∧ (∀ c, c ∈ RedlockService.clients this → reachable_on (shared w) c = true)
  ∧ is_integer (of_Z 5000) = true
  ∧ call.1 = Ok (RedlockService.quorum this
                 <=? count_of (held_on "seat:A" "uuid-7" (shared w))
                       (RedlockService.clients this))
  ∧ (∀ c, held_on "seat:A" "uuid-7" (shared w) c = false →
          nodes (shared call.2) !! c = nodes (shared w) !! c)
  ∧ db (shared call.2) = db (shared w).
Proof.
  intros this w call.
  assert (∀ c, c ∈ RedlockService.clients this → reachable_on (shared w) c = true)
    as Hreach by each_member.
  destruct (redlock_extend this "seat:A" "uuid-7" 5000 w eq_refl clients_NoDup Hreach
              eq_refl)
    as (Hanswer & _ & Hkept & Hdb).
  split; [reflexivity | ]. split; [exact clients_NoDup | ]. split; [exact Hreach | ].
  split; [reflexivity | ]. split; [exact Hanswer | ]. split; [exact Hkept | exact Hdb].
Defined.

Lemma redlock_extend_unreachable_witness :
  let this := Demo.redlock in
  let w := held_by_two (mkNode false ∅) in
  sched w = [] ∧ NoDup (RedlockService.clients this) ∧ is_integer (of_Z 5000) = true
  ∧ 1%nat ∈ RedlockService.clients this ∧ reachable_on (shared w) 1 = false
  ∧ (RedlockService.extendLock this "seat:A" "uuid-7" 5000 w).1 = Err closed.
Proof.
  intros this w.
  assert (1%nat ∈ RedlockService.clients this) as Hin by by_computation.
  split; [reflexivity | ]. split; [exact clients_NoDup | ]. split; [reflexivity | ].
  split; [exact Hin | ]. split; [reflexivity | ].
  exact (redlock_extend_unreachable this "seat:A" "uuid-7" 5000 w 1%nat eq_refl
           clients_NoDup eq_refl Hin eq_refl).
Defined.

Lemma redlock_release_token_checked_witness :
  let this := Demo.redlock in
  let w := held_by_two (Demo.held_node "seat:A" "other" 9000) in
  let call := RedlockService.releaseLock this "seat:A" "uuid-7" w in
  sched w = [] ∧ NoDup (RedlockService.clients this)
  ∧ call.1 = Ok tt
  ∧ (∀ c, held_on "seat:A" "uuid-7" (shared w) c = false →
          nodes (shared call.2) !! c = nodes (shared w) !! c).
Proof.
  intros this w call.
  destruct (redlock_release_token_checked this "seat:A" "uuid-7" w eq_refl clients_NoDup)
    as (Hok & _ & Hkept & _).
  split; [reflexivity | ]. split; [exact clients_NoDup | ].
  split; [exact Hok | exact Hkept].
Defined.


Lemma expireBookings_sweeps_witness :
  let w := Demo.world Demo.hall [] 1000 [] in
  let call := BookingCleanupService.expireBookings w in
  sched w = []
  ∧ versions_in_range
      (booked_among (expired_seats (now (shared w)) (db (shared w)))) (db (shared w))
  ∧ call.1 = Ok (Z.of_nat (size (filter (λ kr, confirmed_expired 1000 kr.2 = true)
                                        (bookings Demo.hall))))
  ∧ idempotencyRecords (db (shared call.2)) = idempotencyRecords Demo.hall
  ∧ BookingCleanupService.expireBookings call.2 = (Ok 0, call.2).
Proof.
  intros w call.
  assert (versions_in_range
            (booked_among (expired_seats (now (shared w)) (db (shared w)))) (db (shared w)))
    as Hrange by by_computation.
  destruct (expireBookings_sweeps w eq_refl) as [Hswept _].
  destruct (Hswept Hrange) as (Hcount & _ & _ & Hrecords & Hagain).
  split; [reflexivity | ]. split; [exact Hrange | ].
  split; [exact Hcount | ]. split; [exact Hrecords | exact Hagain].
Defined.



Lemma reserve_sets_no_expiry_witness :
  let w := Demo.world (Demo.seat_store (Seat.mk AVAILABLE 0 None)) [] 1000 [] in
  let booked := (BookingService.createBooking_locked Demo.request w).2 in
  let later := set_shared (Demo.advance 86400000) booked in
  sched w = [] ∧ without_expiry (db (shared w))
  ∧ sched later = [] ∧ db (shared later) = db (shared booked)
  ∧ is_ok (BookingService.createBooking_locked Demo.request w).1 = true
  ∧ BookingCleanupService.expireBookings later = (Ok 0, later).
Proof.
  intros w booked later.
  assert (without_expiry (db (shared w))) as Hnone.
  { intros i b Hb. vm_compute in Hb. discriminate. }
  split; [reflexivity | ]. split; [exact Hnone | ]. split; [reflexivity | ].
  split; [reflexivity | ]. split; [reflexivity | ].
  exact (reserve_sets_no_expiry Demo.request w later eq_refl Hnone eq_refl eq_refl).
Defined.

Lemma reserve_then_getBooking_witness :
  let seat := Seat.mk AVAILABLE 0 None in
  let w := Demo.world (Demo.seat_store seat) [] 1000 [] in
  let call := BookingService.createBooking_locked Demo.request w in
  let booking := Booking.mk "uuid-0" "A" "u1" CONFIRMED "k1" None in
  let booked := Seat.mk BOOKED 1 None in
  sched w = []
  ∧ seats (db (shared w)) !! seatId Demo.request = Some seat
  ∧ open_at seat (now (shared w)) = true
  ∧ seat.in_INTEGER (Seat.version seat + 1) = true
  ∧ bookings (db (shared w)) !! drawn_id w = None
  ∧ key_unused (idempotencyKey Demo.request) (db (shared w))
  ∧ call.1 = Ok (mkWorkResult booking 201)
  ∧ BookingService.getBooking "uuid-0" call.2 = (Ok (booking, Some booked), call.2)
  ∧ SeatService.getSeat "A" call.2 = (Ok booked, call.2).
Proof.
  intros seat w call booking booked.
  assert (seats (db (shared w)) !! seatId Demo.request = Some seat) as Hseat
    by (vm_compute; reflexivity).
  assert (bookings (db (shared w)) !! drawn_id w = None) as Hid by (vm_compute; reflexivity).
  assert (key_unused (idempotencyKey Demo.request) (db (shared w))) as Hkey.
  { intros id b Hb. vm_compute in Hb. discriminate. }
  destruct (reserve_then_getBooking Demo.request w seat eq_refl Hseat eq_refl eq_refl Hid Hkey)
    as (Hanswer & Hread & Hget & _).
  split; [reflexivity | ]. split; [exact Hseat | ]. split; [reflexivity | ].
  split; [reflexivity | ].
  split; [exact Hid | ]. split; [exact Hkey | ].
  split; [exact Hanswer | ]. split; [exact Hread | exact Hget].
Defined.



Lemma hall_admissible (input : CreateBookingInput) :
  seatId input ≠ "" → userId input ≠ "" → idempotencyKey input ≠ "" →
  admissible ∅ Demo.redlock input (Demo.world Demo.hall Demo.cluster 1000 []).
Proof.
  intros Hseat Huser Hkey. split; [done | ]. split; [done | ]. split; [done | ].
  split; [done | ]. split; [done | ]. split; [exact clients_NoDup | ].
  split; [exact (cluster_reachable Demo.hall 1000) | ].
  split; [reflexivity | ]. split; [reflexivity | ]. split; [reflexivity | ].
  split; [reflexivity | ]. vm_compute. discriminate.
Qed.


Lemma createBooking_once_witness :
  let w := Demo.world Demo.hall Demo.cluster 1000 [] in
  let booking := Booking.mk "uuid-2" "A" "u1" CONFIRMED "k1" None in
  let other := mkCreateBookingInput "B" "u1" "k1" in
  let createBooking :=
    @BookingService.createBooking Demo.host Demo.json_booking_read Demo.json_payload
      ∅ Demo.redlock Demo.idempotency in
  let first := createBooking Demo.request w in
  admissible ∅ Demo.redlock Demo.request w
  ∧ first.1 = Ok booking
  ∧ @JSON_stringify _ Demo.json_booking_read booking ≠ ""
  ∧ @JSON_parse _ Demo.json_booking_read (@JSON_stringify _ Demo.json_booking_read booking)
    = Some booking
  ∧ createBooking Demo.request first.2 = (Ok booking, first.2)
  ∧ createBooking other first.2
    = (Err (ConflictException "Idempotency key reuse with different payload"), first.2).
Proof.
  intros w booking other createBooking first.
  assert (admissible ∅ Demo.redlock Demo.request w) as Hadm
    by (apply hall_admissible; discriminate).
  assert (first.1 = Ok booking) as Hfirst by (vm_compute; reflexivity).
  assert (@JSON_stringify _ Demo.json_booking_read booking ≠ "") as Htext
    by (vm_compute; discriminate).
  assert (@JSON_parse _ Demo.json_booking_read
            (@JSON_stringify _ Demo.json_booking_read booking) = Some booking) as Hparse
    by (vm_compute; reflexivity).
  destruct (@createBooking_once Demo.host Demo.json_booking_read Demo.json_payload
              ∅ Demo.redlock Demo.idempotency Demo.request other w booking
              Hadm Hfirst Htext Hparse) as [Hagain Hother].
  split; [exact Hadm | ]. split; [exact Hfirst | ]. split; [exact Htext | ].
  split; [exact Hparse | ]. split; [exact Hagain | ].
  apply Hother; [discriminate | discriminate | reflexivity | ].
  vm_compute. discriminate.
Defined.

Lemma createBooking_refused_witness :
  let w := Demo.world Demo.hall Demo.cluster 1000 [] in
  let input := mkCreateBookingInput "C" "u1" "k1" in
  let call := BookingService.createBooking ∅ Demo.redlock Demo.idempotency input w in
  admissible ∅ Demo.redlock input w
  ∧ call.1 = Err (ConflictException "Seat already booked")
  ∧ db (shared call.2) = db (shared w)
  ∧ ∀ c, c ∈ RedlockService.clients Demo.redlock →
         held_on (lockKey input) (drawn_token w) (shared call.2) c = false.
Proof.
  intros w input call.
  assert (admissible ∅ Demo.redlock input w) as Hadm
    by (apply hall_admissible; discriminate).
  split; [exact Hadm | ].
  destruct (createBooking_refused ∅ Demo.redlock Demo.idempotency input w Hadm)
    as [Hcases Hclean].
  assert (seats (db (shared w)) !! seatId input = Some (Seat.mk BOOKED 8 None)) as Hseat
    by (vm_compute; reflexivity).
  rewrite Hseat in Hcases. destruct Hcases as [Hbooked _].
  assert (call.1 = Err (ConflictException "Seat already booked")) as Hanswer
    by exact (Hbooked eq_refl).
  split; [exact Hanswer | ].
  apply Hclean. fold call. by rewrite Hanswer.
Defined.

Lemma legacy_createBooking_replays_witness :
  let b := Booking.mk "b0" "A" "u1" CONFIRMED "k1" None in
  let d := mkStore {[ "A" := Seat.mk BOOKED 1 None ]} {[ "b0" := b ]} ∅ in
  let w := Demo.world d [Demo.free_node] 1000 [] in
  let call := BookingServiceRedisLock.createBooking ∅ Demo.seat_lock Demo.request w in
  sched w = []
  ∧ seatId Demo.request ≠ "" ∧ userId Demo.request ≠ "" ∧ idempotencyKey Demo.request ≠ ""
  ∧ nodes (shared w) !! RedisLockService.client Demo.seat_lock = Some Demo.free_node
  ∧ up Demo.free_node = true
  ∧ node_get Demo.free_node (now (shared w)) ("seat:" +:+ seatId Demo.request) = None
  ∧ is_integer (Env.envNumber ∅ "LOCK_TTL_MS" 3000) = true
  ∧ bookings (db (shared w)) !! "b0" = Some b
  ∧ Booking.idempotencyKey b = idempotencyKey Demo.request
  ∧ (∀ id' b', bookings (db (shared w)) !! id' = Some b' →
               Booking.idempotencyKey b' = idempotencyKey Demo.request → id' = "b0")
  ∧ call.1 = Ok b
  ∧ db (shared call.2) = db (shared w).
Proof.
  intros b d w call.
  assert (seatId Demo.request ≠ "") as Hseat by discriminate.
  assert (userId Demo.request ≠ "") as Huser by discriminate.
  assert (idempotencyKey Demo.request ≠ "") as Hkey by discriminate.
  assert (bookings (db (shared w)) !! "b0" = Some b) as Hb by (vm_compute; reflexivity).
  assert (∀ id' b', bookings (db (shared w)) !! id' = Some b' →
                    Booking.idempotencyKey b' = idempotencyKey Demo.request → id' = "b0")
    as Hunique.
  { intros id' b' Hb' _. simpl in Hb'. by apply lookup_singleton_Some in Hb' as [<- _]. }
  assert (is_integer (Env.envNumber ∅ "LOCK_TTL_MS" 3000) = true) as Hint
    by (vm_compute; reflexivity).
  destruct (legacy_createBooking_replays ∅ Demo.seat_lock Demo.request w Demo.free_node
              "b0" b eq_refl Hseat Huser Hkey eq_refl eq_refl eq_refl Hint Hb eq_refl
              Hunique) as (Hanswer & Hdb & _).
  split; [reflexivity | ]. split; [exact Hseat | ]. split; [exact Huser | ].
  split; [exact Hkey | ]. split; [reflexivity | ]. split; [reflexivity | ].
  split; [reflexivity | ]. split; [exact Hint | ]. split; [exact Hb | ].
  split; [reflexivity | ]. split; [exact Hunique | ].
  split; [exact Hanswer | exact Hdb].
Defined.

Lemma seat_versions_witness :
  let other := Seat.mk HOLD 1 (Some 99999) in
  let w := Demo.world (Demo.seat_store (Seat.mk AVAILABLE 0 None)) [] 1000
                      [Demo.idle; Demo.overwrite_seat other] in
  let call := BookingService.createBooking_locked Demo.request w in
  call.1 = Err (ConflictException "Seat changed during booking")
  ∧ ∃ before,
      before ∈ [at_read w; at_insert w; at_update w]
      ∧ versions_step (db (shared before)) (db (shared call.2))
          (λ id _, bool_decide (id = seatId Demo.request) && is_ok call.1).
Proof.
  intros other w call. split; [vm_compute; reflexivity | ].
  pose proof (proj1 (seat_versions ∅ w) Demo.request) as Hreserve. cbv zeta in Hreserve.
  destruct Hreserve as (before & Hin & Hstep & _).
  exists before. split; [exact Hin | exact Hstep].
Defined.

Lemma seat_versions_guard_witness :
  let s := mkShared Demo.hall Demo.cluster 1000 in
  let row := Seat.mk AVAILABLE 0 None in
  seats (db s) !! "A" = Some row
  ∧ ∃ row',
      seats (db (run_all ∅ Demo.redlock Demo.seat_lock Demo.idempotency a_day s)) !! "A"
      = Some row'
      ∧ Seat.version row ≤ Seat.version row'
      ∧ (Seat.version row' = Seat.version row → row' = row).
Proof.
  intros s row.
  assert (seats (db s) !! "A" = Some row) as Hrow by (vm_compute; reflexivity).
  split; [exact Hrow | ].
  exact (seat_versions_guard ∅ Demo.redlock Demo.seat_lock Demo.idempotency a_day s "A" row
           Hrow).
Defined.
